(** * LiveChat: the realtime voice pipeline of the application

    A shallow embedding of the live-chat component (the [LiveChat] React
    component and its audio helpers [encode], [decode], [decodeAudioData]
    and [createBlob]) together with the properties its specification
    states about it.

    Conventions.
    - A JavaScript string is the list of its UTF-16 code units ([jsstring]);
      a [Uint8Array] is a list of integers in [0, 256); an [Int16Array] a
      list of integers in [-32768, 32768).
    - A [Float32Array] sample is a rational number.  Every finite float is a
      dyadic rational, the product of a binary32 value with 32768 is exact in
      binary64, and the quotient of a 16-bit integer by 32768 is exactly
      representable in binary32, so the arithmetic the helpers perform on
      finite samples is exact rational arithmetic.
    - A time of the output clock and the duration of a buffer are binary64
      numbers, each given as the rational it denotes.  [Math.max] is exact;
      the quotient that gives a duration and the sum that advances
      [nextStartTime] are rounded to nearest, ties to even ([toDouble]).
      A sum only overflows past 2^1024 seconds; infinities are left out.
    - The handlers of the component run to completion one after the other
      (the JavaScript event loop); each is a function on [World] in a small
      state-and-exception monad. *)

From Stdlib Require Import ZArith QArith Qround Qminmax Qabs Qpower.
From Stdlib Require Import String Ascii Bool List Lia Lqa.
Import ListNotations.

Local Open Scope Z_scope.

(** ** JavaScript strings and typed arrays *)

Definition jsstring := list Z.
Definition Uint8Array := list Z.
Definition Int16Array := list Z.
Definition Float32Array := list Q.

Definition is_byte (b : Z) : Prop := 0 <= b < 256.
Definition is_int16 (z : Z) : Prop := -32768 <= z < 32768.

(** [String.fromCharCode(n)] is the one-unit string of [ToUint16(n)]. *)
Definition fromCharCode (n : Z) : Z := n mod 65536.

(** Storing a number in a [Uint8Array] keeps it modulo 256. *)
Definition toUint8 (n : Z) : Z := n mod 256.

(** Storing an integer in an [Int16Array] keeps its low 16 bits, read as a
    two's-complement number. *)
Definition toInt16 (n : Z) : Z := (n + 32768) mod 65536 - 32768.

(** The code units of a Rocq string, for writing literals. *)
Fixpoint js (s : string) : jsstring :=
  match s with
  | EmptyString => []
  | String c r => Z.of_N (Ascii.N_of_ascii c) :: js r
  end.

(** ** The host's [btoa] and [atob]

    Both are functions of the browser, not of the repository; they are
    written after the HTML standard (forgiving-base64 encode and decode). *)

Module Base64.

Definition pad : Z := 61. (* '=' *)

Definition charOfSextet (v : Z) : Z :=
  if v <? 26 then 65 + v              (* 'A'..'Z' *)
  else if v <? 52 then 97 + (v - 26)  (* 'a'..'z' *)
  else if v <? 62 then 48 + (v - 52)  (* '0'..'9' *)
  else if v =? 62 then 43             (* '+' *)
  else 47.                            (* '/' *)

Definition sextetOfChar (c : Z) : option Z :=
  if (65 <=? c) && (c <=? 90) then Some (c - 65)
  else if (97 <=? c) && (c <=? 122) then Some (c - 97 + 26)
  else if (48 <=? c) && (c <=? 57) then Some (c - 48 + 52)
  else if c =? 43 then Some 62
  else if c =? 47 then Some 63
  else None.

(** TAB, LF, FF, CR and SPACE. *)
Definition isAsciiWhitespace (c : Z) : bool :=
  (c =? 9) || (c =? 10) || (c =? 12) || (c =? 13) || (c =? 32).

(** Three octets make four sextets; one or two trailing octets make two
    or three. *)
Fixpoint sextets (l : list Z) : list Z :=
  match l with
  | [] => []
  | [a] => [a / 4; (a mod 4) * 16]
  | [a; b] => [a / 4; (a mod 4) * 16 + b / 16; (b mod 16) * 4]
  | a :: b :: c :: r =>
      a / 4 :: (a mod 4) * 16 + b / 16 :: (b mod 16) * 4 + c / 64
        :: c mod 64 :: sextets r
  end.

Fixpoint padding (l : list Z) : list Z :=
  match l with
  | [] => []
  | [_] => [pad; pad]
  | [_; _] => [pad]
  | _ :: _ :: _ :: r => padding r
  end.

(** [btoa] throws InvalidCharacterError ([None]) when a code unit is
    above 255. *)
Definition btoa (s : jsstring) : option jsstring :=
  if forallb (fun c => c <=? 255) s
  then Some (map charOfSextet (sextets s) ++ padding s)
  else None.

(** Four sextets make three octets; a final group of two or three makes
    one or two, the spare bits being discarded. *)
Fixpoint octets (v : list Z) : list Z :=
  match v with
  | w :: x :: y :: z :: r =>
      w * 4 + x / 16 :: (x mod 16) * 16 + y / 4 :: (y mod 4) * 64 + z
        :: octets r
  | [w; x; y] => [w * 4 + x / 16; (x mod 16) * 16 + y / 4]
  | [w; x] => [w * 4 + x / 16]
  | _ => []
  end.

(** One or two trailing ['='] are removed. *)
Definition stripPadding (s : jsstring) : jsstring :=
  match rev s with
  | c1 :: c2 :: r =>
      if c1 =? pad then if c2 =? pad then rev r else rev (c2 :: r) else s
  | [c1] => if c1 =? pad then [] else s
  | [] => s
  end.

Fixpoint mapM {A B : Type} (f : A -> option B) (l : list A) : option (list B) :=
  match l with
  | [] => Some []
  | a :: r =>
      match f a, mapM f r with
      | Some b, Some r' => Some (b :: r')
      | _, _ => None
      end
  end.

(** [atob] throws InvalidCharacterError ([None]) on text that is not
    base64. *)
Definition atob (s : jsstring) : option jsstring :=
  let s1 := filter (fun c => negb (isAsciiWhitespace c)) s in
  let s2 := if Z.of_nat (length s1) mod 4 =? 0 then stripPadding s1 else s1 in
  if Z.of_nat (length s2) mod 4 =? 1 then None
  else match mapM sextetOfChar s2 with
       | Some v => Some (octets v)
       | None => None
       end.

Definition is_sextet (v : Z) : Prop := 0 <= v < 64.

End Base64.

(** ** The audio helpers of the component *)

(** [encode]: the loop appends [String.fromCharCode(bytes[i])] for each
    index in turn, and the result goes through [btoa]. *)
Definition encode (bytes : Uint8Array) : option jsstring :=
  let binary := map fromCharCode bytes in
  Base64.btoa binary.

(** [decode]: [atob], then each [charCodeAt(i)] stored in a fresh
    [Uint8Array] of the same length. *)
Definition decode (base64 : jsstring) : option Uint8Array :=
  match Base64.atob base64 with
  | Some binaryString => Some (map toUint8 binaryString)
  | None => None
  end.


(** The integer part of a number (rounding toward zero), the first step
    of the conversion of a number to an integer type. *)
Definition Qtrunc (x : Q) : Z := Z.quot (Qnum x) (Zpos (Qden x)).

(** The assignment [int16[i] = v] of a finite number [v]. *)
Definition storeInt16 (v : Q) : Z := toInt16 (Qtrunc v).

(** The buffer of an [Int16Array] seen as bytes, low byte first: typed
    arrays have the byte order of the platform, and the wire format is
    little-endian. *)
Definition int16Bytes (z : Z) : list Z := [z mod 256; (z / 256) mod 256].

Definition bufferOfInt16 (a : Int16Array) : Uint8Array :=
  flat_map int16Bytes a.

(** [new Int16Array(buffer)] throws RangeError ([None]) when the byte
    length of the buffer is odd. *)
Fixpoint int16OfBuffer (b : Uint8Array) : option Int16Array :=
  match b with
  | [] => Some []
  | [_] => None
  | lo :: hi :: r =>
      match int16OfBuffer r with
      | Some a => Some (toInt16 (lo + 256 * hi) :: a)
      | None => None
      end
  end.

Record AudioBuffer := {
  numberOfChannels : nat;
  bufferLength : nat;
  sampleRate : Z;
  channelData : list Float32Array
}.

(** ** Binary64 arithmetic *)

Definition pow2 (e : Z) : Q := (2 ^ e)%Q.

(** The binary exponent of a number that is not zero: the [e] with
    [2^e <= |x| < 2^(e+1)]. *)
Definition exponent (x : Q) : Z :=
  let n := Z.abs (Qnum x) in
  let d := Zpos (Qden x) in
  let a := Z.log2 n in
  let b := Z.log2 d in
  if d * 2 ^ a <=? n * 2 ^ b then a - b else a - b - 1.

(** The nearest integer, the even one of the two when they are as near. *)
Definition roundHalfEven (x : Q) : Z :=
  let f := Qfloor x in
  match (x - inject_Z f ?= 1 # 2)%Q with
  | Lt => f
  | Gt => f + 1
  | Eq => if Z.even f then f else f + 1
  end.

(** The distance between the binary64 numbers around [x]: 53 bits of
    precision, and no exponent below -1022 (the subnormal numbers). *)
Definition ulp (x : Q) : Q := pow2 (Z.max (exponent x) (-1022) - 52).

(** The binary64 number an arithmetic operation returns when its exact
    result is [x]: the nearest one, ties to even. *)
Definition toDouble (x : Q) : Q :=
  if Qeq_bool x 0 then 0%Q
  else Qred (inject_Z (roundHalfEven (x / ulp x)) * ulp x).

(** [AudioBuffer.duration]: the quotient of the length by the rate, a
    binary64 number. *)
Definition duration (b : AudioBuffer) : Q :=
  toDouble (inject_Z (Z.of_nat (bufferLength b)) / inject_Z (sampleRate b))%Q.

(** [decodeAudioData].  [createBuffer] throws NotSupportedError ([None])
    for an argument that is zero, negative or outside its nominal range,
    and it takes the integer part of [frameCount].  The nominal ranges are
    taken to be the ones every implementation has: 1 to 32 channels and
    8000 to 96000 frames per second; the component asks for one channel at
    24000. *)
Definition decodeAudioData (data : Uint8Array) (sampleRate : Z)
    (numChannels : nat) : option AudioBuffer :=
  match int16OfBuffer data with
  | None => None
  | Some dataInt16 =>
      let frameCount := (length dataInt16 / numChannels)%nat in
      if (numChannels =? 0)%nat || (32 <? numChannels)%nat
         || (frameCount =? 0)%nat
         || (sampleRate <? 8000) || (96000 <? sampleRate)
      then None
      else
        Some {| numberOfChannels := numChannels;
                bufferLength := frameCount;
                sampleRate := sampleRate;
                channelData :=
                  map (fun channel =>
                         map (fun i =>
                                (inject_Z
                                   (nth (i * numChannels + channel) dataInt16 0%Z)
                                 / 32768)%Q)
                           (seq 0 frameCount))
                    (seq 0 numChannels) |}
  end.

Record GenAIBlob := {
  data : jsstring;
  mimeType : string
}.

(** [createBlob]. *)
Definition createBlob (data : Float32Array) : option GenAIBlob :=
  let int16 := map (fun x => storeInt16 (x * 32768)%Q) data in
  match encode (bufferOfInt16 int16) with
  | Some d => Some {| data := d; mimeType := "audio/pcm;rate=16000" |}
  | None => None
  end.

(** What one sample becomes on the way out and back in. *)
Definition roundTripSample (x : Q) : Q :=
  (inject_Z (storeInt16 (x * 32768)) / 32768)%Q.

(** One frame through [createBlob], the wire, [decode] and
    [decodeAudioData] on one channel. *)
Definition roundTrip (frame : Float32Array) : option Float32Array :=
  match createBlob frame with
  | None => None
  | Some blob =>
      match decode (data blob) with
      | None => None
      | Some bytes =>
          match decodeAudioData bytes 24000 1 with
          | Some buffer => Some (nth 0 (channelData buffer) [])
          | None => None
          end
      end
  end.

(** ** The state of the component and of its host *)

Record Turn := {
  user : string;
  model : string
}.

(** A part of a turn of the model, as far as the handler reads it: its
    [inlineData], which a part of text does not have, and the [data] of
    that. *)
Record Part := {
  inlineData : option (option jsstring)
}.

(** The message of the server as the handler reads it; the type
    [LiveServerMessage] belongs to the SDK and is not part of the sources.
    Every field is read through [message.serverContent?.].  [modelTurn] is
    [None] when the server content or its model turn is absent; otherwise
    it holds the [parts] of the turn, which may be absent too.  The two
    sides of the partial transcript are [inputTranscription] (user) and
    [outputTranscription] (model). *)
Record LiveServerMessage := {
  modelTurn : option (option (list Part));
  interrupted : bool;
  inputTranscription : option string;
  outputTranscription : option string;
  turnComplete : bool
}.

(** [message.serverContent?.modelTurn?.parts[0]?.inlineData.data].  [?.]
    stops the chain on an absent model turn and on an absent first part;
    [parts[0]] of absent parts and [.data] of an absent [inlineData] throw
    TypeError ([None]). *)
Definition readAudioData (message : LiveServerMessage)
  : option (option jsstring) :=
  match modelTurn message with
  | None => Some None
  | Some None => None
  | Some (Some []) => Some None
  | Some (Some (part :: _)) =>
      match inlineData part with
      | Some d => Some d
      | None => None
      end
  end.

(** The audio of a message that can be read, and whether it can. *)
Definition audioChunk (message : LiveServerMessage) : option jsstring :=
  match readAudioData message with
  | Some d => d
  | None => None
  end.

Definition malformed (message : LiveServerMessage) : bool :=
  match readAudioData message with
  | Some _ => false
  | None => true
  end.

(** The values made with [useState]. *)
Record Ui := {
  isSessionActive : bool;
  error : option string;
  transcripts : list Turn;
  currentInput : string;
  currentOutput : string
}.

(** The cells made with [useRef].  Host objects (streams, audio contexts,
    audio nodes, session promises) are known by a number. *)
Record Refs := {
  sessionPromiseRef : option nat;
  mediaStreamRef : option nat;
  inputAudioContextRef : option nat;
  outputAudioContextRef : option nat;
  scriptProcessorRef : option nat;
  mediaStreamSourceRef : option nat;
  nextStartTimeRef : Q;
  sourcesRef : list nat        (* a [Set], in insertion order *)
}.

Inductive PromiseState := Pending | Fulfilled | Rejected.

(** The two callbacks the component chains on the session promise. *)
Inductive Reaction :=
| CloseSession                           (* session => session.close() *)
| SendRealtimeInput (media : GenAIBlob). (* session => session.sendRealtimeInput({media}) *)

(** A call of [ai.live.connect]: the promise it returned, the callbacks
    waiting on that promise, and what the callbacks passed to it close
    over, namely the stream and the [currentInput] and [currentOutput] of
    the render that made this [startSession]. *)
Record Session := {
  promise : PromiseState;
  reactions : list Reaction;
  stream : nat;
  capturedInput : string;
  capturedOutput : string
}.

(** A call of [startSession] suspended at [await getUserMedia]. *)
Record StartCall := {
  renderInput : string;
  renderOutput : string;
  awaiting : bool
}.

(** What the component did to the host, in order. *)
Inductive Call :=
| TrackStop (stream : nat)
| Disconnect (node : nat)
| ContextClose (ctx : nat)
| SessionClose (sid : nat)
| SessionSend (sid : nat) (media : GenAIBlob)
| SourceStart (node : nat) (when : Q) (length : Q)
| SourceStop (node : nat).

Record Host := {
  sessions : list Session;
  processors : list nat;      (* script processors with [onaudioprocess] set *)
  startCalls : list StartCall;
  nextId : nat;
  calls : list Call
}.

Record World := {
  ui : Ui;
  refs : Refs;
  host : Host
}.

Definition set_isSessionActive v (u : Ui) : Ui :=
  {| isSessionActive := v; error := error u; transcripts := transcripts u;
     currentInput := currentInput u; currentOutput := currentOutput u |}.
Definition set_error v (u : Ui) : Ui :=
  {| isSessionActive := isSessionActive u; error := v;
     transcripts := transcripts u;
     currentInput := currentInput u; currentOutput := currentOutput u |}.
Definition set_transcripts v (u : Ui) : Ui :=
  {| isSessionActive := isSessionActive u; error := error u; transcripts := v;
     currentInput := currentInput u; currentOutput := currentOutput u |}.
Definition set_currentInput v (u : Ui) : Ui :=
  {| isSessionActive := isSessionActive u; error := error u;
     transcripts := transcripts u;
     currentInput := v; currentOutput := currentOutput u |}.
Definition set_currentOutput v (u : Ui) : Ui :=
  {| isSessionActive := isSessionActive u; error := error u;
     transcripts := transcripts u;
     currentInput := currentInput u; currentOutput := v |}.

Definition set_sessionPromiseRef v (r : Refs) : Refs :=
  {| sessionPromiseRef := v; mediaStreamRef := mediaStreamRef r;
     inputAudioContextRef := inputAudioContextRef r;
     outputAudioContextRef := outputAudioContextRef r;
     scriptProcessorRef := scriptProcessorRef r;
     mediaStreamSourceRef := mediaStreamSourceRef r;
     nextStartTimeRef := nextStartTimeRef r; sourcesRef := sourcesRef r |}.
Definition set_mediaStreamRef v (r : Refs) : Refs :=
  {| sessionPromiseRef := sessionPromiseRef r; mediaStreamRef := v;
     inputAudioContextRef := inputAudioContextRef r;
     outputAudioContextRef := outputAudioContextRef r;
     scriptProcessorRef := scriptProcessorRef r;
     mediaStreamSourceRef := mediaStreamSourceRef r;
     nextStartTimeRef := nextStartTimeRef r; sourcesRef := sourcesRef r |}.
Definition set_inputAudioContextRef v (r : Refs) : Refs :=
  {| sessionPromiseRef := sessionPromiseRef r;
     mediaStreamRef := mediaStreamRef r;
     inputAudioContextRef := v;
     outputAudioContextRef := outputAudioContextRef r;
     scriptProcessorRef := scriptProcessorRef r;
     mediaStreamSourceRef := mediaStreamSourceRef r;
     nextStartTimeRef := nextStartTimeRef r; sourcesRef := sourcesRef r |}.
Definition set_outputAudioContextRef v (r : Refs) : Refs :=
  {| sessionPromiseRef := sessionPromiseRef r;
     mediaStreamRef := mediaStreamRef r;
     inputAudioContextRef := inputAudioContextRef r;
     outputAudioContextRef := v;
     scriptProcessorRef := scriptProcessorRef r;
     mediaStreamSourceRef := mediaStreamSourceRef r;
     nextStartTimeRef := nextStartTimeRef r; sourcesRef := sourcesRef r |}.
Definition set_scriptProcessorRef v (r : Refs) : Refs :=
  {| sessionPromiseRef := sessionPromiseRef r;
     mediaStreamRef := mediaStreamRef r;
     inputAudioContextRef := inputAudioContextRef r;
     outputAudioContextRef := outputAudioContextRef r;
     scriptProcessorRef := v;
     mediaStreamSourceRef := mediaStreamSourceRef r;
     nextStartTimeRef := nextStartTimeRef r; sourcesRef := sourcesRef r |}.
Definition set_mediaStreamSourceRef v (r : Refs) : Refs :=
  {| sessionPromiseRef := sessionPromiseRef r;
     mediaStreamRef := mediaStreamRef r;
     inputAudioContextRef := inputAudioContextRef r;
     outputAudioContextRef := outputAudioContextRef r;
     scriptProcessorRef := scriptProcessorRef r;
     mediaStreamSourceRef := v;
     nextStartTimeRef := nextStartTimeRef r; sourcesRef := sourcesRef r |}.
Definition set_nextStartTimeRef v (r : Refs) : Refs :=
  {| sessionPromiseRef := sessionPromiseRef r;
     mediaStreamRef := mediaStreamRef r;
     inputAudioContextRef := inputAudioContextRef r;
     outputAudioContextRef := outputAudioContextRef r;
     scriptProcessorRef := scriptProcessorRef r;
     mediaStreamSourceRef := mediaStreamSourceRef r;
     nextStartTimeRef := v; sourcesRef := sourcesRef r |}.
Definition set_sourcesRef v (r : Refs) : Refs :=
  {| sessionPromiseRef := sessionPromiseRef r;
     mediaStreamRef := mediaStreamRef r;
     inputAudioContextRef := inputAudioContextRef r;
     outputAudioContextRef := outputAudioContextRef r;
     scriptProcessorRef := scriptProcessorRef r;
     mediaStreamSourceRef := mediaStreamSourceRef r;
     nextStartTimeRef := nextStartTimeRef r; sourcesRef := v |}.

Definition set_sessions v (h : Host) : Host :=
  {| sessions := v; processors := processors h; startCalls := startCalls h;
     nextId := nextId h; calls := calls h |}.
Definition set_processors v (h : Host) : Host :=
  {| sessions := sessions h; processors := v; startCalls := startCalls h;
     nextId := nextId h; calls := calls h |}.
Definition set_startCalls v (h : Host) : Host :=
  {| sessions := sessions h; processors := processors h; startCalls := v;
     nextId := nextId h; calls := calls h |}.
Definition set_nextId v (h : Host) : Host :=
  {| sessions := sessions h; processors := processors h;
     startCalls := startCalls h; nextId := v; calls := calls h |}.
Definition set_calls v (h : Host) : Host :=
  {| sessions := sessions h; processors := processors h;
     startCalls := startCalls h; nextId := nextId h; calls := v |}.

Definition with_ui (f : Ui -> Ui) (w : World) : World :=
  {| ui := f (ui w); refs := refs w; host := host w |}.
Definition with_refs (f : Refs -> Refs) (w : World) : World :=
  {| ui := ui w; refs := f (refs w); host := host w |}.
Definition with_host (f : Host -> Host) (w : World) : World :=
  {| ui := ui w; refs := refs w; host := f (host w) |}.

(** The component when it mounts. *)
Definition initial : World :=
  {| ui := {| isSessionActive := false; error := None; transcripts := [];
              currentInput := EmptyString; currentOutput := EmptyString |};
     refs := {| sessionPromiseRef := None; mediaStreamRef := None;
                inputAudioContextRef := None; outputAudioContextRef := None;
                scriptProcessorRef := None; mediaStreamSourceRef := None;
                nextStartTimeRef := 0; sourcesRef := [] |};
     host := {| sessions := []; processors := []; startCalls := [];
                nextId := O; calls := [] |} |}.

(** ** Handlers: state and exceptions *)

Inductive Completion (A : Type) : Type :=
| Normal (a : A)
| Throw (e : string).
Arguments Normal {A} a.
Arguments Throw {A} e.

Definition M (A : Type) : Type := World -> Completion A * World.

Definition ret {A : Type} (a : A) : M A := fun w => (Normal a, w).

Definition bind {A B : Type} (c : M A) (k : A -> M B) : M B :=
  fun w =>
    match c w with
    | (Normal a, w') => k a w'
    | (Throw e, w') => (Throw e, w')
    end.

Declare Scope handler_scope.
Delimit Scope handler_scope with handler.
Notation "x <- c ;; k" := (bind c (fun x => k))
  (at level 61, c at next level, right associativity) : handler_scope.
Notation "c ;; k" := (bind c (fun _ => k))
  (at level 61, right associativity) : handler_scope.
Local Open Scope handler_scope.

Definition throw {A : Type} (e : string) : M A := fun w => (Throw e, w).

(** [try { c } catch (e) { h }], [h] receiving [e.message]. *)
Definition tryCatch {A : Type} (c : M A) (h : string -> M A) : M A :=
  fun w =>
    match c w with
    | (Normal a, w') => (Normal a, w')
    | (Throw e, w') => h e w'
    end.

Definition gets {A : Type} (f : World -> A) : M A := fun w => (Normal (f w), w).
Definition modify (f : World -> World) : M unit := fun w => (Normal tt, f w).

(** [r.current] and [r.current = v]. *)
Definition current {A : Type} (r : Refs -> A) : M A :=
  gets (fun w => r (refs w)).
Definition assign {A : Type} (set : A -> Refs -> Refs) (v : A) : M unit :=
  modify (with_refs (set v)).

(** [o?.m()]: nothing happens on [null]. *)
Definition whenSome {A : Type} (o : option A) (f : A -> M unit) : M unit :=
  match o with
  | Some a => f a
  | None => ret tt
  end.

(** [o!.m()]: the assertion is erased, the access throws on [null]. *)
Definition nonNull {A : Type} (o : option A) : M A :=
  match o with
  | Some a => ret a
  | None => throw "TypeError: Cannot read properties of null"
  end.

(** A host function that returns or throws. *)
Definition orThrow {A : Type} (o : option A) (e : string) : M A :=
  match o with
  | Some a => ret a
  | None => throw e
  end.

Definition when (b : bool) (c : M unit) : M unit := if b then c else ret tt.

Fixpoint forEach {A : Type} (l : list A) (f : A -> M unit) : M unit :=
  match l with
  | [] => ret tt
  | a :: r => f a ;; forEach r f
  end.

(** The state setters of [useState]; the ones the component calls with an
    updater take the updater. *)
Definition setIsSessionActive (b : bool) : M unit :=
  modify (with_ui (set_isSessionActive b)).
Definition setError (e : option string) : M unit :=
  modify (with_ui (set_error e)).
Definition setTranscripts (f : list Turn -> list Turn) : M unit :=
  modify (with_ui (fun u => set_transcripts (f (transcripts u)) u)).
Definition setCurrentInput (f : string -> string) : M unit :=
  modify (with_ui (fun u => set_currentInput (f (currentInput u)) u)).
Definition setCurrentOutput (f : string -> string) : M unit :=
  modify (with_ui (fun u => set_currentOutput (f (currentOutput u)) u)).

(** A new host object. *)
Definition fresh : M nat :=
  fun w => (Normal (nextId (host w)),
            with_host (set_nextId (S (nextId (host w)))) w).

Definition call (c : Call) : M unit :=
  modify (with_host (fun h => set_calls (calls h ++ [c]) h)).

Fixpoint updateNth {A : Type} (n : nat) (f : A -> A) (l : list A) : list A :=
  match l, n with
  | [], _ => []
  | a :: r, O => f a :: r
  | a :: r, S n' => a :: updateNth n' f r
  end.

Definition updateSession (sid : nat) (f : Session -> Session) : M unit :=
  modify (with_host (fun h => set_sessions (updateNth sid f (sessions h)) h)).

Definition set_reactions (v : list Reaction) (s : Session) : Session :=
  {| promise := promise s; reactions := v; stream := stream s;
     capturedInput := capturedInput s; capturedOutput := capturedOutput s |}.
Definition set_promise (v : PromiseState) (s : Session) : Session :=
  {| promise := v; reactions := reactions s; stream := stream s;
     capturedInput := capturedInput s; capturedOutput := capturedOutput s |}.

(** [promise.then(reaction)]: the reaction waits in the promise's queue
    until a job of the host runs it, after the promise is fulfilled; on a
    rejected promise it never runs. *)
Definition enqueue (r : Reaction) (s : Session) : Session :=
  match promise s with
  | Rejected => s
  | _ => set_reactions (reactions s ++ [r]) s
  end.

Definition then_ (sid : nat) (r : Reaction) : M unit :=
  updateSession sid (enqueue r).

(** [Set.prototype.add] and [Set.prototype.delete]. *)
Definition setAdd (n : nat) (l : list nat) : list nat :=
  if existsb (Nat.eqb n) l then l else l ++ [n].
Definition setDelete (n : nat) (l : list nat) : list nat :=
  filter (fun m => negb (Nat.eqb n m)) l.

(** ** The handlers of [LiveChat] *)

Definition stopSession : M unit :=
  p <- current sessionPromiseRef ;;
  whenSome p (fun sid => then_ sid CloseSession) ;;
  assign set_sessionPromiseRef None ;;

  s <- current mediaStreamRef ;;
  whenSome s (fun stream => call (TrackStop stream)) ;;
  assign set_mediaStreamRef None ;;

  n <- current scriptProcessorRef ;;
  whenSome n (fun node => call (Disconnect node)) ;;
  assign set_scriptProcessorRef None ;;

  n <- current mediaStreamSourceRef ;;
  whenSome n (fun node => call (Disconnect node)) ;;
  assign set_mediaStreamSourceRef None ;;

  c <- current inputAudioContextRef ;;
  whenSome c (fun ctx => call (ContextClose ctx)) ;;
  assign set_inputAudioContextRef None ;;

  c <- current outputAudioContextRef ;;
  whenSome c (fun ctx => call (ContextClose ctx)) ;;
  assign set_outputAudioContextRef None ;;

  sources <- current sourcesRef ;;
  forEach sources (fun source => call (SourceStop source)) ;;
  assign set_sourcesRef [] ;;
  assign set_nextStartTimeRef 0%Q ;;

  setIsSessionActive false.

(** [startSession] up to [await navigator.mediaDevices.getUserMedia].
    The function was made by the render on display, so the [currentInput]
    and [currentOutput] it closes over are the values of that render. *)
Definition startSession : M unit :=
  renderInput <- gets (fun w => currentInput (ui w)) ;;
  renderOutput <- gets (fun w => currentOutput (ui w)) ;;
  setError None ;;
  setTranscripts (fun _ => []) ;;
  setCurrentInput (fun _ => EmptyString) ;;
  setCurrentOutput (fun _ => EmptyString) ;;
  setIsSessionActive true ;;
  modify (with_host (fun h =>
    set_startCalls
      (startCalls h ++ [{| renderInput := renderInput;
                           renderOutput := renderOutput;
                           awaiting := true |}]) h)).

(** How the environment answers a start: the microphone is refused, or it
    is granted and then either the construction of the client throws or
    [connect] returns its promise. *)
Inductive StartOutcome :=
| MediaDenied (message : string)
| ClientFails (message : string)
| Connecting.

Definition connect (s : Session) : M nat :=
  fun w => (Normal (length (sessions (host w))),
            with_host (fun h => set_sessions (sessions h ++ [s]) h) w).

(** [startSession] from the [await] on. *)
Definition startSessionResumed (c : StartCall) (o : StartOutcome) : M unit :=
  tryCatch
    (match o with
     | MediaDenied message => throw message
     | _ =>
         stream <- fresh ;;
         assign set_mediaStreamRef (Some stream) ;;
         inCtx <- fresh ;;
         assign set_inputAudioContextRef (Some inCtx) ;;
         outCtx <- fresh ;;
         assign set_outputAudioContextRef (Some outCtx) ;;
         match o with
         | ClientFails message => throw message
         | _ =>
             sid <- connect {| promise := Pending; reactions := [];
                               stream := stream;
                               capturedInput := renderInput c;
                               capturedOutput := renderOutput c |} ;;
             assign set_sessionPromiseRef (Some sid)
         end
     end)
    (fun message =>
       setError (Some ("Failed to start session: " ++ message)%string) ;;
       setIsSessionActive false).

(** [scriptProcessor.onaudioprocess]. *)
Definition onaudioprocess (inputData : Float32Array) : M unit :=
  pcmBlob <- orThrow (createBlob inputData) "InvalidCharacterError" ;;
  p <- current sessionPromiseRef ;;
  whenSome p (fun sid => then_ sid (SendRealtimeInput pcmBlob)).

(** [callbacks.onopen] of a session. *)
Definition onopen (s : Session) : M unit :=
  c <- current inputAudioContextRef ;;
  _ <- nonNull c ;;
  source <- fresh ;;              (* createMediaStreamSource(stream) *)
  assign set_mediaStreamSourceRef (Some source) ;;

  c <- current inputAudioContextRef ;;
  _ <- nonNull c ;;
  scriptProcessor <- fresh ;;     (* createScriptProcessor(4096, 1, 1) *)
  assign set_scriptProcessorRef (Some scriptProcessor) ;;

  modify (with_host (fun h =>
    set_processors (processors h ++ [scriptProcessor]) h)) ;;
  c <- current inputAudioContextRef ;;
  _ <- nonNull c ;;
  ret tt.

(** A string is truthy when it is not empty. *)
Definition truthy (o : option jsstring) : bool :=
  match o with
  | Some (_ :: _) => true
  | _ => false
  end.

(** [callbacks.onmessage] of a session; [now] is what
    [outCtx.currentTime] reads.  [decodeAudioData] awaits nothing, so the
    handler resumes from its [await] in a microtask, before any other
    event is handled: the handler is one step. *)
Definition onmessage (s : Session) (now : Q) (message : LiveServerMessage)
  : M unit :=
  audioData <- orThrow (readAudioData message)
                 "TypeError: Cannot read properties of undefined" ;;
  when (truthy audioData)
    (c <- current outputAudioContextRef ;;
     outCtx <- nonNull c ;;
     t <- current nextStartTimeRef ;;
     assign set_nextStartTimeRef (Qmax t now) ;;
     bytes <- orThrow (decode (match audioData with Some d => d | None => [] end))
                "InvalidCharacterError" ;;
     audioBuffer <- orThrow (decodeAudioData bytes 24000 1) "RangeError" ;;
     source <- fresh ;;
     t <- current nextStartTimeRef ;;
     call (SourceStart source t (duration audioBuffer)) ;;
     t <- current nextStartTimeRef ;;
     assign set_nextStartTimeRef (toDouble (t + duration audioBuffer)) ;;
     sources <- current sourcesRef ;;
     assign set_sourcesRef (setAdd source sources)) ;;
  when (interrupted message)
    (sources <- current sourcesRef ;;
     forEach sources (fun s => call (SourceStop s)) ;;
     assign set_sourcesRef [] ;;
     assign set_nextStartTimeRef 0%Q) ;;

  whenSome (inputTranscription message) (fun text =>
    setCurrentInput (fun prev => prev ++ text)%string) ;;
  whenSome (outputTranscription message) (fun text =>
    setCurrentOutput (fun prev => prev ++ text)%string) ;;
  when (turnComplete message)
    (setTranscripts (fun prev =>
       prev ++ [{| user := capturedInput s; model := capturedOutput s |}]) ;;
     setCurrentInput (fun _ => EmptyString) ;;
     setCurrentOutput (fun _ => EmptyString)).

Definition onerror (message : string) : M unit :=
  setError (Some ("Session error: " ++ message)%string) ;;
  stopSession.

Definition onclose : M unit := stopSession.

(** The listener of ['ended'] on a buffer source. *)
Definition onended (source : nat) : M unit :=
  sources <- current sourcesRef ;;
  assign set_sourcesRef (setDelete source sources).

(** [onClick={isSessionActive ? stopSession : startSession}]. *)
Definition onClick : M unit :=
  active <- gets (fun w => isSessionActive (ui w)) ;;
  if active then stopSession else startSession.

(** The cleanup of the effect, on unmount. *)
Definition cleanup : M unit := stopSession.

(** ** The event loop *)

(** The connect promise of a session settles. *)
Definition settle (sid : nat) (ok : bool) : M unit :=
  updateSession sid
    (fun s =>
       match promise s with
       | Pending =>
           if ok then set_promise Fulfilled s
           else set_reactions [] (set_promise Rejected s)
       | _ => s
       end).

(** A job of the host runs the oldest reaction of a fulfilled promise.
    When the call in the reaction throws, the exception rejects the promise
    that [then] returned and reaches nobody else. *)
Definition job (sid : nat) (throws : bool) : M unit :=
  ss <- gets (fun w => sessions (host w)) ;;
  match nth_error ss sid with
  | Some s =>
      match promise s, reactions s with
      | Fulfilled, r :: rest =>
          updateSession sid (set_reactions rest) ;;
          if throws then ret tt
          else match r with
               | CloseSession => call (SessionClose sid)
               | SendRealtimeInput media => call (SessionSend sid media)
               end
      | _, _ => ret tt
      end
  | None => ret tt
  end.

Definition markResumed (k : nat) : M unit :=
  modify (with_host (fun h =>
    set_startCalls
      (updateNth k (fun c => {| renderInput := renderInput c;
                                renderOutput := renderOutput c;
                                awaiting := false |}) (startCalls h)) h)).

(** What can happen to the mounted component: a click on the button, the
    unmount, the answer to a pending [getUserMedia], the callbacks of a
    session, the settling of a connect promise, a job for a reaction, an
    audio frame from a script processor, the end of a buffer source. *)
Inductive Event :=
| Click
| Unmount
| MediaSettled (k : nat) (o : StartOutcome)
| SessionOpen (sid : nat)
| SessionMessage (sid : nat) (now : Q) (message : LiveServerMessage)
| SessionError (sid : nat) (message : string)
| SessionClosed (sid : nat)
| Settled (sid : nat) (ok : bool)
| Job (sid : nat) (throws : bool)
| AudioProcess (processor : nat) (inputData : Float32Array)
| Ended (source : nat).

(** A handler runs to completion; what it throws goes to the host, and
    what it did before stays done. *)
Definition exec (c : M unit) (w : World) : World := snd (c w).

Definition withSession (w : World) (sid : nat) (f : Session -> M unit) : World :=
  match nth_error (sessions (host w)) sid with
  | Some s => exec (f s) w
  | None => w
  end.

Definition step (w : World) (e : Event) : World :=
  match e with
  | Click => exec onClick w
  | Unmount => exec cleanup w
  | MediaSettled k o =>
      match nth_error (startCalls (host w)) k with
      | Some c =>
          if awaiting c
          then exec (markResumed k ;; startSessionResumed c o) w
          else w
      | None => w
      end
  | SessionOpen sid => withSession w sid onopen
  | SessionMessage sid now message =>
      withSession w sid (fun s => onmessage s now message)
  | SessionError sid message => withSession w sid (fun _ => onerror message)
  | SessionClosed sid => withSession w sid (fun _ => onclose)
  | Settled sid ok => exec (settle sid ok) w
  | Job sid throws => exec (job sid throws) w
  | AudioProcess p inputData =>
      if existsb (Nat.eqb p) (processors (host w))
      then exec (onaudioprocess inputData) w
      else w
  | Ended source => exec (onended source) w
  end.

Definition run (evs : list Event) (w : World) : World := fold_left step evs w.

Definition reachable (w : World) : Prop := exists evs, w = run evs initial.

(** ** What the handlers amount to *)

Definition optCall {A : Type} (f : A -> Call) (o : option A) : list Call :=
  match o with
  | Some a => [f a]
  | None => []
  end.

Definition log (cs : list Call) (w : World) : World :=
  with_host (fun h => set_calls (calls h ++ cs) h) w.

Definition queue (p : option nat) (r : Reaction) (w : World) : World :=
  match p with
  | Some sid =>
      with_host (fun h =>
        set_sessions (updateNth sid (enqueue r) (sessions h)) h) w
  | None => w
  end.

Definition queueOn (p : option nat) (r : Reaction) (ss : list Session)
  : list Session :=
  match p with
  | Some sid => updateNth sid (enqueue r) ss
  | None => ss
  end.

(** The calls of a teardown, in order. *)
Definition teardownCalls (r : Refs) : list Call :=
  optCall TrackStop (mediaStreamRef r)
  ++ optCall Disconnect (scriptProcessorRef r)
  ++ optCall Disconnect (mediaStreamSourceRef r)
  ++ optCall ContextClose (inputAudioContextRef r)
  ++ optCall ContextClose (outputAudioContextRef r)
  ++ map SourceStop (sourcesRef r).

Definition releasedRefs : Refs :=
  {| sessionPromiseRef := None; mediaStreamRef := None;
     inputAudioContextRef := None; outputAudioContextRef := None;
     scriptProcessorRef := None; mediaStreamSourceRef := None;
     nextStartTimeRef := 0; sourcesRef := [] |}.

(** The world after [stopSession]. *)
Definition stopped (w : World) : World :=
  with_ui (set_isSessionActive false)
    (with_refs (fun _ => releasedRefs)
       (log (teardownCalls (refs w))
          (queue (sessionPromiseRef (refs w)) CloseSession w))).

(** The world after the interrupt branch of [onmessage]. *)
Definition flushed (w : World) : World :=
  with_refs (fun r => set_nextStartTimeRef 0%Q (set_sourcesRef [] r))
    (log (map SourceStop (sourcesRef (refs w))) w).

(** The world after the playback branch of [onmessage] for a buffer of
    the given duration. *)
Definition scheduledAt (now length : Q) (w : World) : World :=
  let start := Qmax (nextStartTimeRef (refs w)) now in
  let source := nextId (host w) in
  with_refs (fun r =>
      set_sourcesRef (setAdd source (sourcesRef r))
        (set_nextStartTimeRef (toDouble (start + length)) r))
    (log [SourceStart source start length]
       (with_host (set_nextId (S source)) w)).

(** The world after the transcription branches of [onmessage]. *)
Definition transcribed (s : Session) (m : LiveServerMessage) (w : World) : World :=
  let add (o : option string) (prev : string) : string :=
    match o with
    | Some text => (prev ++ text)%string
    | None => prev
    end in
  let u := ui w in
  let u1 := set_currentInput (add (inputTranscription m) (currentInput u)) u in
  let u2 := set_currentOutput (add (outputTranscription m) (currentOutput u1)) u1 in
  let u3 :=
    if turnComplete m
    then set_currentOutput EmptyString
           (set_currentInput EmptyString
              (set_transcripts
                 (transcripts u2
                    ++ [{| user := capturedInput s;
                           model := capturedOutput s |}]) u2))
    else u2 in
  with_ui (fun _ => u3) w.

(** The duration of the buffer a message's audio decodes to, when the
    message has audio that decodes. *)
Definition audioLength (m : LiveServerMessage) : option Q :=
  match audioChunk m with
  | Some (c :: d) =>
      match decode (c :: d) with
      | Some bytes =>
          match decodeAudioData bytes 24000 1 with
          | Some buffer => Some (duration buffer)
          | None => None
          end
      | None => None
      end
  | _ => None
  end.

(** The start time and the duration of every buffer source started. *)
Fixpoint scheduled (cs : list Call) : list (Q * Q) :=
  match cs with
  | [] => []
  | SourceStart _ t d :: r => (t, d) :: scheduled r
  | _ :: r => scheduled r
  end.

(** The chunks passed to [sendRealtimeInput], with their session. *)
Fixpoint sent (cs : list Call) : list (nat * GenAIBlob) :=
  match cs with
  | [] => []
  | SessionSend sid media :: r => (sid, media) :: sent r
  | _ :: r => sent r
  end.

(** The schedule of the specification: [start = max(nextStartTime,
    currentClockTime)], then [nextStartTime = start + buffer.duration], the
    sum being the binary64 one, for buffers given by their arrival time and
    their duration. *)
Fixpoint schedule (nextStartTime : Q) (arrivals : list (Q * Q)) : list (Q * Q) :=
  match arrivals with
  | [] => []
  | (currentClockTime, length) :: r =>
      let start := Qmax nextStartTime currentClockTime in
      (start, length) :: schedule (toDouble (start + length)) r
  end.

Definition flushedIf (b : bool) (w : World) : World :=
  if b then flushed w else w.

(** [nextStartTime] after the schedule of the specification. *)
Fixpoint nextAfter (nextStartTime : Q) (arrivals : list (Q * Q)) : Q :=
  match arrivals with
  | [] => nextStartTime
  | (currentClockTime, length) :: r =>
      nextAfter (toDouble (Qmax nextStartTime currentClockTime + length)) r
  end.

(** Messages handled one after the other, each by the [onmessage] of its
    session at its clock time. *)
Definition handleMessages (l : list (Session * Q * LiveServerMessage))
    (w : World) : World :=
  fold_left (fun w '(s, now, m) => exec (onmessage s now m) w) l w.

(** The arrival time and the duration of the buffers they carry. *)
Definition arrivals (l : list (Session * Q * LiveServerMessage)) : list (Q * Q) :=
  flat_map (fun '(_, now, m) =>
              match audioLength m with
              | Some d => [(now, d)]
              | None => []
              end) l.

(** A message that does not interrupt, whose audio can be read and, if
    there is any, decodes. *)
Definition playable (x : Session * Q * LiveServerMessage) : Prop :=
  let '(_, _, m) := x in
  interrupted m = false /\
  malformed m = false /\
  (truthy (audioChunk m) = true -> audioLength m <> None).

(** The world after [startSession] has reached its [await]. *)
Definition started (w : World) : World :=
  with_host (fun h =>
      set_startCalls
        (startCalls h ++ [{| renderInput := currentInput (ui w);
                             renderOutput := currentOutput (ui w);
                             awaiting := true |}]) h)
    (with_ui (fun _ => {| isSessionActive := true; error := None;
                          transcripts := []; currentInput := EmptyString;
                          currentOutput := EmptyString |}) w).

(** The world after the [catch] of [startSession]. *)
Definition failed (message : string) (w : World) : World :=
  with_ui (fun u =>
      set_isSessionActive false
        (set_error (Some ("Failed to start session: " ++ message)%string) u))
    w.

(** The world once the stream and the two audio contexts are there. *)
Definition acquired (w : World) : World :=
  let id := nextId (host w) in
  with_refs (fun r =>
      set_outputAudioContextRef (Some (S (S id)))
        (set_inputAudioContextRef (Some (S id))
           (set_mediaStreamRef (Some id) r)))
    (with_host (set_nextId (S (S (S id)))) w).

(** The world once [connect] has returned its promise. *)
Definition connected (c : StartCall) (w : World) : World :=
  with_refs (set_sessionPromiseRef (Some (length (sessions (host w)))))
    (with_host (fun h =>
         set_sessions
           (sessions h ++ [{| promise := Pending; reactions := [];
                              stream := nextId (host w);
                              capturedInput := renderInput c;
                              capturedOutput := renderOutput c |}]) h)
       (acquired w)).

Definition resumed (c : StartCall) (o : StartOutcome) (w : World) : World :=
  match o with
  | MediaDenied message => failed message w
  | ClientFails message => failed message (acquired w)
  | Connecting => connected c w
  end.

(** The world after [onopen] has wired the capture pipeline. *)
Definition wired (w : World) : World :=
  let id := nextId (host w) in
  with_host (fun h =>
      set_processors (processors h ++ [S id]) (set_nextId (S (S id)) h))
    (with_refs (fun r =>
         set_scriptProcessorRef (Some (S id))
           (set_mediaStreamSourceRef (Some id) r)) w).

(** ** Sample values *)

Definition audioMessage (d : jsstring) : LiveServerMessage :=
  {| modelTurn := Some (Some [{| inlineData := Some (Some d) |}]);
     interrupted := false; inputTranscription := None;
     outputTranscription := None; turnComplete := false |}.

(** An interruption that comes with audio. *)
Definition interruptingAudio (d : jsstring) : LiveServerMessage :=
  {| modelTurn := Some (Some [{| inlineData := Some (Some d) |}]);
     interrupted := true; inputTranscription := None;
     outputTranscription := None; turnComplete := false |}.

(** A message whose model turn begins with a part of text. *)
Definition textPartMessage (interrupts : bool) (text : option string)
    (complete : bool) : LiveServerMessage :=
  {| modelTurn := Some (Some [{| inlineData := None |}]);
     interrupted := interrupts; inputTranscription := text;
     outputTranscription := None; turnComplete := complete |}.

Definition interruptMessage : LiveServerMessage :=
  {| modelTurn := None; interrupted := true; inputTranscription := None;
     outputTranscription := None; turnComplete := false |}.

Definition inputMessage (text : string) : LiveServerMessage :=
  {| modelTurn := None; interrupted := false;
     inputTranscription := Some text;
     outputTranscription := None; turnComplete := false |}.

Definition outputMessage (text : string) : LiveServerMessage :=
  {| modelTurn := None; interrupted := false; inputTranscription := None;
     outputTranscription := Some text; turnComplete := false |}.

Definition turnCompleteMessage : LiveServerMessage :=
  {| modelTurn := None; interrupted := false; inputTranscription := None;
     outputTranscription := None; turnComplete := true |}.

(** The first session of a fresh component, open. *)
Definition openWorld : World :=
  run [Click; MediaSettled 0 Connecting; SessionOpen 0; Settled 0 true] initial.

Definition firstSession : Session :=
  {| promise := Fulfilled; reactions := []; stream := 0;
     capturedInput := EmptyString; capturedOutput := EmptyString |}.

(** The refs of the capture side. *)
Definition captureRefs (r : Refs) : list (option nat) :=
  [sessionPromiseRef r; mediaStreamRef r; inputAudioContextRef r;
   mediaStreamSourceRef r; scriptProcessorRef r].

(** The calls that act on playback. *)
Definition isPlaybackCall (c : Call) : Prop :=
  match c with
  | SourceStart _ _ _ | SourceStop _ => True
  | _ => False
  end.

(** Once the output context is gone, nothing is tracked nor scheduled. *)
Definition playbackCleared (w : World) : Prop :=
  outputAudioContextRef (refs w) = None ->
  sourcesRef (refs w) = [] /\ nextStartTimeRef (refs w) = 0%Q.

(** The call a reaction makes on its session. *)
Definition reactionCall (sid : nat) (r : Reaction) : Call :=
  match r with
  | CloseSession => SessionClose sid
  | SendRealtimeInput media => SessionSend sid media
  end.

(** The world after a job for a session. *)
Definition jobDone (sid : nat) (throws : bool) (w : World) : World :=
  match nth_error (sessions (host w)) sid with
  | Some s =>
      match promise s, reactions s with
      | Fulfilled, r :: rest =>
          log (if throws then [] else [reactionCall sid r])
            (with_host (fun h =>
               set_sessions (updateNth sid (set_reactions rest) (sessions h)) h)
               w)
      | _, _ => w
      end
  | None => w
  end.

(** The world after the continuation of a start call has been taken. *)
Definition marked (k : nat) (w : World) : World :=
  with_host (fun h =>
    set_startCalls
      (updateNth k (fun c => {| renderInput := renderInput c;
                                renderOutput := renderOutput c;
                                awaiting := false |}) (startCalls h)) h) w.

(** A world in which a buffer is playing. *)
Definition playingWorld : World :=
  run [Click; MediaSettled 0 Connecting; SessionOpen 0; Settled 0 true;
       SessionMessage 0 1 (audioMessage (js "AAAAAA=="))] initial.

(** How an event may change the sessions: a promise is fulfilled only by
    the settling of that promise, and a chunk is queued only by an audio
    frame of an existing script processor. *)
Definition sessionsStep (e : Event) (procs : list nat)
    (ss ss' : list Session) : Prop :=
  forall sid s',
    nth_error ss' sid = Some s' ->
    (promise s' = Fulfilled ->
     (exists s, nth_error ss sid = Some s /\ promise s = Fulfilled)
     \/ e = Settled sid true) /\
    (forall media,
        In (SendRealtimeInput media) (reactions s') ->
        (exists s, nth_error ss sid = Some s
                   /\ In (SendRealtimeInput media) (reactions s))
        \/ (procs <> [] /\ exists p d, e = AudioProcess p d)).

(** How an event may add to the chunks sent: only a job that does not
    throw, from the queue of a fulfilled promise. *)
Definition sentStep (e : Event) (ss : list Session)
    (old new : list (nat * GenAIBlob)) : Prop :=
  forall sid media,
    In (sid, media) new ->
    In (sid, media) old
    \/ (e = Job sid false
        /\ exists s, nth_error ss sid = Some s /\ promise s = Fulfilled
                     /\ In (SendRealtimeInput media) (reactions s)).

(** What holds of a world reached by a trace, about sending. *)
Definition sendInvariant (evs : list Event) (w : World) : Prop :=
  (forall sid s,
      nth_error (sessions (host w)) sid = Some s ->
      promise s = Fulfilled -> In (Settled sid true) evs) /\
  (processors (host w) <> [] -> exists sid, In (SessionOpen sid) evs) /\
  (forall sid s media,
      nth_error (sessions (host w)) sid = Some s ->
      In (SendRealtimeInput media) (reactions s) ->
      exists sid', In (SessionOpen sid') evs) /\
  (forall sid media,
      In (sid, media) (sent (calls (host w))) ->
      exists pre post,
        evs = pre ++ Job sid false :: post /\
        In (Settled sid true) pre /\
        exists sid', In (SessionOpen sid') pre).

(** The chunk of the one-sample frame [0.5]. *)
Definition sampleBlob : GenAIBlob :=
  {| data := js "AEA="; mimeType := "audio/pcm;rate=16000" |}.

(** A start, a stop while connecting, a second start, and then the
    [onopen] of the first session, which arrives late. *)
Definition lateOpenWorld : World :=
  run [Click; MediaSettled 0 Connecting; Click; Click;
       MediaSettled 1 Connecting; SessionOpen 0] initial.

(** ** Starts and the answers of [getUserMedia] *)

(** Whether a call of [startSession] waits for [getUserMedia]. *)
Definition pending (w : World) (k : nat) : bool :=
  match nth_error (startCalls (host w)) k with
  | Some c => awaiting c
  | None => false
  end.

(** Whether an event is the answer a call of [startSession] waits for. *)
Definition answers (e : Event) (k : nat) : bool :=
  match e with
  | MediaSettled k' _ => Nat.eqb k' k
  | _ => false
  end.

(** An event that comes in turn: while a start waits for [getUserMedia],
    nothing happens but the answer. *)
Definition inTurn (w : World) (e : Event) : bool :=
  forallb (fun k => negb (pending w k) || answers e k)
    (seq 0 (length (startCalls (host w)))).

(** A trace in which every answer of [getUserMedia] comes before anything
    else happens. *)
Fixpoint promptly (w : World) (evs : list Event) : bool :=
  match evs with
  | [] => true
  | e :: r => inTurn w e && promptly (step w e) r
  end.

(** What holds while the answers of [getUserMedia] come in turn: an
    inactive component holds no session promise, and a start that waits
    has found none. *)
Definition gated (w : World) : Prop :=
  (isSessionActive (ui w) = false -> sessionPromiseRef (refs w) = None) /\
  (forall k, pending w k = true ->
             isSessionActive (ui w) = true /\ sessionPromiseRef (refs w) = None).

(** Two starts, the first stopped while it waited; the second connects and
    its session opens; then the first is refused the microphone. *)
Definition staleRefusal : list Event :=
  [Click; Click; Click; MediaSettled 1 Connecting; SessionOpen 0;
   Settled 0 true; MediaSettled 0 (MediaDenied "Permission denied")].

(** * Further definitions *)

(** ** The wire text and PCM, once more *)

(** The characters of base64 text: the alphabet and the padding. *)
Definition isBase64Char (c : Z) : Prop :=
  Base64.sextetOfChar c <> None \/ c = Base64.pad.

(** A sample that [storeInt16] keeps without overflow. *)
Definition inRange (x : Q) : Prop := (-1 - (1 # 32768) < x < 1)%Q.

(** ** Messages and events, once more *)

Definition present {A : Type} (o : option A) : bool :=
  match o with
  | Some _ => true
  | None => false
  end.

(** Whether the output context is there. *)
Definition hasOutput (w : World) : bool :=
  present (outputAudioContextRef (refs w)).

(** Whether the handler gets past the audio of a message, to its
    transcript: the audio can be read, and either there is none or the
    output context is there and the audio decodes. *)
Definition transcribes (context : bool)
    (x : Session * Q * LiveServerMessage) : bool :=
  let '(_, _, m) := x in
  negb (malformed m)
  && (negb (truthy (audioChunk m)) || (context && present (audioLength m))).

(** The fragments of one side, in their order, put together. *)
Fixpoint fragments (side : LiveServerMessage -> option string)
    (l : list (Session * Q * LiveServerMessage)) : string :=
  match l with
  | [] => EmptyString
  | (_, _, m) :: r =>
      match side m with
      | Some text => (text ++ fragments side r)%string
      | None => fragments side r
      end
  end.

Definition completesTurn (x : Session * Q * LiveServerMessage) : bool :=
  let '(_, _, m) := x in turnComplete m.

(** The turn the handler of a session appends. *)
Definition turnOf (x : Session * Q * LiveServerMessage) : Turn :=
  let '(s, _, _) := x in
  {| user := capturedInput s; model := capturedOutput s |}.

(** The world after [onmessage] for a message whose audio can be read. *)
Definition messaged (s : Session) (now : Q) (m : LiveServerMessage)
    (w : World) : World :=
  if truthy (audioChunk m) then
    match outputAudioContextRef (refs w) with
    | None => w
    | Some _ =>
        match audioLength m with
        | None =>
            with_refs
              (set_nextStartTimeRef (Qmax (nextStartTimeRef (refs w)) now)) w
        | Some d =>
            transcribed s m (flushedIf (interrupted m) (scheduledAt now d w))
        end
    end
  else transcribed s m (flushedIf (interrupted m) w).

(** The chunk [createBlob] makes of a frame. *)
Definition chunkOf (inputData : Float32Array) : GenAIBlob :=
  let bytes :=
    bufferOfInt16 (map (fun x => storeInt16 (x * 32768)%Q) inputData) in
  {| data := map Base64.charOfSextet (Base64.sextets bytes)
             ++ Base64.padding bytes;
     mimeType := "audio/pcm;rate=16000" |}.

Definition settled (ok : bool) (s : Session) : Session :=
  match promise s with
  | Pending =>
      if ok then set_promise Fulfilled s
      else set_reactions [] (set_promise Rejected s)
  | _ => s
  end.

(** The world after an event. *)
Definition afterEvent (w : World) (e : Event) : World :=
  match e with
  | Click => if isSessionActive (ui w) then stopped w else started w
  | Unmount => stopped w
  | MediaSettled k o =>
      match nth_error (startCalls (host w)) k with
      | Some c => if awaiting c then resumed c o (marked k w) else w
      | None => w
      end
  | SessionOpen sid =>
      match nth_error (sessions (host w)) sid, inputAudioContextRef (refs w) with
      | Some _, Some _ => wired w
      | _, _ => w
      end
  | SessionMessage sid now m =>
      match nth_error (sessions (host w)) sid with
      | Some s => if malformed m then w else messaged s now m w
      | None => w
      end
  | SessionError sid message =>
      match nth_error (sessions (host w)) sid with
      | Some _ =>
          stopped (with_ui
                     (set_error (Some ("Session error: " ++ message)%string)) w)
      | None => w
      end
  | SessionClosed sid =>
      match nth_error (sessions (host w)) sid with
      | Some _ => stopped w
      | None => w
      end
  | Settled sid ok =>
      with_host (fun h =>
        set_sessions (updateNth sid (settled ok) (sessions h)) h) w
  | Job sid throws => jobDone sid throws w
  | AudioProcess p inputData =>
      if existsb (Nat.eqb p) (processors (host w))
      then queue (sessionPromiseRef (refs w))
             (SendRealtimeInput (chunkOf inputData)) w
      else w
  | Ended source =>
      with_refs (fun r => set_sourcesRef (setDelete source (sourcesRef r)) r) w
  end.

(** The host calls [onmessage] makes for a message whose audio can be
    read. *)
Definition messageCalls (now : Q) (m : LiveServerMessage) (w : World) : list Call :=
  let stops (sources : list nat) :=
    if interrupted m then map SourceStop sources else [] in
  if truthy (audioChunk m) then
    match outputAudioContextRef (refs w), audioLength m with
    | Some _, Some d =>
        SourceStart (nextId (host w))
          (Qmax (nextStartTimeRef (refs w)) now) d
        :: stops (setAdd (nextId (host w)) (sourcesRef (refs w)))
    | _, _ => []
    end
  else stops (sourcesRef (refs w)).

(** The host calls an event makes. *)
Definition emitted (w : World) (e : Event) : list Call :=
  let ifSession (sid : nat) (cs : list Call) :=
    match nth_error (sessions (host w)) sid with
    | Some _ => cs
    | None => []
    end in
  match e with
  | Click =>
      if isSessionActive (ui w) then teardownCalls (refs w) else []
  | Unmount => teardownCalls (refs w)
  | SessionMessage sid now m =>
      ifSession sid (if malformed m then [] else messageCalls now m w)
  | SessionError sid _ => ifSession sid (teardownCalls (refs w))
  | SessionClosed sid => ifSession sid (teardownCalls (refs w))
  | Job sid throws =>
      match nth_error (sessions (host w)) sid with
      | Some s =>
          match promise s, reactions s with
          | Fulfilled, r :: _ => if throws then [] else [reactionCall sid r]
          | _, _ => []
          end
      | None => []
      end
  | _ => []
  end.

(** A call that starts a buffer source. *)
Definition isStart (c : Call) : bool :=
  match c with
  | SourceStart _ _ _ => true
  | _ => false
  end.

(** Any event but the answer to a pending [getUserMedia]. *)
Definition notMediaSettled (e : Event) : Prop :=
  match e with
  | MediaSettled _ _ => False
  | _ => True
  end.

(** A start at a time that is not negative of a buffer that lasts. *)
Definition validStart (x : Q * Q) : Prop :=
  let '(t, d) := x in (0 <= t)%Q /\ (0 < d)%Q.

(** The buffer source a call acts on. *)
Definition sourceOf (c : Call) : option nat :=
  match c with
  | SourceStart n _ _ => Some n
  | SourceStop n => Some n
  | _ => None
  end.

(** What holds of the sources: the ones the calls name are older than
    the next host object, and the tracked ones are among them. *)
Definition sourcesKnown (w : World) : Prop :=
  (forall c n, In c (calls (host w)) -> sourceOf c = Some n ->
               (n < nextId (host w))%nat) /\
  (forall n, In n (sourcesRef (refs w)) -> (n < nextId (host w))%nat).

(** ** Sessions, event by event *)

(** Whether an event runs [stopSession]. *)
Definition stops (w : World) (e : Event) : bool :=
  match e with
  | Click => isSessionActive (ui w)
  | Unmount => true
  | SessionError sid _ | SessionClosed sid =>
      match nth_error (sessions (host w)) sid with
      | Some _ => true
      | None => false
      end
  | _ => false
  end.

(** The start call whose [connect] an event runs, if it runs one. *)
Definition connects (w : World) (e : Event) : option StartCall :=
  match e with
  | MediaSettled k Connecting =>
      match nth_error (startCalls (host w)) k with
      | Some c => if awaiting c then Some c else None
      | None => None
      end
  | _ => None
  end.

(** The sessions after an event. *)
Definition sessionsAfter (w : World) (e : Event) : list Session :=
  let ss := sessions (host w) in
  if stops w e then queueOn (sessionPromiseRef (refs w)) CloseSession ss
  else
    match e with
    | MediaSettled _ _ =>
        match connects w e with
        | Some c =>
            ss ++ [{| promise := Pending; reactions := [];
                      stream := nextId (host w);
                      capturedInput := renderInput c;
                      capturedOutput := renderOutput c |}]
        | None => ss
        end
    | Settled sid ok => updateNth sid (settled ok) ss
    | Job sid _ =>
        match nth_error ss sid with
        | Some s =>
            match promise s, reactions s with
            | Fulfilled, _ :: rest => updateNth sid (set_reactions rest) ss
            | _, _ => ss
            end
        | None => ss
        end
    | AudioProcess p inputData =>
        if existsb (Nat.eqb p) (processors (host w))
        then queueOn (sessionPromiseRef (refs w))
               (SendRealtimeInput (chunkOf inputData)) ss
        else ss
    | _ => ss
    end.

(** The session promise in the ref after an event. *)
Definition sessionRefAfter (w : World) (e : Event) : option nat :=
  if stops w e then None
  else
    match connects w e with
    | Some _ => Some (length (sessions (host w)))
    | None => sessionPromiseRef (refs w)
    end.

(** ** The order of the chunks *)

(** [l1] is [l2] with some elements left out, the order kept. *)
Inductive Subseq {A : Type} : list A -> list A -> Prop :=
| Subseq_nil : Subseq [] []
| Subseq_cons (x : A) (l1 l2 : list A) :
    Subseq l1 l2 -> Subseq (x :: l1) (x :: l2)
| Subseq_skip (x : A) (l1 l2 : list A) :
    Subseq l1 l2 -> Subseq l1 (x :: l2).

(** The chunks sent on a session, in the order of the calls. *)
Definition sentOn (sid : nat) (cs : list Call) : list GenAIBlob :=
  flat_map (fun c =>
              match c with
              | SessionSend sid' media =>
                  if Nat.eqb sid' sid then [media] else []
              | _ => []
              end) cs.

(** The chunks that wait in a queue of reactions, in their order. *)
Definition queuedSends (rs : list Reaction) : list GenAIBlob :=
  flat_map (fun r =>
              match r with
              | SendRealtimeInput media => [media]
              | CloseSession => []
              end) rs.

Definition queuedOn (sid : nat) (ss : list Session) : list GenAIBlob :=
  match nth_error ss sid with
  | Some s => queuedSends (reactions s)
  | None => []
  end.

(** The chunk of the frame of an event, if it is an audio frame. *)
Definition capturedBy (e : Event) : list GenAIBlob :=
  match e with
  | AudioProcess _ inputData => [chunkOf inputData]
  | _ => []
  end.

(** The chunks of the frames captured along a trace, in their order. *)
Definition captured (evs : list Event) : list GenAIBlob :=
  flat_map capturedBy evs.

(** The [close] calls made on a session, and the ones that wait. *)
Definition closeCalls (sid : nat) (cs : list Call) : nat :=
  length (filter (fun c =>
                    match c with
                    | SessionClose sid' => Nat.eqb sid' sid
                    | _ => false
                    end) cs).

Definition isClose (r : Reaction) : bool :=
  match r with
  | CloseSession => true
  | SendRealtimeInput _ => false
  end.

Definition pendingCloses (sid : nat) (ss : list Session) : nat :=
  match nth_error ss sid with
  | Some s => length (filter isClose (reactions s))
  | None => O
  end.

(** The outcomes of a start in which [getUserMedia] gave a stream. *)
Definition acquires (o : StartOutcome) : bool :=
  match o with
  | MediaDenied _ => false
  | ClientFails _ | Connecting => true
  end.

(** * Character Studio

    The [CharacterStudio] component: the helper [fileToBase64], the
    rotation of the loading messages, [pollOperation], [handleGenerate]
    and [handleImageUpload].  What the browser and the service answer is a
    parameter: a file carries what [FileReader] reads of it, and an
    environment holds the answers of the video service and of [fetch]. *)

From Stdlib Require DecimalString.

Module CharacterStudio.

Definition LOADING_MESSAGES : list string :=
  ["Analyzing reference images...";
   "Building the character profile...";
   "Rendering the initial scenes...";
   "This can take a few minutes...";
   "Animating your character...";
   "Finalizing your masterpiece..."]%string.

(** [Array.prototype.indexOf]: the first index of an element, or -1. *)
Fixpoint indexOfFrom (i : Z) (l : list string) (x : string) : Z :=
  match l with
  | [] => -1
  | y :: r => if String.eqb y x then i else indexOfFrom (i + 1) r x
  end.

Definition indexOf (l : list string) (x : string) : Z := indexOfFrom 0 l x.

(** [a[i]] for an integer [i]: [undefined] ([None]) outside the array. *)
Definition item {A : Type} (l : list A) (i : Z) : option A :=
  if i <? 0 then None else nth_error l (Z.to_nat i).

(** The updater the interval passes to [setLoadingMessage]; [%] is the
    remainder of the truncated division. *)
Definition nextLoadingMessage (prev : option string) : option string :=
  let currentIndex :=
    match prev with
    | Some message => indexOf LOADING_MESSAGES message
    | None => -1
    end in
  let nextIndex :=
    Z.rem (currentIndex + 1) (Z.of_nat (length LOADING_MESSAGES)) in
  item LOADING_MESSAGES nextIndex.

(** The message shown after a number of ticks of the interval: loading
    starts on [LOADING_MESSAGES[0]], the initial state and the value the
    effect puts back whenever [isLoading] is false. *)
Definition loadingMessageAfter (ticks : nat) : option string :=
  Nat.iter ticks nextLoadingMessage (item LOADING_MESSAGES 0).

(** ** Files *)

(** What is thrown or rejected with, as far as the handlers look at it:
    its [message], if it has one. *)
Record Thrown := { message : option string }.

Definition Error (m : string) : Thrown := {| message := Some m |}.

(** A file: its [type] and what [FileReader.readAsDataURL] reads of it,
    [None] when the read fails. *)
Record File := {
  type : jsstring;
  dataURL : option jsstring
}.

Definition comma : Z := 44.

(** [String.prototype.split] with a separator of one code unit. *)
Fixpoint split (separator : Z) (s : jsstring) : list jsstring :=
  match s with
  | [] => [[]]
  | c :: r =>
      if c =? separator then [] :: split separator r
      else
        match split separator r with
        | piece :: pieces => (c :: piece) :: pieces
        | [] => [[c]]
        end
  end.

(** [fileToBase64]: the promise resolves with [result.split(',')[1]],
    which is [undefined] ([None]) when the result has no comma, and is
    rejected with the event of the failed read, which has no message. *)
Definition fileToBase64 (file : File) : Thrown + option jsstring :=
  match dataURL file with
  | Some result => inr (nth_error (split comma result) 1)
  | None => inl {| message := None |}
  end.

(** ** The video operation *)

(** An operation of the video service: whether it is done and
    [response?.generatedVideos?.[0]?.video?.uri]. *)
Record Operation := {
  done : bool;
  uri : option jsstring
}.

(** How a promise stands. *)
Inductive Settlement (A : Type) : Type :=
| Resolved (a : A)
| RejectedWith (e : Thrown)
| Waiting.
Arguments Resolved {A} a.
Arguments RejectedWith {A} e.
Arguments Waiting {A}.

(** [pollOperation], against the successive answers of
    [ai.operations.getVideosOperation] ([None]: the call throws).  The
    result has the number of ten-second waits. *)
Fixpoint pollOperation (operation : Operation)
    (answers : list (Operation -> option Operation))
  : nat * Settlement Operation :=
  let currentOperation := operation in
  if done currentOperation then (O, Resolved currentOperation)
  else
    match answers with
    | [] => (O, Waiting)
    | getVideosOperation :: rest =>
        match getVideosOperation currentOperation with
        | Some next =>
            let (waits, r) := pollOperation next rest in (S waits, r)
        | None =>
            (1%nat,
             RejectedWith (Error "Failed while polling for video status."%string))
        end
    end.

(** ** The component *)

Record State := {
  prompt : jsstring;
  refImages : list (option File);
  refImagePreviews : list (option jsstring);
  videoUrl : option string;
  isLoading : bool;
  error : option string;
  apiKeySelected : bool
}.

Definition set_refImages v (s : State) : State :=
  {| prompt := prompt s; refImages := v;
     refImagePreviews := refImagePreviews s; videoUrl := videoUrl s;
     isLoading := isLoading s; error := error s;
     apiKeySelected := apiKeySelected s |}.
Definition set_refImagePreviews v (s : State) : State :=
  {| prompt := prompt s; refImages := refImages s;
     refImagePreviews := v; videoUrl := videoUrl s;
     isLoading := isLoading s; error := error s;
     apiKeySelected := apiKeySelected s |}.
Definition set_videoUrl v (s : State) : State :=
  {| prompt := prompt s; refImages := refImages s;
     refImagePreviews := refImagePreviews s; videoUrl := v;
     isLoading := isLoading s; error := error s;
     apiKeySelected := apiKeySelected s |}.
Definition set_isLoading v (s : State) : State :=
  {| prompt := prompt s; refImages := refImages s;
     refImagePreviews := refImagePreviews s; videoUrl := videoUrl s;
     isLoading := v; error := error s;
     apiKeySelected := apiKeySelected s |}.
Definition set_error v (s : State) : State :=
  {| prompt := prompt s; refImages := refImages s;
     refImagePreviews := refImagePreviews s; videoUrl := videoUrl s;
     isLoading := isLoading s; error := v;
     apiKeySelected := apiKeySelected s |}.
Definition set_apiKeySelected v (s : State) : State :=
  {| prompt := prompt s; refImages := refImages s;
     refImagePreviews := refImagePreviews s; videoUrl := videoUrl s;
     isLoading := isLoading s; error := error s;
     apiKeySelected := v |}.

(** White space and line terminators, the code units [trim] removes. *)
Definition isWhiteSpace (c : Z) : bool :=
  ((9 <=? c) && (c <=? 13)) || (c =? 32) || (c =? 160) || (c =? 5760)
  || ((8192 <=? c) && (c <=? 8202)) || (c =? 8232) || (c =? 8233)
  || (c =? 8239) || (c =? 8287) || (c =? 12288) || (c =? 65279).

Fixpoint trimStart (s : jsstring) : jsstring :=
  match s with
  | c :: r => if isWhiteSpace c then trimStart r else s
  | [] => []
  end.

Definition trim (s : jsstring) : jsstring :=
  rev (trimStart (rev (trimStart s))).

(** A string is truthy when it is not empty. *)
Definition nonEmpty (s : jsstring) : bool :=
  match s with
  | [] => false
  | _ :: _ => true
  end.

Definition isSome {A : Type} (o : option A) : bool :=
  match o with
  | Some _ => true
  | None => false
  end.

Definition isGenerateDisabled (s : State) : bool :=
  isLoading s || negb (nonEmpty (trim (prompt s)))
  || negb (existsb isSome (refImages s)).

(** An entry of [referenceImages]; its [referenceType] is always
    [ASSET]. *)
Record ReferenceImage := {
  imageBytes : option jsstring;
  mimeType : jsstring
}.

(** The request [generateVideos] gets; model, resolution and the like are
    constants. *)
Record Request := {
  requestPrompt : jsstring;
  referenceImages : list ReferenceImage
}.

(** The response of [fetch]: [ok], [status], and the object URL made of
    its [blob()], which may reject. *)
Record Response := {
  ok : bool;
  status : nat;
  blob : Thrown + string
}.

(** What the environment answers.  [fetch] is given the download link; the
    key it is sent with is the environment's. *)
Record Env := {
  newClient : option Thrown;           (* [new GoogleGenAI] may throw *)
  generateVideos : Request -> Thrown + Operation;
  getVideosOperation : list (Operation -> option Operation);
  fetch : jsstring -> Thrown + Response
}.

(** The loop that fills [referenceImagesPayload]. *)
Fixpoint referenceImagesPayload (files : list (option File))
  : Thrown + list ReferenceImage :=
  match files with
  | [] => inr []
  | None :: rest => referenceImagesPayload rest
  | Some file :: rest =>
      match fileToBase64 file with
      | inl e => inl e
      | inr base64EncodeString =>
          match referenceImagesPayload rest with
          | inl e => inl e
          | inr l =>
              inr ({| imageBytes := base64EncodeString;
                      mimeType := type file |} :: l)
          end
      end
  end.

(** How the [try] block ends, and the requests it made. *)
Inductive Attempt :=
| Shown (url : string)
| Caught (e : Thrown)
| Polling.

Definition decimal (n : nat) : string :=
  DecimalString.NilZero.string_of_uint (Nat.to_uint n).

Definition attempt (s : State) (env : Env) : Attempt * list Request :=
  match newClient env with
  | Some e => (Caught e, [])
  | None =>
      match referenceImagesPayload (refImages s) with
      | inl e => (Caught e, [])
      | inr payload =>
          let request := {| requestPrompt := prompt s;
                            referenceImages := payload |} in
          (match generateVideos env request with
           | inl e => Caught e
           | inr operation =>
               match snd (pollOperation operation (getVideosOperation env)) with
               | Waiting => Polling
               | RejectedWith e => Caught e
               | Resolved completedOperation =>
                   match uri completedOperation with
                   | Some (c :: l) =>
                       match fetch env (c :: l) with
                       | inl e => Caught e
                       | inr videoResponse =>
                           if ok videoResponse then
                             match blob videoResponse with
                             | inl e => Caught e
                             | inr url => Shown url
                             end
                           else
                             Caught (Error ("Failed to download video. Status: "
                                            ++ decimal (status videoResponse))%string)
                       end
                   | _ =>
                       Caught (Error "Video generation succeeded, but no download link was found."%string)
                   end
               end
           end, [request])
      end
  end.

(** [String.prototype.includes]. *)
Fixpoint includes (s search : string) : bool :=
  String.prefix search s
  || match s with
     | EmptyString => false
     | String _ r => includes r search
     end.

(** [handleGenerate]: the state it leaves and the requests it made.  While
    the operation is still polled the handler has not returned. *)
Definition handleGenerate (s : State) (env : Env) : State * list Request :=
  let hasPrompt := trim (prompt s) in
  let hasImages := existsb isSome (refImages s) in
  if negb (nonEmpty hasPrompt) || negb hasImages then
    (set_error
       (Some "Please enter a prompt and upload at least one reference image."%string)
       s, [])
  else
    let s := set_videoUrl None (set_error None (set_isLoading true s)) in
    let (a, requests) := attempt s env in
    (match a with
     | Shown url => set_isLoading false (set_videoUrl (Some url) s)
     | Caught e =>
         let errorMessage :=
           match message e with
           | Some (String c m) => String c m
           | _ => "An unknown error occurred."%string
           end in
         let s := set_error
                    (Some ("Failed to generate video. " ++ errorMessage)%string) s in
         let s :=
           if includes errorMessage "Requested entity was not found"%string
           then set_error
                  (Some "API key is invalid or not found. Please select a valid key."%string)
                  (set_apiKeySelected false s)
           else s in
         set_isLoading false s
     | Polling => s
     end, requests).

(** ** Uploads *)

(** [a[index] = v] on a copy of an array: an index past the end extends
    the array with empty slots.  An empty slot and [null] are both [None]:
    the component only tests its slots for truth and against [null]. *)
Fixpoint assignItem {A : Type} (index : nat) (v : option A)
    (l : list (option A)) : list (option A) :=
  match index, l with
  | O, [] => [v]
  | O, _ :: r => v :: r
  | S i, [] => None :: assignItem i v []
  | S i, x :: r => x :: assignItem i v r
  end.

(** A [FileReader] started by an upload: the slot, the previews of the
    render whose handler started it (the handler's closure), and what the
    read gives. *)
Record Reader := {
  slot : nat;
  closurePreviews : list (option jsstring);
  result : option jsstring
}.

Record Page := {
  state : State;
  readers : list Reader     (* the reads under way *)
}.

Inductive Action :=
| Upload (index : nat) (file : option File)   (* [e.target.files?.[0]] *)
| LoadEnd (reader : nat).                      (* [onloadend] of a read under way *)

Fixpoint removeNth {A : Type} (n : nat) (l : list A) : list A :=
  match n, l with
  | _, [] => []
  | O, _ :: r => r
  | S i, x :: r => x :: removeNth i r
  end.

(** [handleImageUpload] and the [onloadend] it installs.  The handler is
    the one of the current render, so it copies the current [refImages];
    [onloadend] runs later and copies the previews of the render that
    started the read. *)
Definition act (p : Page) (a : Action) : Page :=
  match a with
  | Upload index (Some file) =>
      {| state := set_refImages
                    (assignItem index (Some file) (refImages (state p)))
                    (state p);
         readers := readers p
                    ++ [{| slot := index;
                           closurePreviews := refImagePreviews (state p);
                           result := dataURL file |}] |}
  | Upload _ None => p
  | LoadEnd n =>
      match nth_error (readers p) n with
      | Some r =>
          {| state := set_refImagePreviews
                        (assignItem (slot r) (result r) (closurePreviews r))
                        (state p);
             readers := removeNth n (readers p) |}
      | None => p
      end
  end.

Definition actAll (actions : list Action) (p : Page) : Page :=
  fold_left act actions p.

(** The page as mounted: three empty slots. *)
Definition initialPage : Page :=
  {| state := {| prompt := []; refImages := [None; None; None];
                 refImagePreviews := [None; None; None];
                 videoUrl := None; isLoading := false; error := None;
                 apiKeySelected := true |};
     readers := [] |}.

(** The files in the slots, in the order of the slots. *)
Definition uploaded (files : list (option File)) : list File :=
  flat_map (fun o => match o with Some file => [file] | None => [] end) files.

(** The preview that goes with a slot: the data URL of its file. *)
Definition previewOf (o : option File) : option jsstring :=
  match o with
  | Some file => dataURL file
  | None => None
  end.

(** An upload whose read ends before anything else happens. *)
Definition uploadAndLoad (x : nat * File) : list Action :=
  [Upload (fst x) (Some (snd x)); LoadEnd 0].

(** ** Sample values *)

Definition sampleFile : File :=
  {| type := js "image/png";
     dataURL := Some (js "data:image/png;base64,iVBORw==") |}.

Definition sampleState : State :=
  {| prompt := js "A video of this character, walking";
     refImages := [None; Some sampleFile; None];
     refImagePreviews := [None; dataURL sampleFile; None];
     videoUrl := None; isLoading := false; error := None;
     apiKeySelected := true |}.

(** An environment in which the video is ready at the second poll. *)
Definition sampleEnv : Env :=
  {| newClient := None;
     generateVideos := fun _ => inr {| done := false; uri := None |};
     getVideosOperation :=
       [fun operation => Some operation;
        fun _ => Some {| done := true;
                         uri := Some (js "https://example.com/video?alt=media") |}];
     fetch := fun _ => inr {| ok := true; status := 200;
                              blob := inr "blob:video"%string |} |}.

Definition sampleRequest : Request :=
  {| requestPrompt := js "A video of this character, walking";
     referenceImages := [{| imageBytes := Some (js "iVBORw==");
                            mimeType := js "image/png" |}] |}.

End CharacterStudio.
(** * Properties *)

(** ** Lists three elements at a time *)

Section ListInd3.
Context {A : Type} (P : list A -> Prop).
Hypothesis P0 : P [].
Hypothesis P1 : forall a, P [a].
Hypothesis P2 : forall a b, P [a; b].
Hypothesis P3 : forall a b c r, P r -> P (a :: b :: c :: r).

Lemma list_ind3 : forall l, P l.
Proof.
  assert (H : forall n l, (length l <= n)%nat -> P l).
  { induction n as [n IH] using lt_wf_ind.
    intros [|a [|b [|c r]]] Hl; auto.
    apply P3. apply (IH (length r)); simpl in *; lia. }
  intro l. apply (H (length l)). lia.
Qed.
End ListInd3.

(** ** Base64 examples *)

Example encode_Man : encode [77; 97; 110] = Some (js "TWFu").
Proof. reflexivity. Qed.

Example encode_Ma : encode [77; 97] = Some (js "TWE=").
Proof. reflexivity. Qed.

Example decode_M : decode (js "TQ==") = Some [77].
Proof. reflexivity. Qed.

Example decode_spaces : decode (js " TW Fu ") = Some [77; 97; 110].
Proof. reflexivity. Qed.

Example decode_bad : decode (js "TWFu*") = None.
Proof. reflexivity. Qed.

(** ** The wire text encoding *)

Ltac zcases :=
  repeat (match goal with
          | |- context [Z.ltb ?a ?b] => destruct (Z.ltb_spec a b)
          | |- context [Z.leb ?a ?b] => destruct (Z.leb_spec a b)
          | |- context [Z.eqb ?a ?b] => destruct (Z.eqb_spec a b)
          end; cbn [andb orb negb]).

Ltac zarith := Z.div_mod_to_equations; lia.

Module Base64Facts.
Import Base64.

Ltac sextet_cases v :=
  unfold charOfSextet;
  destruct (Z.ltb_spec v 26);
  [|destruct (Z.ltb_spec v 52);
    [|destruct (Z.ltb_spec v 62); [|destruct (Z.eqb_spec v 62)]]].

Lemma sextetOfChar_charOfSextet v :
  is_sextet v -> sextetOfChar (charOfSextet v) = Some v.
Proof.
  unfold is_sextet. intros Hv.
  sextet_cases v; unfold sextetOfChar; zcases; try (f_equal; lia); lia.
Qed.

Lemma charOfSextet_not_space v :
  is_sextet v -> isAsciiWhitespace (charOfSextet v) = false.
Proof.
  unfold is_sextet. intros Hv.
  sextet_cases v; unfold isAsciiWhitespace; zcases; try reflexivity; lia.
Qed.

Lemma charOfSextet_not_pad v :
  is_sextet v -> (charOfSextet v =? pad) = false.
Proof.
  unfold is_sextet, pad. intros Hv.
  sextet_cases v; zcases; try reflexivity; lia.
Qed.

Lemma sextets_range l : Forall is_byte l -> Forall is_sextet (sextets l).
Proof.
  induction l as [|a|a b|a b c r IH] using list_ind3; intros H;
    repeat match goal with
           | H : Forall _ (_ :: _) |- _ => inversion H; subst; clear H
           end;
    unfold is_byte in *; cbn [sextets];
    repeat (constructor; [unfold is_sextet; zarith|]); auto.
Qed.

Lemma octets_sextets l : Forall is_byte l -> octets (sextets l) = l.
Proof.
  induction l as [|a|a b|a b c r IH] using list_ind3; intros H;
    repeat match goal with
           | H : Forall _ (_ :: _) |- _ => inversion H; subst; clear H
           end;
    unfold is_byte in *; cbn [sextets octets]; try reflexivity.
  - f_equal. zarith.
  - f_equal; [zarith|]. f_equal. zarith.
  - rewrite IH by assumption.
    f_equal; [zarith|]. f_equal; [zarith|]. f_equal. zarith.
Qed.

Lemma sextets_length l : Z.of_nat (length (sextets l)) mod 4 <> 1.
Proof.
  induction l as [|a|a b|a b c r IH] using list_ind3;
    cbn [sextets length]; try discriminate.
  rewrite !Nat2Z.inj_succ. zarith.
Qed.

Lemma padding_cases l :
  padding l = [] \/ padding l = [pad] \/ padding l = [pad; pad].
Proof.
  induction l as [|a|a b|a b c r IH] using list_ind3; cbn [padding]; auto.
Qed.

Lemma encoded_length l :
  Z.of_nat (length (map charOfSextet (sextets l) ++ padding l)) mod 4 = 0.
Proof.
  induction l as [|a|a b|a b c r IH] using list_ind3;
    cbn [sextets padding map app length]; try reflexivity.
  rewrite !Nat2Z.inj_succ. zarith.
Qed.

Lemma stripPadding_encoded body p :
  Forall (fun c => (c =? pad) = false) body ->
  p = [] \/ p = [pad] \/ p = [pad; pad] ->
  stripPadding (body ++ p) = body.
Proof.
  intros Hbody Hp. unfold stripPadding. rewrite rev_app_distr.
  assert (Hrev : Forall (fun c => (c =? pad) = false) (rev body))
    by (apply Forall_rev; assumption).
  destruct Hp as [-> | [-> | ->]]; cbn [rev app].
  - rewrite app_nil_r.
    destruct (rev body) as [|c1 [|c2 r]] eqn:E.
    + reflexivity.
    + inversion Hrev as [|? ? H1 ?]; subst. now rewrite H1.
    + inversion Hrev as [|? ? H1 ?]; subst. now rewrite H1.
  - destruct (rev body) as [|c1 r] eqn:E.
    + rewrite Z.eqb_refl.
      apply (f_equal (@rev Z)) in E. rewrite rev_involutive in E.
      now rewrite E.
    + inversion Hrev as [|? ? H1 ?]; subst.
      rewrite Z.eqb_refl, H1.
      change (rev r ++ [c1]) with (rev (c1 :: r)).
      rewrite <- E. apply rev_involutive.
  - rewrite !Z.eqb_refl. apply rev_involutive.
Qed.

Lemma mapM_sextetOfChar v :
  Forall is_sextet v -> mapM sextetOfChar (map charOfSextet v) = Some v.
Proof.
  induction 1 as [|x v Hx _ IH]; cbn [map mapM]; [reflexivity|].
  now rewrite sextetOfChar_charOfSextet, IH.
Qed.

Lemma filter_all {A} (f : A -> bool) l :
  Forall (fun a => f a = true) l -> filter f l = l.
Proof.
  induction 1 as [|x l Hx _ IH]; cbn [filter]; [reflexivity|].
  now rewrite Hx, IH.
Qed.

Lemma padding_not_space l :
  Forall (fun c => negb (isAsciiWhitespace c) = true) (padding l).
Proof.
  destruct (padding_cases l) as [-> | [-> | ->]];
    repeat constructor.
Qed.

Lemma btoa_bytes s :
  Forall is_byte s ->
  btoa s = Some (map charOfSextet (sextets s) ++ padding s).
Proof.
  intros H. unfold btoa.
  replace (forallb (fun c => c <=? 255) s) with true; [reflexivity|].
  symmetry. apply forallb_forall. intros x Hx.
  rewrite Forall_forall in H. specialize (H x Hx).
  unfold is_byte in H. apply Z.leb_le. lia.
Qed.

(** [atob] undoes [btoa] on every binary string. *)
Lemma atob_btoa s :
  Forall is_byte s ->
  atob (map charOfSextet (sextets s) ++ padding s) = Some s.
Proof.
  intros H. pose proof (sextets_range s H) as Hr. unfold atob.
  rewrite filter_all.
  2:{ apply Forall_app. split; [|apply padding_not_space].
      apply Forall_map. eapply Forall_impl; [|exact Hr].
      intros v Hv. cbn. now rewrite charOfSextet_not_space. }
  rewrite encoded_length. cbn [Z.eqb].
  rewrite stripPadding_encoded.
  2:{ apply Forall_map. eapply Forall_impl; [|exact Hr].
      intros v Hv. now apply charOfSextet_not_pad. }
  2:{ apply padding_cases. }
  rewrite length_map.
  destruct (Z.eqb_spec (Z.of_nat (length (sextets s)) mod 4) 1) as [E|_].
  { now apply sextets_length in E. }
  rewrite mapM_sextetOfChar by assumption.
  now rewrite octets_sextets.
Qed.

End Base64Facts.

Lemma map_fromCharCode_bytes b : Forall is_byte b -> map fromCharCode b = b.
Proof.
  induction 1 as [|x l Hx _ IH]; cbn [map]; [reflexivity|].
  rewrite IH. f_equal. unfold fromCharCode, is_byte in *.
  apply Z.mod_small. lia.
Qed.

Lemma map_toUint8_bytes b : Forall is_byte b -> map toUint8 b = b.
Proof.
  induction 1 as [|x l Hx _ IH]; cbn [map]; [reflexivity|].
  rewrite IH. f_equal. unfold toUint8, is_byte in *.
  apply Z.mod_small. lia.
Qed.

Lemma encode_bytes b :
  Forall is_byte b ->
  encode b
  = Some (map Base64.charOfSextet (Base64.sextets b) ++ Base64.padding b).
Proof.
  intros H. unfold encode. rewrite map_fromCharCode_bytes by assumption.
  now apply Base64Facts.btoa_bytes.
Qed.

Lemma decode_encode_bytes (bytes : Uint8Array) :
  Forall is_byte bytes ->
  exists base64, encode bytes = Some base64 /\ decode base64 = Some bytes.
Proof.
  intros H. eexists. split; [now apply encode_bytes|].
  unfold decode. rewrite Base64Facts.atob_btoa by assumption.
  now rewrite map_toUint8_bytes.
Qed.

(** C10. The wire-text helpers are inverse to each other on byte arrays:
    [encode] succeeds on every byte array and [decode] of its result is the
    array itself, so the text encoding loses no payload byte. *)
Theorem decode_encode (bytes : Uint8Array) :
  Forall is_byte bytes ->
  exists base64, encode bytes = Some base64 /\ decode base64 = Some bytes.
Proof. exact (decode_encode_bytes bytes). Qed.

Lemma decode_encode_witness :
  Forall is_byte [0; 255; 16; 128] /\
  exists base64,
    encode [0; 255; 16; 128] = Some base64 /\
    decode base64 = Some [0; 255; 16; 128].
Proof.
  assert (H : Forall is_byte [0; 255; 16; 128])
    by (repeat constructor; unfold is_byte; lia).
  split; [exact H | exact (decode_encode _ H)].
Defined.

(** ** PCM conversion *)

Lemma toInt16_range z : is_int16 (toInt16 z).
Proof. unfold is_int16, toInt16. zarith. Qed.

Lemma toInt16_small z : is_int16 z -> toInt16 z = z.
Proof. unfold is_int16, toInt16. intros H. zarith. Qed.

Lemma int16Bytes_range z : Forall is_byte (int16Bytes z).
Proof. unfold int16Bytes. repeat constructor; unfold is_byte; zarith. Qed.

Lemma bufferOfInt16_range a : Forall is_byte (bufferOfInt16 a).
Proof.
  unfold bufferOfInt16. induction a as [|z a IH]; cbn [flat_map].
  - constructor.
  - apply Forall_app. split; [apply int16Bytes_range | exact IH].
Qed.

Lemma int16OfBuffer_bufferOfInt16 a :
  Forall is_int16 a -> int16OfBuffer (bufferOfInt16 a) = Some a.
Proof.
  induction 1 as [|z a Hz _ IH]; [reflexivity|].
  unfold bufferOfInt16 in *. cbn [flat_map int16Bytes app int16OfBuffer].
  rewrite IH. do 2 f_equal.
  unfold is_int16, toInt16 in *. zarith.
Qed.

Lemma map_nth_seq {A : Type} (l : list A) (d : A) :
  map (fun i => nth i l d) (seq 0 (length l)) = l.
Proof.
  induction l as [|a l IH]; [reflexivity|].
  cbn [length seq map nth]. f_equal.
  rewrite <- seq_shift, map_map. exact IH.
Qed.

(** The integer part is within one of the number, on the side of zero. *)
Lemma Qtrunc_nonneg (y : Q) :
  (0 <= y)%Q ->
  0 <= Qtrunc y /\ (inject_Z (Qtrunc y) <= y < inject_Z (Qtrunc y) + 1)%Q.
Proof.
  destruct y as [n d]. unfold Qtrunc, Qle, Qlt. cbn.
  intros Hn. Z.quot_rem_to_equations. nia.
Qed.

Lemma Qtrunc_neg (y : Q) :
  (y < 0)%Q ->
  Qtrunc y <= 0 /\ (inject_Z (Qtrunc y) - 1 < y <= inject_Z (Qtrunc y))%Q.
Proof.
  destruct y as [n d]. unfold Qtrunc, Qle, Qlt. cbn.
  intros Hn. Z.quot_rem_to_equations. nia.
Qed.

Lemma Qdiv_32768 (a : Q) : (a / 32768 == a * (1 # 32768))%Q.
Proof. reflexivity. Qed.

Lemma inject_Z_lt a b : (inject_Z a < inject_Z b)%Q -> a < b.
Proof. now rewrite <- Zlt_Qlt. Qed.

(** Samples from just below -1 up to, but excluding, 1 do not overflow. *)
Lemma storeInt16_in_range (x : Q) :
  (-1 - (1 # 32768) < x < 1)%Q ->
  storeInt16 (x * 32768) = Qtrunc (x * 32768).
Proof.
  intros [Hlo Hhi]. unfold storeInt16. apply toInt16_small. unfold is_int16.
  destruct (Qlt_le_dec (x * 32768) 0) as [Hneg | Hpos].
  - destruct (Qtrunc_neg _ Hneg) as [H0 [H1 H2]]. split; [|lia].
    assert (H : (inject_Z (-32769) < inject_Z (Qtrunc (x * 32768)))%Q).
    { change (inject_Z (-32769)) with (-32769)%Q. lra. }
    apply inject_Z_lt in H. lia.
  - destruct (Qtrunc_nonneg _ Hpos) as [H0 [H1 H2]]. split; [lia|].
    apply inject_Z_lt. change (inject_Z 32768) with 32768%Q. lra.
Qed.

Lemma roundTripSample_close (x : Q) :
  (-1 - (1 # 32768) < x < 1)%Q ->
  (Qabs (roundTripSample x - x) < 1 # 32768)%Q.
Proof.
  intros Hx. unfold roundTripSample. rewrite storeInt16_in_range by exact Hx.
  apply Qabs_Qlt_condition. rewrite Qdiv_32768.
  destruct (Qlt_le_dec (x * 32768) 0) as [Hneg | Hpos].
  - destruct (Qtrunc_neg _ Hneg) as [_ [H1 H2]]. split; lra.
  - destruct (Qtrunc_nonneg _ Hpos) as [_ [H1 H2]]. split; lra.
Qed.

Lemma roundTripSample_one (x : Q) :
  (x == 1)%Q -> (roundTripSample x == -1)%Q.
Proof.
  intros Hx. unfold roundTripSample, storeInt16.
  assert (Hpos : (0 <= x * 32768)%Q) by lra.
  destruct (Qtrunc_nonneg _ Hpos) as [_ [H1 H2]].
  assert (E : Qtrunc (x * 32768) = 32768).
  { assert (A : (inject_Z (Qtrunc (x * 32768)) < inject_Z 32769)%Q)
      by (change (inject_Z 32769) with 32769%Q; lra).
    assert (B : (inject_Z 32767 < inject_Z (Qtrunc (x * 32768)))%Q)
      by (change (inject_Z 32767) with 32767%Q; lra).
    apply inject_Z_lt in A, B. lia. }
  rewrite E. reflexivity.
Qed.

Lemma roundTripSample_range (x : Q) : (-1 <= roundTripSample x < 1)%Q.
Proof.
  unfold roundTripSample, storeInt16.
  pose proof (toInt16_range (Qtrunc (x * 32768))) as [Hlo Hhi].
  rewrite Zle_Qle in Hlo. rewrite Zlt_Qlt in Hhi.
  change (inject_Z (-32768)) with (-32768)%Q in Hlo.
  change (inject_Z 32768) with 32768%Q in Hhi.
  rewrite Qdiv_32768. split; lra.
Qed.

Lemma createBlob_total (frame : Float32Array) :
  createBlob frame
  = Some {| data :=
              map Base64.charOfSextet
                (Base64.sextets
                   (bufferOfInt16
                      (map (fun x => storeInt16 (x * 32768)%Q) frame)))
              ++ Base64.padding
                   (bufferOfInt16
                      (map (fun x => storeInt16 (x * 32768)%Q) frame));
            mimeType := "audio/pcm;rate=16000" |}.
Proof.
  unfold createBlob. now rewrite encode_bytes by apply bufferOfInt16_range.
Qed.

Lemma roundTrip_map (frame : Float32Array) :
  frame <> [] -> roundTrip frame = Some (map roundTripSample frame).
Proof.
  intros Hne. unfold roundTrip.
  set (int16 := map (fun x => storeInt16 (x * 32768)%Q) frame).
  assert (Hi : Forall is_int16 int16).
  { apply Forall_map, Forall_forall. intros x _. apply toInt16_range. }
  destruct (decode_encode_bytes (bufferOfInt16 int16) (bufferOfInt16_range _))
    as [b64 [Henc Hdec]].
  unfold createBlob. fold int16. rewrite Henc. cbn [data]. rewrite Hdec.
  unfold decodeAudioData. rewrite int16OfBuffer_bufferOfInt16 by exact Hi.
  rewrite Nat.div_1_r.
  assert (Hlen : length int16 = length frame) by apply length_map.
  assert (Hz : (length int16 =? 0)%nat = false).
  { apply Nat.eqb_neq. rewrite Hlen. destruct frame; [congruence | discriminate]. }
  rewrite Hz. cbn [Nat.eqb Nat.ltb Nat.leb orb seq map channelData nth].
  f_equal.
  erewrite map_ext.
  2:{ intros i. rewrite Nat.mul_1_r, Nat.add_0_r. reflexivity. }
  rewrite <- (map_map (fun i => nth i int16 0) (fun z => (inject_Z z / 32768)%Q)).
  rewrite map_nth_seq. unfold int16. rewrite map_map. reflexivity.
Qed.

Lemma roundTripSample_wraps (x : Q) :
  exists k : Z,
    (roundTripSample x
     == inject_Z (Qtrunc (x * 32768)) / 32768 - 2 * inject_Z k)%Q.
Proof.
  unfold roundTripSample, storeInt16, toInt16.
  set (t := Qtrunc (x * 32768)).
  exists ((t + 32768) / 65536).
  assert (E : (t + 32768) mod 65536 - 32768
              = t - 65536 * ((t + 32768) / 65536)) by zarith.
  rewrite E. rewrite !Qdiv_32768.
  unfold Z.sub. rewrite inject_Z_plus, inject_Z_opp, inject_Z_mult.
  change (inject_Z 65536) with 65536%Q. lra.
Qed.

(** C1, as the code has it.  A frame of at least one sample goes through
    [createBlob], the wire text, [decode] and [decodeAudioData] sample by
    sample: every decoded value lies in [-1, 1) and differs from the integer
    part of 32768 x, divided by 32768, by a multiple of 2 (the 16-bit wrap);
    a sample x with -1 - 1/32768 < x < 1 comes back less than one
    quantization step (1/32768) away from x; the sample 1.0 comes back
    as -1.0. *)
Theorem roundTrip_quantization (frame : Float32Array) :
  frame <> [] ->
  roundTrip frame = Some (map roundTripSample frame) /\
  forall x : Q,
    In x frame ->
    (-1 <= roundTripSample x < 1)%Q /\
    (exists k : Z,
        (roundTripSample x
         == inject_Z (Qtrunc (x * 32768)) / 32768 - 2 * inject_Z k)%Q) /\
    ((-1 - (1 # 32768) < x < 1)%Q ->
     (Qabs (roundTripSample x - x) < 1 # 32768)%Q) /\
    ((x == 1)%Q -> (roundTripSample x == -1)%Q).
Proof.
  intros Hne. split; [now apply roundTrip_map|].
  intros x _. repeat split.
  - apply roundTripSample_range.
  - apply roundTripSample_range.
  - apply roundTripSample_wraps.
  - apply roundTripSample_close.
  - apply roundTripSample_one.
Qed.

Lemma roundTrip_quantization_witness :
  [1; 1 # 2; -1]%Q <> [] /\
  roundTrip [1; 1 # 2; -1]%Q = Some (map roundTripSample [1; 1 # 2; -1]%Q) /\
  forall x : Q,
    In x [1; 1 # 2; -1]%Q ->
    (-1 <= roundTripSample x < 1)%Q /\
    (exists k : Z,
        (roundTripSample x
         == inject_Z (Qtrunc (x * 32768)) / 32768 - 2 * inject_Z k)%Q) /\
    ((-1 - (1 # 32768) < x < 1)%Q ->
     (Qabs (roundTripSample x - x) < 1 # 32768)%Q) /\
    ((x == 1)%Q -> (roundTripSample x == -1)%Q).
Proof.
  assert (H : [1; 1 # 2; -1]%Q <> []) by discriminate.
  split; [exact H | exact (roundTrip_quantization _ H)].
Defined.

(** C1, as stated, fails at full scale: the frame of the single sample 1.0,
    which lies in [-1, 1], decodes to the single sample -1.0, which is not
    within one quantization step of 1.0. *)
Lemma roundTrip_full_scale_wraps :
  exists y : Q,
    (-1 <= 1 <= 1)%Q /\
    roundTrip [1%Q] = Some [y] /\
    (y == -1)%Q /\
    ~ (Qabs (y - 1) <= 1 # 32768)%Q.
Proof.
  exists (roundTripSample 1). split; [split; discriminate|]. split.
  - now rewrite roundTrip_map by discriminate.
  - split; [now apply roundTripSample_one|].
    intros H. rewrite (roundTripSample_one 1) in H by reflexivity.
    vm_compute in H. now apply H.
Qed.

Example roundTrip_half : roundTrip [1 # 2]%Q = Some [(16384 # 1) / 32768]%Q.
Proof. reflexivity. Qed.

Example roundTrip_odd_bytes : decodeAudioData [1; 2; 3] 24000 1 = None.
Proof. reflexivity. Qed.

Example store_above_full_scale : storeInt16 ((3 # 2) * 32768) = -16384.
Proof. reflexivity. Qed.

Example store_just_below_minus_one :
  storeInt16 ((-65537 # 65536) * 32768) = -32768.
Proof. reflexivity. Qed.

(** ** Binary64 arithmetic *)

Lemma pow2_pos e : (0 < pow2 e)%Q.
Proof. apply Qpower_0_lt. reflexivity. Qed.

Lemma pow2_add a b : (pow2 (a + b) == pow2 a * pow2 b)%Q.
Proof. apply Qpower_plus. discriminate. Qed.

Lemma pow2_le a b : a <= b -> (pow2 a <= pow2 b)%Q.
Proof. intros H. apply Qpower_le_compat_l; [exact H | discriminate]. Qed.

Lemma pow2_nonneg e : 0 <= e -> (pow2 e == inject_Z (2 ^ e))%Q.
Proof.
  intros H. unfold pow2. change 2%Q with (inject_Z 2).
  now rewrite Zpower_Qpower.
Qed.

Lemma pow2_sub a b : (pow2 (a - b) == pow2 a / pow2 b)%Q.
Proof. apply Qpower_minus. discriminate. Qed.

Lemma Qdiv_le_cross (p q n d : Z) :
  0 < q -> 0 < d -> p * d <= n * q ->
  (inject_Z p / inject_Z q <= inject_Z n / inject_Z d)%Q.
Proof.
  intros Hq Hd H.
  assert (Hq' : (0 < inject_Z q)%Q)
    by (change 0%Q with (inject_Z 0); now rewrite <- Zlt_Qlt).
  assert (Hd' : (0 < inject_Z d)%Q)
    by (change 0%Q with (inject_Z 0); now rewrite <- Zlt_Qlt).
  apply Qle_shift_div_l; [exact Hd'|].
  apply (Qmult_le_r _ _ (inject_Z q)); [exact Hq'|].
  setoid_replace (inject_Z p / inject_Z q * inject_Z d * inject_Z q)%Q
    with (inject_Z p * inject_Z d)%Q by (field; lra).
  rewrite <- !inject_Z_mult. now rewrite <- Zle_Qle.
Qed.

Lemma Qdiv_lt_cross (p q n d : Z) :
  0 < q -> 0 < d -> n * q < p * d ->
  (inject_Z n / inject_Z d < inject_Z p / inject_Z q)%Q.
Proof.
  intros Hq Hd H.
  assert (Hq' : (0 < inject_Z q)%Q)
    by (change 0%Q with (inject_Z 0); now rewrite <- Zlt_Qlt).
  assert (Hd' : (0 < inject_Z d)%Q)
    by (change 0%Q with (inject_Z 0); now rewrite <- Zlt_Qlt).
  apply Qlt_shift_div_r; [exact Hd'|].
  apply (Qmult_lt_r _ _ (inject_Z q)); [exact Hq'|].
  setoid_replace (inject_Z p / inject_Z q * inject_Z d * inject_Z q)%Q
    with (inject_Z p * inject_Z d)%Q by (field; lra).
  rewrite <- !inject_Z_mult. now rewrite <- Zlt_Qlt.
Qed.

Lemma exponent_spec (x : Q) :
  (0 < x)%Q -> (pow2 (exponent x) <= x < pow2 (exponent x + 1))%Q.
Proof.
  destruct x as [n d]. unfold Qlt. cbn. rewrite Z.mul_1_r. intros Hn.
  unfold exponent. cbn [Qnum Qden]. rewrite Z.abs_eq by lia.
  pose proof (Z.log2_spec n Hn) as [Ha1 Ha2].
  assert (Hd : 0 < Z.pos d) by lia.
  pose proof (Z.log2_spec (Z.pos d) Hd) as [Hb1 Hb2].
  pose proof (Z.log2_nonneg n) as Ha0.
  pose proof (Z.log2_nonneg (Z.pos d)) as Hb0.
  set (a := Z.log2 n) in *. set (b := Z.log2 (Z.pos d)) in *.
  assert (Hpa : 0 < 2 ^ a) by (apply Z.pow_pos_nonneg; lia).
  assert (Hpb : 0 < 2 ^ b) by (apply Z.pow_pos_nonneg; lia).
  rewrite !Z.pow_succ_r in * by lia.
  assert (Hnd : (n # d == inject_Z n / inject_Z (Z.pos d))%Q)
    by apply Qmake_Qdiv.
  assert (Hle : forall k c, 0 <= k -> 0 <= c ->
            2 ^ k * Z.pos d <= n * 2 ^ c -> (pow2 (k - c) <= n # d)%Q).
  { intros k c Hk Hc H. rewrite pow2_sub, !pow2_nonneg, Hnd by lia.
    apply Qdiv_le_cross; first [lia | apply Z.pow_pos_nonneg; lia]. }
  assert (Hlt : forall k c, 0 <= k -> 0 <= c ->
            n * 2 ^ c < 2 ^ k * Z.pos d -> (n # d < pow2 (k - c))%Q).
  { intros k c Hk Hc H. rewrite pow2_sub, !pow2_nonneg, Hnd by lia.
    apply Qdiv_lt_cross; first [lia | apply Z.pow_pos_nonneg; lia]. }
  destruct (Z.leb_spec (Z.pos d * 2 ^ a) (n * 2 ^ b)) as [H | H].
  - split.
    + apply Hle; lia.
    + replace (a - b + 1) with ((a + 1) - b) by lia. apply Hlt; try lia.
      rewrite Z.pow_add_r by lia. change (2 ^ 1) with 2. nia.
  - split.
    + replace (a - b - 1) with (a - (b + 1)) by lia. apply Hle; try lia.
      rewrite Z.pow_add_r by lia. change (2 ^ 1) with 2. nia.
    + replace (a - b - 1 + 1) with (a - b) by lia. apply Hlt; lia.
Qed.

Lemma roundHalfEven_error (x : Q) :
  (Qabs (inject_Z (roundHalfEven x) - x) <= 1 # 2)%Q.
Proof.
  unfold roundHalfEven.
  pose proof (Qfloor_le x) as H1. pose proof (Qlt_floor x) as H2.
  rewrite inject_Z_plus in H2. change (inject_Z 1) with 1%Q in H2.
  apply Qabs_Qle_condition.
  destruct (Qcompare_spec (x - inject_Z (Qfloor x)) (1 # 2)) as [E | E | E].
  - destruct (Z.even (Qfloor x)); rewrite ?inject_Z_plus;
      change (inject_Z 1) with 1%Q; lra.
  - lra.
  - rewrite inject_Z_plus. change (inject_Z 1) with 1%Q. lra.
Qed.

Lemma roundHalfEven_nonneg (x : Q) : (0 <= x)%Q -> 0 <= roundHalfEven x.
Proof.
  intros H. unfold roundHalfEven.
  assert (H0 : 0 <= Qfloor x).
  { change 0 with (Qfloor 0). now apply Qfloor_resp_le. }
  destruct (_ ?= _)%Q; [destruct (Z.even _)| |]; lia.
Qed.

Lemma roundHalfEven_pos (x : Q) : (1 <= x)%Q -> 0 < roundHalfEven x.
Proof.
  intros H. unfold roundHalfEven.
  assert (H0 : 1 <= Qfloor x).
  { change 1 with (Qfloor 1). now apply Qfloor_resp_le. }
  destruct (_ ?= _)%Q; [destruct (Z.even _)| |]; lia.
Qed.

Lemma ulp_pos x : (0 < ulp x)%Q.
Proof. apply pow2_pos. Qed.

Lemma toDouble_nonneg (x : Q) : (0 <= x)%Q -> (0 <= toDouble x)%Q.
Proof.
  intros H. unfold toDouble. destruct (Qeq_bool x 0); [lra|].
  rewrite Qred_correct.
  pose proof (ulp_pos x) as Hu.
  assert (H1 : (0 <= x / ulp x)%Q).
  { apply Qle_shift_div_l; [exact Hu | lra]. }
  apply roundHalfEven_nonneg in H1.
  assert (H2 : (0 <= inject_Z (roundHalfEven (x / ulp x)))%Q).
  { change 0%Q with (inject_Z 0). now rewrite <- Zle_Qle. }
  nra.
Qed.

Lemma toDouble_error (x : Q) : (Qabs (toDouble x - x) <= ulp x * (1 # 2))%Q.
Proof.
  unfold toDouble. pose proof (ulp_pos x) as Hu.
  destruct (Qeq_bool x 0) eqn:E.
  - apply Qeq_bool_iff in E. apply Qabs_Qle_condition. lra.
  - rewrite Qred_correct.
    pose proof (roundHalfEven_error (x / ulp x)) as H.
    apply Qabs_Qle_condition in H. apply Qabs_Qle_condition.
    set (u := ulp x) in *.
    assert (Ex : (x == x / u * u)%Q) by (field; lra).
    set (y := (x / u)%Q) in *.
    set (k := inject_Z (roundHalfEven y)) in *.
    assert (H1 : (0 <= (k - y + (1 # 2)) * u)%Q)
      by (apply Qmult_le_0_compat; lra).
    assert (H2 : (0 <= ((1 # 2) - (k - y)) * u)%Q)
      by (apply Qmult_le_0_compat; lra).
    lra.
Qed.

Lemma ulp_le (x : Q) : (pow2 (-1074) <= x)%Q -> (ulp x <= x)%Q.
Proof.
  intros H. assert (Hx : (0 < x)%Q) by (pose proof (pow2_pos (-1074)); lra).
  destruct (exponent_spec x Hx) as [H1 _]. unfold ulp.
  destruct (Z.max_spec (exponent x) (-1022)) as [[_ ->] | [_ ->]].
  - exact H.
  - eapply Qle_trans; [|exact H1]. apply pow2_le. lia.
Qed.

Lemma toDouble_pos (x : Q) : (pow2 (-1074) <= x)%Q -> (0 < toDouble x)%Q.
Proof.
  intros H. pose proof (ulp_le x H) as Hle. pose proof (ulp_pos x) as Hu.
  assert (Hx : (0 < x)%Q) by (pose proof (pow2_pos (-1074)); lra).
  unfold toDouble. destruct (Qeq_bool x 0) eqn:E.
  - apply Qeq_bool_iff in E. lra.
  - rewrite Qred_correct.
    assert (H1 : (1 <= x / ulp x)%Q).
    { apply Qle_shift_div_l; [exact Hu | lra]. }
    apply roundHalfEven_pos in H1.
    assert (H2 : (0 < inject_Z (roundHalfEven (x / ulp x)))%Q).
    { change 0%Q with (inject_Z 0). now rewrite <- Zlt_Qlt. }
    nra.
Qed.

Lemma ulp_relative (x : Q) :
  (pow2 (-1022) <= x)%Q -> (ulp x <= x * pow2 (-52))%Q.
Proof.
  intros H. assert (Hx : (0 < x)%Q) by (pose proof (pow2_pos (-1022)); lra).
  destruct (exponent_spec x Hx) as [H1 H2]. unfold ulp.
  assert (He : -1022 <= exponent x).
  { destruct (Z.le_gt_cases (-1022) (exponent x)) as [|Hlt]; [assumption|].
    assert (pow2 (exponent x + 1) <= pow2 (-1022))%Q by (apply pow2_le; lia).
    lra. }
  rewrite Z.max_l by lia.
  replace (exponent x - 52) with (exponent x + -52) by lia.
  rewrite pow2_add. pose proof (pow2_pos (-52)). nra.
Qed.

Example toDouble_tenth :
  toDouble (1 # 10) = (3602879701896397 # 36028797018963968)%Q.
Proof. vm_compute. reflexivity. Qed.

Example toDouble_sum :
  (toDouble (3 # 10) < toDouble (toDouble (1 # 10) + toDouble (2 # 10)))%Q.
Proof. vm_compute. reflexivity. Qed.

(** ** The handlers in closed form *)

Local Open Scope handler_scope.

Lemma log_nil w : log [] w = w.
Proof.
  destruct w as [u r [ss ps sc n cs]]. unfold log, with_host, set_calls.
  cbn. now rewrite app_nil_r.
Qed.

Lemma log_log a b w : log b (log a w) = log (a ++ b) w.
Proof.
  destruct w as [u r [ss ps sc n cs]]. unfold log, with_host, set_calls.
  cbn. now rewrite app_assoc.
Qed.

Lemma forEach_call {A : Type} (f : A -> Call) (l : list A) (w : World) :
  forEach l (fun a => call (f a)) w = (Normal tt, log (map f l) w).
Proof.
  revert w. induction l as [|a l IH]; intros w; cbn [forEach map].
  - now rewrite log_nil.
  - unfold bind at 1. unfold call at 1, modify. fold (log [f a] w).
    now rewrite IH, log_log.
Qed.

Lemma bind_normal {A B : Type} (c : M A) (k : A -> M B) w a w' :
  c w = (Normal a, w') -> bind c k w = k a w'.
Proof. intros H. unfold bind. now rewrite H. Qed.

Lemma whenSome_call {A : Type} (f : A -> Call) (o : option A) (w : World) :
  whenSome o (fun a => call (f a)) w = (Normal tt, log (optCall f o) w).
Proof. destruct o; cbn; [reflexivity | now rewrite log_nil]. Qed.

Lemma whenSome_then (p : option nat) (r : Reaction) (w : World) :
  whenSome p (fun sid => then_ sid r) w = (Normal tt, queue p r w).
Proof. destruct p; reflexivity. Qed.

(** One statement of a handler at a time. *)
Ltac advance :=
  erewrite bind_normal
    by (first [ apply whenSome_call | apply whenSome_then
              | apply forEach_call | reflexivity ]).

(** Worlds built from the same parts are equal. *)
Ltac unfold_world :=
  cbv [log queue with_ui with_refs with_host
       set_isSessionActive set_error set_transcripts set_currentInput
       set_currentOutput set_sessionPromiseRef set_mediaStreamRef
       set_inputAudioContextRef set_outputAudioContextRef
       set_scriptProcessorRef set_mediaStreamSourceRef set_nextStartTimeRef
       set_sourcesRef set_sessions set_processors set_startCalls set_nextId
       set_calls
       ui refs host isSessionActive error transcripts currentInput
       currentOutput sessionPromiseRef mediaStreamRef inputAudioContextRef
       outputAudioContextRef scriptProcessorRef mediaStreamSourceRef
       nextStartTimeRef sourcesRef sessions processors startCalls nextId
       calls].

Lemma stopSession_eq w : stopSession w = (Normal tt, stopped w).
Proof.
  unfold stopSession. repeat advance.
  destruct w as [u [p s i o sp ms t srcs] [ss ps sc n cs]].
  unfold stopped, teardownCalls, releasedRefs, setIsSessionActive, modify.
  f_equal. destruct p; unfold_world; rewrite <- ?app_assoc; reflexivity.
Qed.

Lemma bind_assoc {A B C : Type} (c : M A) (k1 : A -> M B) (k2 : B -> M C) w :
  bind (bind c k1) k2 w = bind c (fun a => bind (k1 a) k2) w.
Proof. unfold bind. destruct (c w) as [[a|e] w']; reflexivity. Qed.

Ltac advance_all := repeat (rewrite ?bind_assoc; advance).

Lemma flushed_eq (w : World) :
  (sources <- current sourcesRef ;;
   forEach sources (fun s => call (SourceStop s)) ;;
   assign set_sourcesRef [] ;;
   assign set_nextStartTimeRef 0%Q) w
  = (Normal tt, flushed w).
Proof.
  advance_all. unfold assign, modify, flushed. f_equal.
Qed.

Lemma transcribed_eq (s : Session) (m : LiveServerMessage) (w : World) :
  (whenSome (inputTranscription m) (fun text =>
     setCurrentInput (fun prev => prev ++ text)%string) ;;
   whenSome (outputTranscription m) (fun text =>
     setCurrentOutput (fun prev => prev ++ text)%string) ;;
   when (turnComplete m)
     (setTranscripts (fun prev =>
        prev ++ [{| user := capturedInput s; model := capturedOutput s |}]) ;;
      setCurrentInput (fun _ => EmptyString) ;;
      setCurrentOutput (fun _ => EmptyString))) w
  = (Normal tt, transcribed s m w).
Proof.
  destruct m as [a i [ti|] [to|] [|]], w as [[ac e ts ci co] r h]; reflexivity.
Qed.

(** A message whose audio cannot be read: the handler throws at its
    first statement. *)
Lemma onmessage_malformed (s : Session) (now : Q) (m : LiveServerMessage) w :
  malformed m = true ->
  onmessage s now m w
  = (Throw "TypeError: Cannot read properties of undefined", w).
Proof.
  unfold malformed, onmessage. destruct (readAudioData m); [discriminate|].
  reflexivity.
Qed.

Lemma truthy_readable (m : LiveServerMessage) :
  truthy (audioChunk m) = true -> readAudioData m = Some (audioChunk m).
Proof.
  unfold audioChunk. destruct (readAudioData m); [reflexivity | discriminate].
Qed.

Lemma malformed_readable (m : LiveServerMessage) :
  malformed m = false -> readAudioData m = Some (audioChunk m).
Proof.
  unfold malformed, audioChunk.
  destruct (readAudioData m); [reflexivity | discriminate].
Qed.

Lemma truthy_malformed (m : LiveServerMessage) :
  truthy (audioChunk m) = true -> malformed m = false.
Proof.
  unfold audioChunk, malformed.
  destruct (readAudioData m); [reflexivity | discriminate].
Qed.

(** Past its first statement the handler goes on with the audio read. *)
Ltac read_audio H :=
  unfold onmessage; rewrite H; unfold orThrow at 1;
  erewrite bind_normal by reflexivity.

Lemma onmessage_silent (s : Session) (now : Q) (m : LiveServerMessage) w :
  malformed m = false ->
  truthy (audioChunk m) = false ->
  onmessage s now m w
  = (Normal tt, transcribed s m (flushedIf (interrupted m) w)).
Proof.
  intros Hm Ha. read_audio (malformed_readable m Hm). rewrite Ha. cbn [when].
  advance. destruct (interrupted m); cbn [when flushedIf].
  - erewrite bind_normal by apply flushed_eq. apply transcribed_eq.
  - advance. apply transcribed_eq.
Qed.

Lemma onmessage_no_context (s : Session) (now : Q) (m : LiveServerMessage) w :
  truthy (audioChunk m) = true ->
  outputAudioContextRef (refs w) = None ->
  exists e, onmessage s now m w = (Throw e, w).
Proof.
  intros Ha Hc. read_audio (truthy_readable m Ha). rewrite Ha. cbn [when].
  eexists. rewrite bind_assoc. advance.
  rewrite Hc. reflexivity.
Qed.

Lemma audioLength_truthy (m : LiveServerMessage) d :
  audioLength m = Some d -> truthy (audioChunk m) = true.
Proof.
  unfold audioLength, truthy. destruct (audioChunk m) as [[|c r]|]; try discriminate.
  reflexivity.
Qed.

Lemma onmessage_audio (s : Session) (now : Q) (m : LiveServerMessage) w c d :
  outputAudioContextRef (refs w) = Some c ->
  audioLength m = Some d ->
  onmessage s now m w
  = (Normal tt,
     transcribed s m (flushedIf (interrupted m) (scheduledAt now d w))).
Proof.
  intros Hc Hd.
  read_audio (truthy_readable m (audioLength_truthy m d Hd)).
  rewrite (audioLength_truthy m d Hd). cbn [when].
  unfold audioLength in Hd.
  destruct (audioChunk m) as [[|c0 r]|]; try discriminate.
  destruct (decode (c0 :: r)) as [bytes|] eqn:E1; try discriminate.
  destruct (decodeAudioData bytes 24000 1) as [buffer|] eqn:E2; try discriminate.
  injection Hd as <-.
  rewrite bind_assoc. advance. rewrite Hc.
  advance_all. rewrite E2. advance_all.
  replace (with_refs _ _) with (scheduledAt now (duration buffer) w).
  2:{ destruct w as [u [p st i o sp ms t srcs] [ss ps sc n cs]]. reflexivity. }
  destruct (interrupted m); cbn [when flushedIf].
  - erewrite bind_normal by apply flushed_eq. apply transcribed_eq.
  - advance. apply transcribed_eq.
Qed.

Lemma onmessage_undecodable (s : Session) (now : Q) (m : LiveServerMessage) w c :
  truthy (audioChunk m) = true ->
  outputAudioContextRef (refs w) = Some c ->
  audioLength m = None ->
  exists e,
    onmessage s now m w
    = (Throw e,
       with_refs (set_nextStartTimeRef (Qmax (nextStartTimeRef (refs w)) now)) w).
Proof.
  intros Ha Hc Hd. read_audio (truthy_readable m Ha). rewrite Ha. cbn [when].
  unfold audioLength, truthy in *.
  destruct (audioChunk m) as [[|c0 r]|]; try discriminate.
  rewrite bind_assoc. advance. rewrite Hc. advance_all.
  destruct (decode (c0 :: r)) as [bytes|] eqn:E1.
  - advance_all.
    destruct (decodeAudioData bytes 24000 1) as [buffer|] eqn:E2;
      try discriminate.
    eexists. reflexivity.
  - eexists. reflexivity.
Qed.

(** ** Playback scheduling *)

Lemma scheduled_app a b : scheduled (a ++ b) = scheduled a ++ scheduled b.
Proof.
  induction a as [|c a IH]; [reflexivity|].
  destruct c; cbn [app scheduled]; rewrite ?IH; reflexivity.
Qed.

Lemma audioLength_silent (m : LiveServerMessage) :
  truthy (audioChunk m) = false -> audioLength m = None.
Proof.
  unfold truthy, audioLength. destruct (audioChunk m) as [[|c r]|];
    [reflexivity | discriminate | reflexivity].
Qed.

Lemma schedule_adjacent arr :
  forall t k s1 d1 s2 d2,
    nth_error (schedule t arr) k = Some (s1, d1) ->
    nth_error (schedule t arr) (S k) = Some (s2, d2) ->
    exists now2, nth_error arr (S k) = Some (now2, d2)
                 /\ s2 = Qmax (toDouble (s1 + d1)) now2.
Proof.
  induction arr as [|[now d] arr IH]; intros t k s1 d1 s2 d2 H1 H2.
  - destruct k; discriminate.
  - destruct k as [|k].
    + cbn in H1. injection H1 as <- <-.
      destruct arr as [|[now2 d2'] arr]; [discriminate|].
      cbn in H2. injection H2 as <- <-. exists now2. split; reflexivity.
    + cbn [schedule nth_error] in H1, H2.
      destruct (IH _ _ _ _ _ _ H1 H2) as [now2 [E ->]].
      exists now2. split; [exact E | reflexivity].
Qed.

Lemma handle_playable (s : Session) (now : Q) (m : LiveServerMessage) w :
  outputAudioContextRef (refs w) <> None ->
  playable (s, now, m) ->
  let w' := exec (onmessage s now m) w in
  let arr := arrivals [(s, now, m)] in
  outputAudioContextRef (refs w') = outputAudioContextRef (refs w) /\
  calls (host w')
  = calls (host w)
    ++ match audioLength m with
       | Some d =>
           [SourceStart (nextId (host w))
              (Qmax (nextStartTimeRef (refs w)) now) d]
       | None => []
       end /\
  nextStartTimeRef (refs w') = nextAfter (nextStartTimeRef (refs w)) arr.
Proof.
  intros Hc [Hi [Hm Ha]]. unfold exec, arrivals. cbn [flat_map].
  destruct (outputAudioContextRef (refs w)) as [c|] eqn:Ec; [|congruence].
  destruct (truthy (audioChunk m)) eqn:Et.
  - destruct (audioLength m) as [d|] eqn:Ed; [|now destruct Ha].
    rewrite (onmessage_audio s now m w c d Ec Ed), Hi.
    destruct w as [u [p st i o sp ms t srcs] [ss ps sc n cs]].
    cbn in Ec. subst o. repeat split.
  - rewrite (onmessage_silent s now m w Hm Et), Hi.
    rewrite (audioLength_silent m Et).
    destruct w as [u [p st i o sp ms t srcs] [ss ps sc n cs]].
    cbn in Ec. subst o. cbn. rewrite app_nil_r. repeat split.
Qed.

Lemma handleMessages_schedule l :
  forall w,
    outputAudioContextRef (refs w) <> None ->
    Forall playable l ->
    scheduled (calls (host (handleMessages l w)))
    = scheduled (calls (host w))
      ++ schedule (nextStartTimeRef (refs w)) (arrivals l) /\
    nextStartTimeRef (refs (handleMessages l w))
    = nextAfter (nextStartTimeRef (refs w)) (arrivals l).
Proof.
  induction l as [|[[s now] m] l IH]; intros w Hc Hl.
  - cbn. now rewrite app_nil_r.
  - inversion Hl as [|? ? Hp Hl']; subst.
    destruct (handle_playable s now m w Hc Hp) as [Ec [Ecalls Enext]].
    cbn [handleMessages fold_left].
    fold (handleMessages l (exec (onmessage s now m) w)).
    destruct (IH (exec (onmessage s now m) w)) as [IH1 IH2];
      [now rewrite Ec | assumption |].
    rewrite IH1, IH2, Ecalls, Enext, scheduled_app.
    unfold arrivals. cbn [flat_map].
    destruct (audioLength m) as [d|]; cbn [app scheduled schedule nextAfter].
    + rewrite <- app_assoc. split; reflexivity.
    + rewrite app_nil_r. split; reflexivity.
Qed.

(** C2, as the code has it.  Messages whose audio can be read and
    decodes, or that have none, and that do not interrupt, handled in their
    order of arrival while the output context is there, start their buffers
    according to the schedule: each at [max(nextStartTime, currentTime)],
    leaving [nextStartTime] at the binary64 sum of that start and the
    duration of the buffer.  Hence a buffer never starts before the rounded
    end of the one before it, and starts exactly at that rounded end when
    it arrived no later than it.  The rounded end is within half a unit in
    the last place of the exact end, a relative 2^-53 of it when it is a
    normal number, and may lie below it. *)
Theorem gapless_playback (l : list (Session * Q * LiveServerMessage)) (w : World) :
  outputAudioContextRef (refs w) <> None ->
  Forall playable l ->
  let plan := schedule (nextStartTimeRef (refs w)) (arrivals l) in
  scheduled (calls (host (handleMessages l w)))
  = scheduled (calls (host w)) ++ plan /\
  nextStartTimeRef (refs (handleMessages l w))
  = nextAfter (nextStartTimeRef (refs w)) (arrivals l) /\
  forall k s1 d1 s2 d2,
    nth_error plan k = Some (s1, d1) ->
    nth_error plan (S k) = Some (s2, d2) ->
    (toDouble (s1 + d1) <= s2)%Q /\
    (s1 + d1 - ulp (s1 + d1) * (1 # 2) <= s2)%Q /\
    ((pow2 (-1022) <= s1 + d1)%Q ->
     (s1 + d1 - (s1 + d1) * (1 # 9007199254740992) <= s2)%Q) /\
    forall now2 d,
      nth_error (arrivals l) (S k) = Some (now2, d) ->
      (now2 <= toDouble (s1 + d1))%Q -> (s2 == toDouble (s1 + d1))%Q.
Proof.
  intros Hc Hl plan.
  destruct (handleMessages_schedule l w Hc Hl) as [H1 H2].
  split; [exact H1|]. split; [exact H2|].
  intros k s1 d1 s2 d2 Hk HSk.
  destruct (schedule_adjacent _ _ _ _ _ _ _ Hk HSk) as [now2 [E ->]].
  pose proof (Q.le_max_l (toDouble (s1 + d1)) now2) as Hmax.
  pose proof (toDouble_error (s1 + d1)) as Herr.
  apply Qabs_Qle_condition in Herr.
  split; [exact Hmax|]. split; [lra|]. split.
  - intros Hn. pose proof (ulp_relative (s1 + d1) Hn) as Hu.
    assert (E53 : (pow2 (-52) * (1 # 2) == 1 # 9007199254740992)%Q)
      by reflexivity.
    assert (Hh : ((s1 + d1) * pow2 (-52) * (1 # 2)
                  == (s1 + d1) * (1 # 9007199254740992))%Q)
      by (rewrite <- E53; ring).
    lra.
  - intros now2' d E' Hle. rewrite E in E'. injection E' as <- <-.
    now apply Q.max_l.
Qed.

Example openWorld_refs :
  refs openWorld
  = {| sessionPromiseRef := Some 0%nat; mediaStreamRef := Some 0%nat;
       inputAudioContextRef := Some 1%nat; outputAudioContextRef := Some 2%nat;
       scriptProcessorRef := Some 4%nat; mediaStreamSourceRef := Some 3%nat;
       nextStartTimeRef := 0; sourcesRef := [] |}.
Proof. reflexivity. Qed.

Example openWorld_session :
  sessions (host openWorld) = [firstSession]
  /\ isSessionActive (ui openWorld) = true.
Proof. split; reflexivity. Qed.

Lemma gapless_playback_witness :
  outputAudioContextRef (refs openWorld) <> None /\
  Forall playable
    [(firstSession, 1, audioMessage (js "AAAAAA=="));
     (firstSession, 1, inputMessage "Hel");
     (firstSession, 3, audioMessage (js "AAA="))]%Q /\
  scheduled
    (calls (host (handleMessages
                    [(firstSession, 1, audioMessage (js "AAAAAA=="));
                     (firstSession, 1, inputMessage "Hel");
                     (firstSession, 3, audioMessage (js "AAA="))]%Q
                    openWorld)))
  = scheduled (calls (host openWorld))
    ++ schedule (nextStartTimeRef (refs openWorld))
         (arrivals
            [(firstSession, 1, audioMessage (js "AAAAAA=="));
             (firstSession, 1, inputMessage "Hel");
             (firstSession, 3, audioMessage (js "AAA="))]%Q).
Proof.
  assert (H1 : outputAudioContextRef (refs openWorld) <> None)
    by discriminate.
  assert (H2 : Forall playable
    [(firstSession, 1, audioMessage (js "AAAAAA=="));
     (firstSession, 1, inputMessage "Hel");
     (firstSession, 3, audioMessage (js "AAA="))]%Q).
  { repeat constructor; try discriminate. }
  split; [exact H1|]. split; [exact H2|].
  exact (proj1 (gapless_playback _ _ H1 H2)).
Defined.

(** C2, as stated, fails by a rounding error: of two buffers of three
    samples that arrive at clock time 1, the second is started at the
    binary64 sum of 1 and the duration of the first, which is below the
    exact sum; it starts before the exact end of the first. *)
Lemma rounded_end_before_exact_end :
  Forall playable
    [(firstSession, 1, audioMessage (js "AAAAAAAA"));
     (firstSession, 1, audioMessage (js "AAAAAAAA"))]%Q /\
  exists s1 d1 s2 d2,
    scheduled
      (calls (host (handleMessages
                      [(firstSession, 1, audioMessage (js "AAAAAAAA"));
                       (firstSession, 1, audioMessage (js "AAAAAAAA"))]%Q
                      openWorld)))
    = [(s1, d1); (s2, d2)] /\
    d1 = toDouble (3 / 24000) /\
    (s1 == 1)%Q /\
    (s2 < s1 + d1)%Q.
Proof.
  split; [repeat constructor; discriminate|].
  vm_compute. do 4 eexists. split; [reflexivity|].
  split; [reflexivity|]. split; reflexivity.
Qed.

Example two_buffers :
  scheduled
    (calls (host (handleMessages
                    [(firstSession, 1, audioMessage (js "AAAAAA=="));
                     (firstSession, 1, audioMessage (js "AAA="))]%Q
                    openWorld)))
  = [(Qmax 0 1, toDouble (2 / 24000));
     (Qmax (toDouble (Qmax 0 1 + toDouble (2 / 24000))) 1,
      toDouble (1 / 24000))]%Q.
Proof. vm_compute. reflexivity. Qed.

(** ** The other handlers in closed form *)

Lemma startSession_eq w : startSession w = (Normal tt, started w).
Proof. destruct w as [[a e ts ci co] r h]. reflexivity. Qed.

Lemma startSessionResumed_eq c o w :
  startSessionResumed c o w = (Normal tt, resumed c o w).
Proof.
  destruct w as [[a e ts ci co] [p st i oc sp ms t srcs] [ss ps sc n cs]].
  destruct o; reflexivity.
Qed.

Lemma onopen_eq s w :
  onopen s w
  = match inputAudioContextRef (refs w) with
    | Some _ => (Normal tt, wired w)
    | None => (Throw "TypeError: Cannot read properties of null", w)
    end.
Proof.
  destruct w as [u [p st i oc sp ms t srcs] [ss ps sc n cs]].
  destruct i; reflexivity.
Qed.

Lemma onaudioprocess_eq inputData w :
  exists pcmBlob,
    createBlob inputData = Some pcmBlob /\
    onaudioprocess inputData w
    = (Normal tt,
       queue (sessionPromiseRef (refs w)) (SendRealtimeInput pcmBlob) w).
Proof.
  eexists. split; [apply createBlob_total|].
  unfold onaudioprocess. rewrite createBlob_total.
  advance. advance. apply whenSome_then.
Qed.

Lemma onended_eq source w :
  onended source w
  = (Normal tt,
     with_refs (fun r => set_sourcesRef (setDelete source (sourcesRef r)) r) w).
Proof. reflexivity. Qed.

Lemma onerror_eq message w :
  onerror message w
  = (Normal tt,
     stopped (with_ui (set_error (Some ("Session error: " ++ message)%string)) w)).
Proof. unfold onerror. advance. apply stopSession_eq. Qed.

Lemma onClick_eq w :
  onClick w
  = (Normal tt, if isSessionActive (ui w) then stopped w else started w).
Proof.
  unfold onClick. advance.
  destruct (isSessionActive (ui w)); [apply stopSession_eq | apply startSession_eq].
Qed.

(** ** Stopping *)

Lemma stopped_initial : stopped initial = initial.
Proof. reflexivity. Qed.

Lemma stopped_stopped w : stopped (stopped w) = stopped w.
Proof.
  destruct w as [[a e ts ci co] [p st i oc sp ms t srcs] [ss ps sc n cs]].
  unfold stopped, teardownCalls, releasedRefs. unfold_world.
  cbn [optCall map app]. now rewrite !app_nil_r.
Qed.

Lemma stopped_released w :
  refs w = releasedRefs -> isSessionActive (ui w) = false -> stopped w = w.
Proof.
  destruct w as [[a e ts ci co] r [ss ps sc n cs]]. cbn. intros -> ->.
  unfold stopped, teardownCalls. unfold_world. cbn. now rewrite app_nil_r.
Qed.

(** C6. [stopSession] never throws.  It releases what the refs hold: it
    stops the tracks of the stream, disconnects the script processor and
    the stream source, closes both audio contexts, stops every tracked
    buffer source and chains a [close] on the session promise, each only if
    it is there, and makes no other call; it leaves every ref null, no
    source tracked, [nextStartTime] at zero and the session inactive, the
    rest of the page as it was.  Before any start, and whenever nothing is
    held, it changes nothing at all; a second stop in a row changes nothing
    the first one left. *)
Theorem stopSession_idempotent :
  (forall w,
      stopSession w = (Normal tt, exec stopSession w) /\
      ui (exec stopSession w) = set_isSessionActive false (ui w) /\
      refs (exec stopSession w)
      = {| sessionPromiseRef := None; mediaStreamRef := None;
           inputAudioContextRef := None; outputAudioContextRef := None;
           scriptProcessorRef := None; mediaStreamSourceRef := None;
           nextStartTimeRef := 0; sourcesRef := [] |} /\
      calls (host (exec stopSession w))
      = calls (host w)
        ++ optCall TrackStop (mediaStreamRef (refs w))
        ++ optCall Disconnect (scriptProcessorRef (refs w))
        ++ optCall Disconnect (mediaStreamSourceRef (refs w))
        ++ optCall ContextClose (inputAudioContextRef (refs w))
        ++ optCall ContextClose (outputAudioContextRef (refs w))
        ++ map SourceStop (sourcesRef (refs w)) /\
      sessions (host (exec stopSession w))
      = match sessionPromiseRef (refs w) with
        | Some sid => updateNth sid (enqueue CloseSession) (sessions (host w))
        | None => sessions (host w)
        end /\
      processors (host (exec stopSession w)) = processors (host w) /\
      startCalls (host (exec stopSession w)) = startCalls (host w)) /\
  stopSession initial = (Normal tt, initial) /\
  (forall w,
      refs w = releasedRefs -> isSessionActive (ui w) = false ->
      stopSession w = (Normal tt, w)) /\
  (forall w,
      stopSession (exec stopSession w) = (Normal tt, exec stopSession w)) /\
  (forall w,
      calls (host (exec stopSession (exec stopSession w)))
      = calls (host (exec stopSession w)) /\
      sessions (host (exec stopSession (exec stopSession w)))
      = sessions (host (exec stopSession w))).
Proof.
  split; [|split; [|split; [|split]]].
  - intros w. unfold exec. rewrite stopSession_eq. cbn [snd].
    split; [reflexivity|].
    destruct w as [u [p st i oc sp ms t srcs] [ss ps sc n cs]].
    destruct p; repeat split.
  - now rewrite stopSession_eq, stopped_initial.
  - intros w Hr Ha. now rewrite stopSession_eq, stopped_released.
  - intros w. unfold exec. rewrite !stopSession_eq. cbn [snd].
    now rewrite stopped_stopped.
  - intros w. unfold exec. rewrite !stopSession_eq. cbn [snd].
    now rewrite stopped_stopped.
Qed.

Lemma stopSession_idempotent_witness :
  stopSession (exec stopSession openWorld)
  = (Normal tt, exec stopSession openWorld) /\
  calls (host (exec stopSession openWorld))
  = [TrackStop 0; Disconnect 4; Disconnect 3; ContextClose 1; ContextClose 2].
Proof.
  destruct stopSession_idempotent as [H1 [_ [H3 _]]].
  split.
  - apply H3; reflexivity.
  - destruct (H1 openWorld) as (_ & _ & _ & -> & _). reflexivity.
Defined.

Example stop_open_world :
  calls (host (exec stopSession openWorld))
  = [TrackStop 0; Disconnect 4; Disconnect 3; ContextClose 1; ContextClose 2]
  /\ map reactions (sessions (host (exec stopSession openWorld)))
     = [[CloseSession]].
Proof. split; reflexivity. Qed.

(** ** Turns *)

Lemma turn_complete_uses_captured (s : Session) (now : Q) (m : LiveServerMessage) w :
  malformed m = false ->
  truthy (audioChunk m) = false ->
  turnComplete m = true ->
  let w' := exec (onmessage s now m) w in
  transcripts (ui w')
  = transcripts (ui w)
    ++ [{| user := capturedInput s; model := capturedOutput s |}] /\
  currentInput (ui w') = EmptyString /\
  currentOutput (ui w') = EmptyString.
Proof.
  intros Hm Ha Ht. unfold exec. rewrite (onmessage_silent s now m w Hm Ha).
  cbn [snd]. unfold transcribed. rewrite Ht.
  destruct w as [[a e ts ci co] r h], (interrupted m); repeat split.
Qed.

(** C5 on the code.  In the first session of a fresh component the partial
    transcripts "Hel" and "lo" of the user do accumulate in [currentInput],
    and the turn-complete signal does append exactly one turn and empty
    both pending texts; but the turn appended holds the [currentInput] and
    [currentOutput] that the handler closed over when the session was
    started, here the empty strings, not the accumulated "Hello". *)
Theorem turn_holds_captured_text :
  let before :=
    run [Click; MediaSettled 0 Connecting; SessionOpen 0; Settled 0 true;
         SessionMessage 0 0 (inputMessage "Hel");
         SessionMessage 0 0 (inputMessage "lo");
         SessionMessage 0 0 (outputMessage "Hi")] initial in
  let after := step before (SessionMessage 0 0 turnCompleteMessage) in
  currentInput (ui before) = "Hello"%string /\
  currentOutput (ui before) = "Hi"%string /\
  transcripts (ui before) = [] /\
  transcripts (ui after) = [{| user := EmptyString; model := EmptyString |}] /\
  currentInput (ui after) = EmptyString /\
  currentOutput (ui after) = EmptyString.
Proof. repeat split. Qed.

(** ** Starting *)

Lemma sessions_queue p r w :
  sessions (host (queue p r w)) = queueOn p r (sessions (host w)).
Proof. destruct w as [u rf [ss ps sc n cs]], p; reflexivity. Qed.

Lemma queue_frame p r w :
  ui (queue p r w) = ui w /\
  refs (queue p r w) = refs w /\
  processors (host (queue p r w)) = processors (host w) /\
  startCalls (host (queue p r w)) = startCalls (host w) /\
  nextId (host (queue p r w)) = nextId (host w) /\
  calls (host (queue p r w)) = calls (host w).
Proof. destruct w as [u rf [ss ps sc n cs]], p; repeat split. Qed.

(** ** Interruption *)

Lemma onmessage_cases (s : Session) (now : Q) (m : LiveServerMessage) w :
  let w' := exec (onmessage s now m) w in
  (malformed m = false /\ truthy (audioChunk m) = false /\
   w' = transcribed s m (flushedIf (interrupted m) w)) \/
  ((malformed m = true
    \/ (truthy (audioChunk m) = true /\ outputAudioContextRef (refs w) = None))
   /\ w' = w) \/
  (truthy (audioChunk m) = true /\ audioLength m = None /\
   outputAudioContextRef (refs w) <> None /\
   w' = with_refs
          (set_nextStartTimeRef (Qmax (nextStartTimeRef (refs w)) now)) w) \/
  (exists d,
      audioLength m = Some d /\
      outputAudioContextRef (refs w) <> None /\
      w' = transcribed s m (flushedIf (interrupted m) (scheduledAt now d w))).
Proof.
  unfold exec. destruct (malformed m) eqn:Em.
  { right. left. rewrite (onmessage_malformed s now m w Em).
    split; [now left | reflexivity]. }
  destruct (truthy (audioChunk m)) eqn:Et.
  - destruct (outputAudioContextRef (refs w)) as [c|] eqn:Ec.
    + destruct (audioLength m) as [d|] eqn:Ed.
      * right. right. right. exists d. rewrite (onmessage_audio _ _ _ _ _ _ Ec Ed).
        repeat split. discriminate.
      * right. right. left.
        destruct (onmessage_undecodable s now m w c Et Ec Ed) as [e ->].
        repeat split. discriminate.
    + right. left. destruct (onmessage_no_context s now m w Et Ec) as [e ->].
      split; [right; now split | reflexivity].
  - left. rewrite (onmessage_silent _ _ _ _ Em Et). repeat split.
Qed.

Lemma flushedIf_capture b w :
  captureRefs (refs (flushedIf b w)) = captureRefs (refs w) /\
  outputAudioContextRef (refs (flushedIf b w)) = outputAudioContextRef (refs w) /\
  ui (flushedIf b w) = ui w /\
  sessions (host (flushedIf b w)) = sessions (host w) /\
  processors (host (flushedIf b w)) = processors (host w) /\
  startCalls (host (flushedIf b w)) = startCalls (host w) /\
  nextId (host (flushedIf b w)) = nextId (host w) /\
  calls (host (flushedIf b w))
  = calls (host w) ++ (if b then map SourceStop (sourcesRef (refs w)) else []).
Proof.
  destruct w as [u [p st i oc sp ms t srcs] [ss ps sc n cs]], b; cbn;
    rewrite ?app_nil_r; repeat split.
Qed.

Lemma scheduledAt_capture now d w :
  captureRefs (refs (scheduledAt now d w)) = captureRefs (refs w) /\
  outputAudioContextRef (refs (scheduledAt now d w))
  = outputAudioContextRef (refs w) /\
  ui (scheduledAt now d w) = ui w /\
  sessions (host (scheduledAt now d w)) = sessions (host w) /\
  processors (host (scheduledAt now d w)) = processors (host w) /\
  startCalls (host (scheduledAt now d w)) = startCalls (host w) /\
  calls (host (scheduledAt now d w))
  = calls (host w)
    ++ [SourceStart (nextId (host w)) (Qmax (nextStartTimeRef (refs w)) now) d].
Proof.
  destruct w as [u [p st i oc sp ms t srcs] [ss ps sc n cs]]. repeat split.
Qed.

Lemma transcribed_frame s m w :
  refs (transcribed s m w) = refs w /\ host (transcribed s m w) = host w.
Proof. destruct w as [u r h]. split; reflexivity. Qed.

Lemma Forall_map_SourceStop l : Forall isPlaybackCall (map SourceStop l).
Proof. induction l; constructor; cbn; auto. Qed.

(** What [onmessage] leaves alone, whatever the message. *)
Lemma onmessage_frame (s : Session) (now : Q) (m : LiveServerMessage) w :
  let w' := exec (onmessage s now m) w in
  captureRefs (refs w') = captureRefs (refs w) /\
  outputAudioContextRef (refs w') = outputAudioContextRef (refs w) /\
  sessions (host w') = sessions (host w) /\
  processors (host w') = processors (host w) /\
  startCalls (host w') = startCalls (host w) /\
  exists new,
    calls (host w') = calls (host w) ++ new /\ Forall isPlaybackCall new.
Proof.
  destruct (onmessage_cases s now m w)
    as [[_ [_ E]] | [[_ E] | [[_ [_ [_ E]]] | [d [_ [_ E]]]]]];
    cbv zeta; rewrite E; clear E.
  - destruct (transcribed_frame s m (flushedIf (interrupted m) w)) as [-> ->].
    destruct (flushedIf_capture (interrupted m) w)
      as [-> [-> [_ [-> [-> [-> [_ ->]]]]]]].
    repeat split. eexists. split; [reflexivity|].
    destruct (interrupted m); [apply Forall_map_SourceStop | constructor].
  - repeat split. exists []. split; [now rewrite app_nil_r | constructor].
  - destruct w as [u [p st i oc sp ms t srcs] [ss ps sc n cs]].
    repeat split. exists []. split; [cbn; now rewrite app_nil_r | constructor].
  - destruct (transcribed_frame s m
                (flushedIf (interrupted m) (scheduledAt now d w))) as [-> ->].
    destruct (flushedIf_capture (interrupted m) (scheduledAt now d w))
      as [-> [-> [_ [-> [-> [-> [_ ->]]]]]]].
    destruct (scheduledAt_capture now d w) as [-> [-> [_ [-> [-> [-> ->]]]]]].
    repeat split. eexists. rewrite <- app_assoc. split; [reflexivity|].
    apply Forall_app. split; [repeat constructor|].
    destruct (interrupted m); [apply Forall_map_SourceStop | constructor].
Qed.

(** C9. Handling a message, interrupting or not, leaves the capture side
    as it was: the session promise, the media stream, the input context,
    the stream source and the script processor stay in their refs, the
    sessions and their queues and the script processors are the same, and
    the only host calls made start or stop buffer sources.  A message that
    only interrupts changes nothing but the set of tracked sources, which
    it empties after stopping each, and [nextStartTime], which it resets.
    A frame captured afterwards is queued for sending as it would have been
    without the interruption. *)
Theorem interrupt_leaves_capture (s : Session) (now : Q) (m : LiveServerMessage)
    (w : World) :
  let w' := exec (onmessage s now m) w in
  (captureRefs (refs w') = captureRefs (refs w) /\
   sessions (host w') = sessions (host w) /\
   processors (host w') = processors (host w) /\
   exists new,
     calls (host w') = calls (host w) ++ new /\ Forall isPlaybackCall new) /\
  (forall p inputData,
      sessions (host (step w' (AudioProcess p inputData)))
      = sessions (host (step w (AudioProcess p inputData)))) /\
  (exec (onmessage s now interruptMessage) w
   = with_refs (fun r => set_nextStartTimeRef 0%Q (set_sourcesRef [] r))
       (log (map SourceStop (sourcesRef (refs w))) w)).
Proof.
  cbv zeta.
  destruct (onmessage_frame s now m w) as [Hr [_ [Hs [Hp [_ Hc]]]]].
  split; [repeat split; assumption|]. split.
  - intros p inputData. set (w' := exec (onmessage s now m) w) in *.
    unfold step. rewrite Hp.
    destruct (existsb (Nat.eqb p) (processors (host w))); [|exact Hs].
    destruct (onaudioprocess_eq inputData w) as [b [Eb E1]].
    destruct (onaudioprocess_eq inputData w') as [b' [Eb' E2]].
    rewrite Eb in Eb'. injection Eb' as <-.
    unfold exec at 1 2. rewrite E1, E2. cbn [snd].
    rewrite !sessions_queue, Hs.
    unfold captureRefs in Hr. now injection Hr as -> _ _ _ _.
  - unfold exec. rewrite onmessage_silent by reflexivity.
    destruct w as [[a e ts ci co] r h]. reflexivity.
Qed.

Example interrupt_open_world :
  let playing :=
    handleMessages [(firstSession, 1, audioMessage (js "AAAAAA=="))]%Q
      openWorld in
  let w' := exec (onmessage firstSession 1 interruptMessage) playing in
  sourcesRef (refs playing) = [5%nat] /\
  sourcesRef (refs w') = [] /\
  nextStartTimeRef (refs w') = 0%Q /\
  calls (host w') = calls (host playing) ++ [SourceStop 5] /\
  captureRefs (refs w') = captureRefs (refs openWorld).
Proof. vm_compute. repeat split. Qed.

Lemma job_eq sid throws w : exec (job sid throws) w = jobDone sid throws w.
Proof.
  unfold exec, job, jobDone. advance.
  destruct (nth_error (sessions (host w)) sid) as [s|]; [|reflexivity].
  destruct (promise s); try reflexivity.
  destruct (reactions s) as [|r rest]; [reflexivity|].
  advance. destruct throws.
  - cbn [snd ret]. now rewrite log_nil.
  - destruct r; reflexivity.
Qed.

Lemma jobDone_frame sid throws w :
  ui (jobDone sid throws w) = ui w /\
  refs (jobDone sid throws w) = refs w /\
  processors (host (jobDone sid throws w)) = processors (host w) /\
  startCalls (host (jobDone sid throws w)) = startCalls (host w).
Proof.
  unfold jobDone.
  destruct (nth_error (sessions (host w)) sid) as [s|]; [|repeat split].
  destruct (promise s), (reactions s) as [|r rest]; repeat split.
Qed.

Lemma resumed_eq k c o w :
  exec (markResumed k ;; startSessionResumed c o) w = resumed c o (marked k w).
Proof.
  unfold exec. advance. now rewrite startSessionResumed_eq.
Qed.

Lemma run_snoc evs e w : run (evs ++ [e]) w = step (run evs w) e.
Proof. unfold run. now rewrite fold_left_app. Qed.

Lemma step_playbackCleared w e :
  playbackCleared w -> playbackCleared (step w e).
Proof.
  intros Hw. unfold playbackCleared in *.
  destruct e as [| |k o|sid|sid now m|sid msg|sid|sid ok|sid throws|p d|n];
    unfold step, withSession.
  - unfold exec. rewrite onClick_eq. cbn [snd].
    destruct (isSessionActive (ui w)); [split; reflexivity | exact Hw].
  - unfold exec, cleanup. rewrite stopSession_eq. split; reflexivity.
  - destruct (nth_error (startCalls (host w)) k) as [c|]; [|exact Hw].
    destruct (awaiting c); [|exact Hw].
    rewrite resumed_eq. destruct o; try discriminate. exact Hw.
  - destruct (nth_error (sessions (host w)) sid) as [s|]; [|exact Hw].
    unfold exec. rewrite onopen_eq.
    destruct (inputAudioContextRef (refs w)); exact Hw.
  - destruct (nth_error (sessions (host w)) sid) as [s|]; [|exact Hw].
    destruct (onmessage_cases s now m w)
      as [[_ [_ E]] | [[_ E] | [[_ [_ [Hc E]]] | [d [_ [Hc E]]]]]];
      cbv zeta in E; rewrite E; clear E.
    + destruct (transcribed_frame s m (flushedIf (interrupted m) w)) as [-> _].
      destruct (interrupted m); [split; reflexivity | exact Hw].
    + exact Hw.
    + intros H. now destruct Hc.
    + destruct (transcribed_frame s m
                  (flushedIf (interrupted m) (scheduledAt now d w))) as [-> _].
      destruct (interrupted m); [split; reflexivity|].
      intros H. now destruct Hc.
  - destruct (nth_error (sessions (host w)) sid) as [s|]; [|exact Hw].
    unfold exec. rewrite onerror_eq. split; reflexivity.
  - destruct (nth_error (sessions (host w)) sid) as [s|]; [|exact Hw].
    unfold exec, onclose. rewrite stopSession_eq. split; reflexivity.
  - exact Hw.
  - rewrite job_eq. destruct (jobDone_frame sid throws w) as [_ [-> _]].
    exact Hw.
  - destruct (existsb (Nat.eqb p) (processors (host w))); [|exact Hw].
    unfold exec. destruct (onaudioprocess_eq d w) as [b [_ ->]]. cbn [snd].
    destruct (queue_frame (sessionPromiseRef (refs w)) (SendRealtimeInput b) w)
      as [_ [-> _]].
    exact Hw.
  - intros H. destruct (Hw H) as [E1 E2]. unfold exec. rewrite onended_eq.
    cbn. rewrite E1. split; [reflexivity | exact E2].
Qed.

Lemma reachable_playbackCleared w : reachable w -> playbackCleared w.
Proof.
  intros [evs ->]. induction evs as [|e evs IH] using rev_ind.
  - intros _. split; reflexivity.
  - rewrite run_snoc. now apply step_playbackCleared.
Qed.

(** C3, as the code has it.  In any world the component can reach, a
    message that signals an interruption, whose audio can be read and, if
    there is any, decodes, leaves no buffer source tracked and
    [nextStartTime] at zero, every source that was tracked having been
    stopped; the buffer of the next audio message is therefore started at
    the current time of the output clock. *)
Theorem interrupted_flushes_playback (w : World) (s : Session) (now : Q)
    (m : LiveServerMessage) :
  reachable w ->
  interrupted m = true ->
  malformed m = false ->
  (truthy (audioChunk m) = true -> audioLength m <> None) ->
  let w' := exec (onmessage s now m) w in
  sourcesRef (refs w') = [] /\
  nextStartTimeRef (refs w') = 0%Q /\
  (exists new,
      calls (host w') = calls (host w) ++ new /\
      forall n, In n (sourcesRef (refs w)) -> In (SourceStop n) new) /\
  forall s2 now2 m2 d,
    (0 <= now2)%Q ->
    audioLength m2 = Some d ->
    outputAudioContextRef (refs w') <> None ->
    exists source start,
      calls (host (exec (onmessage s2 now2 m2) w'))
      = calls (host w') ++ SourceStart source start d
          :: (if interrupted m2 then [SourceStop source] else []) /\
      (start == now2)%Q.
Proof.
  intros Hr Hi Hm Ha. cbv zeta.
  assert (H : sourcesRef (refs (exec (onmessage s now m) w)) = [] /\
              nextStartTimeRef (refs (exec (onmessage s now m) w)) = 0%Q /\
              exists new,
                calls (host (exec (onmessage s now m) w))
                = calls (host w) ++ new /\
                forall n, In n (sourcesRef (refs w)) -> In (SourceStop n) new).
  { destruct (onmessage_cases s now m w)
      as [[_ [_ E]] | [[[Hb | [_ Hc]] E] | [[Ht [Hd [_ E]]] | [d [_ [_ E]]]]]];
      cbv zeta in E; rewrite E; clear E.
    - rewrite Hi.
      destruct w as [[a e ts ci co] [p st i oc sp ms t srcs] [ss ps sc n cs]].
      repeat split. exists (map SourceStop srcs). split; [reflexivity|].
      intros x Hx. now apply in_map.
    - congruence.
    - destruct (reachable_playbackCleared w Hr Hc) as [E1 E2].
      repeat split; try assumption. exists []. rewrite app_nil_r.
      split; [reflexivity|]. rewrite E1. intros x [].
    - now destruct (Ha Ht).
    - rewrite Hi.
      destruct w as [[a e ts ci co] [p st i oc sp ms t srcs] [ss ps sc n cs]].
      repeat split.
      exists (SourceStart n (Qmax t now) d :: map SourceStop (setAdd n srcs)).
      split; [cbn; now rewrite <- app_assoc|].
      intros x Hx. right. apply in_map.
      unfold setAdd. destruct (existsb (Nat.eqb n) srcs); [exact Hx|].
      apply in_or_app. now left. }
  destruct H as [H1 [H2 H3]]. repeat split; try assumption.
  intros s2 now2 m2 d Hnow Hd Hc.
  set (w' := exec (onmessage s now m) w) in *.
  destruct (outputAudioContextRef (refs w')) as [c|] eqn:Ec; [|congruence].
  unfold exec at 1. rewrite (onmessage_audio s2 now2 m2 w' c d Ec Hd). cbn [snd].
  exists (nextId (host w')), (Qmax 0 now2). split.
  - clearbody w'.
    destruct w' as [[a e ts ci co] [p st i oc sp ms t srcs] [ss ps sc n cs]].
    cbn in H1, H2. subst srcs t.
    destruct (interrupted m2); cbn; rewrite <- ?app_assoc; reflexivity.
  - now apply Q.max_r.
Qed.

Lemma interrupted_flushes_playback_witness :
  reachable playingWorld /\
  interrupted interruptMessage = true /\
  malformed interruptMessage = false /\
  (truthy (audioChunk interruptMessage) = true ->
   audioLength interruptMessage <> None) /\
  sourcesRef (refs playingWorld) = [5%nat] /\
  sourcesRef (refs (exec (onmessage firstSession 2 interruptMessage)
                      playingWorld)) = [] /\
  nextStartTimeRef (refs (exec (onmessage firstSession 2 interruptMessage)
                            playingWorld)) = 0%Q.
Proof.
  assert (H1 : reachable playingWorld) by (eexists; reflexivity).
  assert (H2 : interrupted interruptMessage = true) by reflexivity.
  assert (H0 : malformed interruptMessage = false) by reflexivity.
  assert (H3 : truthy (audioChunk interruptMessage) = true ->
               audioLength interruptMessage <> None) by discriminate.
  pose proof (interrupted_flushes_playback playingWorld firstSession 2
                interruptMessage H1 H2 H0 H3) as [E1 [E2 _]].
  split; [exact H1|]. split; [exact H2|]. split; [exact H0|].
  split; [exact H3|].
  split; [reflexivity|]. split; [exact E1 | exact E2].
Defined.

(** C3, as stated, fails.  While a buffer plays, an interruption that
    comes with audio that does not decode makes the handler throw at
    [decodeAudioData], and one whose model turn begins with a part of text
    makes it throw at its first statement: in both cases the interrupt
    branch is not reached, the source stays tracked and is not stopped, and
    [nextStartTime] is not reset. *)
Lemma interruption_lost_on_bad_audio :
  sourcesRef (refs playingWorld) = [5%nat] /\
  (0 < nextStartTimeRef (refs playingWorld))%Q /\
  interrupted (interruptingAudio (js "A")) = true /\
  decode (js "A") = None /\
  sourcesRef (refs (step playingWorld
                      (SessionMessage 0 2 (interruptingAudio (js "A")))))
  = [5%nat] /\
  calls (host (step playingWorld
                 (SessionMessage 0 2 (interruptingAudio (js "A")))))
  = calls (host playingWorld) /\
  (0 < nextStartTimeRef
         (refs (step playingWorld
                  (SessionMessage 0 2 (interruptingAudio (js "A"))))))%Q /\
  interrupted (textPartMessage true None false) = true /\
  step playingWorld (SessionMessage 0 2 (textPartMessage true None false))
  = playingWorld.
Proof. vm_compute. repeat split; discriminate. Qed.

(** ** Sending *)

Lemma sent_app a b : sent (a ++ b) = sent a ++ sent b.
Proof.
  induction a as [|c a IH]; [reflexivity|].
  destruct c; cbn [app sent]; rewrite ?IH; reflexivity.
Qed.

Lemma sent_playback new : Forall isPlaybackCall new -> sent new = [].
Proof.
  induction 1 as [|c new Hc _ IH]; [reflexivity|].
  destruct c; cbn in Hc |- *; try contradiction; exact IH.
Qed.

Lemma sent_teardown r : sent (teardownCalls r) = [].
Proof.
  unfold teardownCalls. rewrite !sent_app.
  rewrite (sent_playback (map SourceStop _)) by apply Forall_map_SourceStop.
  destruct (mediaStreamRef r), (scriptProcessorRef r),
    (mediaStreamSourceRef r), (inputAudioContextRef r),
    (outputAudioContextRef r); reflexivity.
Qed.

Lemma nth_error_updateNth {A : Type} (f : A -> A) (l : list A) :
  forall n k a',
    nth_error (updateNth n f l) k = Some a' ->
    exists a, nth_error l k = Some a /\ (a' = a \/ (k = n /\ a' = f a)).
Proof.
  induction l as [|x l IH]; intros n k a' H.
  - destruct n; cbn in H; destruct k; discriminate.
  - destruct n as [|n], k as [|k]; cbn in H |- *.
    + injection H as <-. exists x. split; [reflexivity | right; split; reflexivity].
    + exists a'. split; [exact H | now left].
    + injection H as <-. exists x. split; [reflexivity | now left].
    + destruct (IH n k a' H) as [a [E [-> | [-> ->]]]]; exists a.
      * split; [exact E | now left].
      * split; [exact E | right; split; reflexivity].
Qed.

Lemma sessionsStep_refl e procs ss : sessionsStep e procs ss ss.
Proof.
  intros sid s' E. split.
  - intros Hp. left. now exists s'.
  - intros media Hm. left. now exists s'.
Qed.

Lemma enqueue_promise r s : promise (enqueue r s) = promise s.
Proof. unfold enqueue. destruct (promise s) eqn:E; cbn; congruence. Qed.

Lemma enqueue_reactions r s x :
  In x (reactions (enqueue r s)) -> In x (reactions s) \/ x = r.
Proof.
  unfold enqueue. destruct (promise s); cbn; intros H;
    try (apply in_app_or in H; destruct H as [H | [H | []]]); auto.
Qed.

Lemma sessionsStep_close e procs p ss :
  sessionsStep e procs ss (queueOn p CloseSession ss).
Proof.
  destruct p as [n|]; [|apply sessionsStep_refl].
  intros sid s' E. cbn in E.
  destruct (nth_error_updateNth _ _ _ _ _ E) as [s [Es [-> | [-> ->]]]].
  - split; [intros Hp | intros media Hm]; left; now exists s.
  - split.
    + rewrite enqueue_promise. intros Hp. left. now exists s.
    + intros media Hm. destruct (enqueue_reactions _ _ _ Hm) as [H | H];
        [|discriminate]. left. now exists s.
Qed.

Lemma sessionsStep_send p0 d procs p media ss :
  procs <> [] ->
  sessionsStep (AudioProcess p0 d) procs ss
    (queueOn p (SendRealtimeInput media) ss).
Proof.
  intros Hprocs. destruct p as [n|]; [|apply sessionsStep_refl].
  intros sid s' E. cbn in E.
  destruct (nth_error_updateNth _ _ _ _ _ E) as [s [Es [-> | [-> ->]]]].
  - split; [intros Hp | intros media' Hm]; left; now exists s.
  - split.
    + rewrite enqueue_promise. intros Hp. left. now exists s.
    + intros media' Hm. right. split; [exact Hprocs|]. now exists p0, d.
Qed.

Lemma sessionsStep_settle sid0 ok procs ss :
  sessionsStep (Settled sid0 ok) procs ss
    (updateNth sid0
       (fun s =>
          match promise s with
          | Pending =>
              if ok then set_promise Fulfilled s
              else set_reactions [] (set_promise Rejected s)
          | _ => s
          end) ss).
Proof.
  intros sid s' E.
  destruct (nth_error_updateNth _ _ _ _ _ E) as [s [Es [-> | [-> ->]]]].
  - split; [intros Hp | intros media Hm]; left; now exists s.
  - destruct (promise s) eqn:Ep, ok; cbn; rewrite ?Ep; split;
      try (intros Hp; try discriminate; (left; now exists s) || (now right));
      intros media Hm; try contradiction; left; now exists s.
Qed.

Lemma sessionsStep_pop e procs sid0 s0 r rest ss :
  nth_error ss sid0 = Some s0 ->
  reactions s0 = r :: rest ->
  sessionsStep e procs ss (updateNth sid0 (set_reactions rest) ss).
Proof.
  intros E0 Er sid s' E.
  destruct (nth_error_updateNth _ _ _ _ _ E) as [s [Es [-> | [-> ->]]]].
  - split; [intros Hp | intros media Hm]; left; now exists s.
  - rewrite E0 in Es. injection Es as <-. cbn. split.
    + intros Hp. left. now exists s0.
    + intros media Hm. left. exists s0. split; [exact E0|].
      rewrite Er. now right.
Qed.

Lemma sessionsStep_connect e procs ss s0 :
  promise s0 = Pending -> reactions s0 = [] ->
  sessionsStep e procs ss (ss ++ [s0]).
Proof.
  intros Hp0 Hr0 sid s' E.
  destruct (Nat.lt_ge_cases sid (length ss)) as [Hlt | Hge].
  - rewrite nth_error_app1 in E by exact Hlt.
    split; [intros Hp | intros media Hm]; left; now exists s'.
  - rewrite nth_error_app2 in E by exact Hge.
    destruct (sid - length ss)%nat as [|k]; cbn in E.
    + injection E as <-. split.
      * intros Hp. congruence.
      * intros media Hm. rewrite Hr0 in Hm. contradiction.
    + destruct k; discriminate.
Qed.

Lemma sentStep_same e ss old : sentStep e ss old old.
Proof. intros sid media H. now left. Qed.

Lemma stopped_host w :
  sessions (host (stopped w))
  = queueOn (sessionPromiseRef (refs w)) CloseSession (sessions (host w)) /\
  processors (host (stopped w)) = processors (host w) /\
  calls (host (stopped w)) = calls (host w) ++ teardownCalls (refs w).
Proof.
  destruct w as [u [[p|] st i oc sp ms t srcs] [ss ps sc n cs]]; repeat split.
Qed.

Lemma resumed_host c o w :
  (sessions (host (resumed c o w)) = sessions (host w)
   \/ exists s0,
       sessions (host (resumed c o w)) = sessions (host w) ++ [s0]
       /\ promise s0 = Pending /\ reactions s0 = []) /\
  processors (host (resumed c o w)) = processors (host w) /\
  calls (host (resumed c o w)) = calls (host w).
Proof.
  destruct w as [u r [ss ps sc n cs]], o; cbn; repeat split; auto.
  right. eexists. repeat split.
Qed.

Lemma existsb_nonempty {A : Type} (f : A -> bool) l :
  existsb f l = true -> l <> [].
Proof. destruct l; [discriminate | discriminate]. Qed.

Ltac same_host :=
  split; [apply sessionsStep_refl|];
  split; [apply sentStep_same | now left].

Lemma step_sends w e :
  sessionsStep e (processors (host w)) (sessions (host w))
    (sessions (host (step w e))) /\
  sentStep e (sessions (host w)) (sent (calls (host w)))
    (sent (calls (host (step w e)))) /\
  (processors (host (step w e)) = processors (host w)
   \/ exists sid, e = SessionOpen sid).
Proof.
  assert (Hstop : forall e w0,
             sessions (host w0) = sessions (host w) ->
             processors (host w0) = processors (host w) ->
             calls (host w0) = calls (host w) ->
             sessionsStep e (processors (host w)) (sessions (host w))
               (sessions (host (stopped w0))) /\
             sentStep e (sessions (host w)) (sent (calls (host w)))
               (sent (calls (host (stopped w0)))) /\
             (processors (host (stopped w0)) = processors (host w)
              \/ exists sid, e = SessionOpen sid)).
  { intros e0 w0 Es Ep Ec.
    destruct (stopped_host w0) as [-> [-> ->]]. rewrite Es, Ep, Ec.
    split; [apply sessionsStep_close|]. split; [|now left].
    rewrite sent_app, sent_teardown, app_nil_r. apply sentStep_same. }
  destruct e as [| |k o|sid|sid now m|sid msg|sid|sid ok|sid throws|p d|n];
    unfold step, withSession.
  - unfold exec. rewrite onClick_eq. cbn [snd].
    destruct (isSessionActive (ui w)); [now apply Hstop|].
    destruct w as [u r [ss ps sc n cs]]. same_host.
  - unfold exec, cleanup. rewrite stopSession_eq. now apply Hstop.
  - destruct (nth_error (startCalls (host w)) k) as [c|]; [|same_host].
    destruct (awaiting c); [|same_host].
    rewrite resumed_eq.
    destruct (resumed_host c o (marked k w)) as [Hs [-> ->]].
    split; [|split; [apply sentStep_same | now left]].
    destruct Hs as [-> | [s0 [-> [H1 H2]]]].
    + apply sessionsStep_refl.
    + now apply sessionsStep_connect.
  - destruct (nth_error (sessions (host w)) sid) as [s|]; [|same_host].
    unfold exec. rewrite onopen_eq.
    destruct (inputAudioContextRef (refs w)); [|same_host].
    split; [apply sessionsStep_refl|].
    split; [apply sentStep_same|]. right. now exists sid.
  - destruct (nth_error (sessions (host w)) sid) as [s|]; [|same_host].
    destruct (onmessage_frame s now m w)
      as [_ [_ [-> [-> [_ [new [-> Hnew]]]]]]].
    split; [apply sessionsStep_refl|]. split; [|now left].
    rewrite sent_app, (sent_playback new Hnew), app_nil_r.
    apply sentStep_same.
  - destruct (nth_error (sessions (host w)) sid) as [s|]; [|same_host].
    unfold exec. rewrite onerror_eq. cbn [snd].
    apply Hstop; reflexivity.
  - destruct (nth_error (sessions (host w)) sid) as [s|]; [|same_host].
    unfold exec, onclose. rewrite stopSession_eq. now apply Hstop.
  - split; [apply sessionsStep_settle|].
    split; [apply sentStep_same | now left].
  - rewrite job_eq. unfold jobDone.
    destruct (nth_error (sessions (host w)) sid) as [s|] eqn:Es; [|same_host].
    destruct (promise s) eqn:Ep; try same_host.
    destruct (reactions s) as [|r rest] eqn:Er; [same_host|].
    split; [now apply (sessionsStep_pop _ _ _ s r rest)|].
    split; [|now left].
    destruct w as [u rf [ss ps sc n cs]]. cbn in Es |- *.
    rewrite sent_app. intros sid' media H.
    apply in_app_or in H. destruct H as [H | H]; [now left|].
    destruct throws; [contradiction|].
    destruct r as [|media0]; [contradiction|].
    destruct H as [H | []]. injection H as <- <-.
    right. split; [reflexivity|].
    exists s. repeat split; try assumption. rewrite Er. now left.
  - destruct (existsb (Nat.eqb p) (processors (host w))) eqn:Ex; [|same_host].
    unfold exec. destruct (onaudioprocess_eq d w) as [b [_ ->]]. cbn [snd].
    rewrite sessions_queue.
    destruct (queue_frame (sessionPromiseRef (refs w)) (SendRealtimeInput b) w)
      as [_ [_ [-> [_ [_ ->]]]]].
    split; [apply sessionsStep_send; now apply existsb_nonempty in Ex|].
    split; [apply sentStep_same | now left].
  - same_host.
Qed.

Lemma run_sendInvariant evs : sendInvariant evs (run evs initial).
Proof.
  induction evs as [|e evs IH] using rev_ind.
  - repeat split; cbn.
    + intros [|sid] s H; discriminate.
    + intros H. now destruct H.
    + intros [|sid] s media H; discriminate.
    + intros sid media [].
  - rewrite run_snoc. set (w := run evs initial) in *.
    destruct IH as [I1 [I3 [I4 I5]]].
    destruct (step_sends w e) as [Hs [Hc Hp]].
    assert (Hkeep : (exists sid', In (SessionOpen sid') evs) ->
                    exists sid', In (SessionOpen sid') (evs ++ [e])).
    { intros [sid' H]. exists sid'. apply in_or_app. now left. }
    repeat split.
    + intros sid s E Hf.
      destruct (proj1 (Hs sid s E) Hf) as [[s0 [E0 H0]] | ->];
        apply in_or_app; [left; now apply (I1 sid s0) | right; now left].
    + intros H. destruct Hp as [Hp | [sid ->]].
      * rewrite Hp in H. apply Hkeep. now apply I3.
      * exists sid. apply in_or_app. right. now left.
    + intros sid s media E Hm.
      destruct (proj2 (Hs sid s E) media Hm) as [[s0 [E0 H0]] | [Hprocs _]].
      * apply Hkeep. now apply (I4 sid s0 media).
      * apply Hkeep. now apply I3.
    + intros sid media H.
      destruct (Hc sid media H) as [H0 | [-> [s [E [Hf Hm]]]]].
      * destruct (I5 sid media H0) as [pre [post [-> [H1 H2]]]].
        exists pre, (post ++ [e]). rewrite <- app_assoc. now repeat split.
      * exists evs, []. split; [reflexivity|].
        split; [now apply (I1 sid s) | now apply (I4 sid s media)].
Qed.

(** C7. Whatever happens to the component from its mount on, a chunk
    passed to [sendRealtimeInput] of a session was passed by a job that ran
    after the connect promise of that session had been fulfilled, and
    after an [onopen] callback had wired the capture pipeline: without
    either, no chunk is ever sent on the session. *)
Theorem no_send_before_open (evs : list Event) (sid : nat) (media : GenAIBlob) :
  In (sid, media) (sent (calls (host (run evs initial)))) ->
  exists pre post,
    evs = pre ++ Job sid false :: post /\
    In (Settled sid true) pre /\
    exists sid', In (SessionOpen sid') pre.
Proof.
  intros H. destruct (run_sendInvariant evs) as [_ [_ [_ I5]]].
  now apply (I5 sid media).
Qed.

Example createBlob_half : createBlob [1 # 2] = Some sampleBlob.
Proof. vm_compute. reflexivity. Qed.

Lemma no_send_before_open_witness :
  In (0%nat, sampleBlob)
    (sent (calls (host (run [Click; MediaSettled 0 Connecting; SessionOpen 0;
                             Settled 0 true; AudioProcess 4 [1 # 2];
                             Job 0 false] initial)))) /\
  exists pre post,
    [Click; MediaSettled 0 Connecting; SessionOpen 0; Settled 0 true;
     AudioProcess 4 [1 # 2]; Job 0 false]
    = pre ++ Job 0 false :: post /\
    In (Settled 0 true) pre /\
    exists sid', In (SessionOpen sid') pre.
Proof.
  assert (H : In (0%nat, sampleBlob)
                (sent (calls (host (run [Click; MediaSettled 0 Connecting;
                                         SessionOpen 0; Settled 0 true;
                                         AudioProcess 4 [1 # 2];
                                         Job 0 false] initial)))))
    by (vm_compute; left; reflexivity).
  split; [exact H | exact (no_send_before_open _ _ _ H)].
Defined.

Example no_job_no_send :
  sent (calls (host (run [Click; MediaSettled 0 Connecting; SessionOpen 0;
                          AudioProcess 4 [1 # 2]; Job 0 false] initial)))
  = [] /\
  map reactions
    (sessions (host (run [Click; MediaSettled 0 Connecting; SessionOpen 0;
                          AudioProcess 4 [1 # 2]; Job 0 false] initial)))
  = [[SendRealtimeInput sampleBlob]].
Proof. vm_compute. split; reflexivity. Qed.

Lemma updateNth_same {A : Type} (f : A -> A) (l : list A) :
  forall n a, nth_error l n = Some a -> f a = a -> updateNth n f l = l.
Proof.
  induction l as [|x l IH]; intros [|n] a E Hf; cbn in E |- *;
    try discriminate.
  - injection E as ->. now rewrite Hf.
  - now rewrite (IH n a E Hf).
Qed.

Lemma updateNth_hit {A : Type} (f : A -> A) (l : list A) :
  forall n a, nth_error l n = Some a ->
              nth_error (updateNth n f l) n = Some (f a).
Proof.
  induction l as [|x l IH]; intros [|n] a E; cbn in E |- *;
    try discriminate.
  - now injection E as ->.
  - now apply IH.
Qed.

(** C8, as the code has it.  [onaudioprocess] never throws and calls
    nothing on the host itself: it touches nothing but the queue of the
    promise in [sessionPromiseRef].  With the ref nulled by a teardown, or
    with a rejected promise, the chunk is dropped and the world is as it
    was; with a pending or fulfilled promise the chunk waits in the queue
    for a job of the host.  A job whose call throws removes its reaction
    and touches nothing else, so the failure reaches neither the capture
    callback nor the capture pipeline. *)
Theorem capture_send_never_throws (w : World) (inputData : Float32Array) :
  exists pcmBlob w',
    createBlob inputData = Some pcmBlob /\
    onaudioprocess inputData w = (Normal tt, w') /\
    (ui w' = ui w /\ refs w' = refs w /\
     processors (host w') = processors (host w) /\
     calls (host w') = calls (host w)) /\
    (sessionPromiseRef (refs w) = None -> w' = w) /\
    (forall sid s,
        sessionPromiseRef (refs w) = Some sid ->
        nth_error (sessions (host w)) sid = Some s ->
        match promise s with
        | Rejected => w' = w
        | _ =>
            nth_error (sessions (host w')) sid
            = Some (set_reactions
                      (reactions s ++ [SendRealtimeInput pcmBlob]) s)
        end) /\
    (forall sid,
        let w2 := step w (Job sid true) in
        ui w2 = ui w /\ refs w2 = refs w /\
        processors (host w2) = processors (host w) /\
        calls (host w2) = calls (host w)).
Proof.
  destruct (onaudioprocess_eq inputData w) as [b [Eb E]].
  exists b, (queue (sessionPromiseRef (refs w)) (SendRealtimeInput b) w).
  split; [exact Eb|]. split; [exact E|].
  destruct (queue_frame (sessionPromiseRef (refs w)) (SendRealtimeInput b) w)
    as [H1 [H2 [H3 [_ [_ H4]]]]].
  split; [now repeat split|]. split; [|split].
  - intros ->. reflexivity.
  - intros sid s -> Es. destruct (promise s) eqn:Ep.
    + rewrite sessions_queue. cbn [queueOn].
      rewrite (updateNth_hit _ _ _ _ Es). unfold enqueue. now rewrite Ep.
    + rewrite sessions_queue. cbn [queueOn].
      rewrite (updateNth_hit _ _ _ _ Es). unfold enqueue. now rewrite Ep.
    + destruct w as [u r [ss ps sc n cs]]. cbn in Es |- *.
      unfold with_host, set_sessions. cbn.
      rewrite (updateNth_same _ _ _ _ Es); [reflexivity|].
      unfold enqueue. now rewrite Ep.
  - intros sid. cbv zeta. unfold step. rewrite job_eq. unfold jobDone.
    destruct (nth_error (sessions (host w)) sid) as [s|]; [|repeat split].
    destruct (promise s), (reactions s) as [|r rest]; try (repeat split).
    destruct w as [u r0 [ss ps sc n cs]]. cbn. now rewrite app_nil_r.
Qed.

Lemma capture_send_never_throws_witness :
  sessionPromiseRef (refs (exec stopSession openWorld)) = None /\
  exists pcmBlob,
    createBlob [1 # 2] = Some pcmBlob /\
    onaudioprocess [1 # 2] (exec stopSession openWorld)
    = (Normal tt, exec stopSession openWorld).
Proof.
  assert (H : sessionPromiseRef (refs (exec stopSession openWorld)) = None)
    by reflexivity.
  split; [exact H|].
  destruct (capture_send_never_throws (exec stopSession openWorld) [1 # 2])
    as [b [w' [E1 [E2 [_ [E3 _]]]]]].
  exists b. split; [exact E1|]. rewrite E2. now rewrite (E3 H).
Defined.

(** C8, as stated, fails while a session is connecting.  In
    [lateOpenWorld] the promise in [sessionPromiseRef] is pending, the
    session is not open, and a script processor exists; the frame it
    delivers is not dropped: its chunk waits on the promise and is sent on
    that session once the promise is fulfilled. *)
Lemma pending_frame_is_sent :
  let w := lateOpenWorld in
  let w' := step w (AudioProcess 7 [1 # 2]) in
  let w'' := run [Settled 1 true; Job 1 false] w' in
  reachable w /\
  sessionPromiseRef (refs w) = Some 1%nat /\
  map promise (sessions (host w)) = [Pending; Pending] /\
  processors (host w) = [7%nat] /\
  map reactions (sessions (host w)) = [[CloseSession]; []] /\
  map reactions (sessions (host w'))
  = [[CloseSession]; [SendRealtimeInput sampleBlob]] /\
  sent (calls (host w')) = [] /\
  sent (calls (host w'')) = [(1%nat, sampleBlob)].
Proof.
  cbv zeta. split; [eexists; reflexivity|].
  vm_compute. repeat split.
Qed.

(** * Further properties *)

(** ** The wire text *)

Lemma encode_length (bytes : list Z) :
  Z.of_nat (length (map Base64.charOfSextet (Base64.sextets bytes)
                    ++ Base64.padding bytes))
  = 4 * ((Z.of_nat (length bytes) + 2) / 3).
Proof.
  induction bytes as [|a|a b|a b c r IH] using list_ind3;
    cbn [Base64.sextets Base64.padding map app length]; try reflexivity.
  rewrite !Nat2Z.inj_succ in *. zarith.
Qed.

Lemma charOfSextet_isBase64Char v :
  Base64.is_sextet v -> isBase64Char (Base64.charOfSextet v).
Proof.
  intros H. left. rewrite Base64Facts.sextetOfChar_charOfSextet by exact H.
  discriminate.
Qed.

Lemma encoded_alphabet (bytes : list Z) :
  Forall is_byte bytes ->
  Forall isBase64Char
    (map Base64.charOfSextet (Base64.sextets bytes) ++ Base64.padding bytes).
Proof.
  intros H. apply Forall_app. split.
  - apply Forall_map. eapply Forall_impl; [|apply Base64Facts.sextets_range, H].
    intros v Hv. now apply charOfSextet_isBase64Char.
  - destruct (Base64Facts.padding_cases bytes) as [-> | [-> | ->]];
      repeat constructor; now right.
Qed.

(** X1. [encode] never throws on a byte array; its text has four
    characters for every three bytes, the last group being padded, and
    holds nothing but characters of the base64 alphabet and ['=']. *)
Theorem encode_shape (bytes : Uint8Array) :
  Forall is_byte bytes ->
  exists base64,
    encode bytes = Some base64 /\
    Z.of_nat (length base64) = 4 * ((Z.of_nat (length bytes) + 2) / 3) /\
    Forall isBase64Char base64.
Proof.
  intros H. eexists. split; [now apply encode_bytes|].
  split; [apply encode_length | now apply encoded_alphabet].
Qed.

Lemma encode_shape_witness :
  Forall is_byte [77; 97] /\
  exists base64,
    encode [77; 97] = Some base64 /\
    Z.of_nat (length base64) = 4 * ((Z.of_nat (length [77; 97]) + 2) / 3) /\
    Forall isBase64Char base64.
Proof.
  assert (H : Forall is_byte [77; 97])
    by (repeat constructor; unfold is_byte; lia).
  split; [exact H | exact (encode_shape _ H)].
Defined.

Lemma In_stripPadding c s :
  In c s -> c <> Base64.pad -> In c (Base64.stripPadding s).
Proof.
  intros Hin Hc. unfold Base64.stripPadding.
  assert (Hrev : In c (rev s)) by now apply in_rev in Hin.
  destruct (rev s) as [|c1 [|c2 r]] eqn:E.
  - exact Hin.
  - destruct (Z.eqb_spec c1 Base64.pad) as [-> | _]; [|exact Hin].
    destruct Hrev as [<- | []]. now destruct Hc.
  - destruct (Z.eqb_spec c1 Base64.pad) as [-> | _]; [|exact Hin].
    destruct Hrev as [<- | Hrev]; [now destruct Hc|].
    destruct (Z.eqb_spec c2 Base64.pad) as [-> | _].
    + destruct Hrev as [<- | Hrev]; [now destruct Hc|].
      now apply in_rev in Hrev.
    + now apply in_rev in Hrev.
Qed.

Lemma mapM_fails {A B : Type} (f : A -> option B) (l : list A) (a : A) :
  In a l -> f a = None -> Base64.mapM f l = None.
Proof.
  induction l as [|x l IH]; intros Hin Hf; [contradiction|].
  cbn [Base64.mapM]. destruct Hin as [-> | Hin].
  - now rewrite Hf.
  - rewrite (IH Hin Hf). now destruct (f x).
Qed.

(** X2. [decode] throws on any text that holds a character which is
    neither of the base64 alphabet, nor ['='], nor ASCII white space,
    wherever the character stands. *)
Theorem decode_rejects_foreign (base64 : jsstring) (c : Z) :
  In c base64 ->
  Base64.isAsciiWhitespace c = false ->
  ~ isBase64Char c ->
  decode base64 = None.
Proof.
  intros Hin Hws Hc. unfold decode, Base64.atob.
  assert (Hs : Base64.sextetOfChar c = None).
  { destruct (Base64.sextetOfChar c) eqn:E; [|reflexivity].
    destruct Hc. left. rewrite E. discriminate. }
  assert (Hp : c <> Base64.pad) by (intros ->; apply Hc; now right).
  set (s1 := filter (fun c0 => negb (Base64.isAsciiWhitespace c0)) base64).
  assert (H1 : In c s1) by (apply filter_In; split; [exact Hin | now rewrite Hws]).
  set (s2 := if Z.of_nat (length s1) mod 4 =? 0
             then Base64.stripPadding s1 else s1).
  assert (H2 : In c s2).
  { unfold s2. destruct (Z.of_nat (length s1) mod 4 =? 0);
      [now apply In_stripPadding | exact H1]. }
  destruct (Z.of_nat (length s2) mod 4 =? 1); [reflexivity|].
  now rewrite (mapM_fails _ _ _ H2 Hs).
Qed.

Lemma decode_rejects_foreign_witness :
  In 42 (js "TW*u") /\
  Base64.isAsciiWhitespace 42 = false /\
  ~ isBase64Char 42 /\
  decode (js "TW*u") = None.
Proof.
  assert (H1 : In 42 (js "TW*u")) by (cbn; tauto).
  assert (H2 : Base64.isAsciiWhitespace 42 = false) by reflexivity.
  assert (H3 : ~ isBase64Char 42).
  { intros [H | H]; [now apply H | unfold Base64.pad in H; discriminate]. }
  split; [exact H1|]. split; [exact H2|]. split; [exact H3|].
  exact (decode_rejects_foreign _ _ H1 H2 H3).
Defined.

(** X3. [decode] ignores ASCII white space: a white-space character put
    anywhere into a text changes neither whether it decodes nor the
    bytes. *)
Theorem decode_ignores_whitespace (a b : jsstring) (c : Z) :
  Base64.isAsciiWhitespace c = true ->
  decode (a ++ c :: b) = decode (a ++ b).
Proof.
  intros Hc. unfold decode, Base64.atob.
  rewrite !filter_app. cbn [filter]. now rewrite Hc.
Qed.

Lemma decode_ignores_whitespace_witness :
  Base64.isAsciiWhitespace 10 = true /\
  decode (js "TW" ++ 10 :: js "Fu") = decode (js "TW" ++ js "Fu").
Proof.
  assert (H : Base64.isAsciiWhitespace 10 = true) by reflexivity.
  split; [exact H | exact (decode_ignores_whitespace _ _ _ H)].
Defined.

(** ** PCM buffers *)

Section ListInd2.
Context {A : Type} (P : list A -> Prop).
Hypothesis P0 : P [].
Hypothesis P1 : forall a, P [a].
Hypothesis P2 : forall a b r, P r -> P (a :: b :: r).

Lemma list_ind2 : forall l, P l.
Proof.
  assert (H : forall n l, (length l <= n)%nat -> P l).
  { induction n as [n IH] using lt_wf_ind.
    intros [|a [|b r]] Hl; auto.
    apply P2. apply (IH (length r)); simpl in *; lia. }
  intro l. apply (H (length l)). lia.
Qed.
End ListInd2.

Lemma int16OfBuffer_spec (b : Uint8Array) :
  match int16OfBuffer b with
  | Some a =>
      Nat.even (length b) = true /\ length b = (2 * length a)%nat
      /\ Forall is_int16 a
  | None => Nat.even (length b) = false
  end.
Proof.
  induction b as [|x|lo hi r IH] using list_ind2; cbn [int16OfBuffer].
  - repeat split. constructor.
  - reflexivity.
  - destruct (int16OfBuffer r) as [a|].
    + destruct IH as [H1 [H2 H3]]. cbn [length Nat.even]. repeat split.
      * exact H1.
      * rewrite H2. lia.
      * constructor; [apply toInt16_range | exact H3].
    + exact IH.
Qed.

Lemma nth_int16 (a : Int16Array) (k : nat) :
  Forall is_int16 a -> is_int16 (nth k a 0).
Proof.
  intros H. destruct (nth_in_or_default k a 0) as [Hin | ->].
  - rewrite Forall_forall in H. now apply H.
  - unfold is_int16. lia.
Qed.

Lemma normalized_range (z : Z) :
  is_int16 z -> (-1 <= inject_Z z / 32768 < 1)%Q.
Proof.
  intros [Hlo Hhi]. rewrite Zle_Qle in Hlo. rewrite Zlt_Qlt in Hhi.
  change (inject_Z (-32768)) with (-32768)%Q in Hlo.
  change (inject_Z 32768) with 32768%Q in Hhi.
  rewrite Qdiv_32768. split; lra.
Qed.

Lemma decodeAudioData_cases (data : Uint8Array) (rate : Z) (numChannels : nat) :
  match decodeAudioData data rate numChannels with
  | Some buffer =>
      Nat.even (length data) = true /\
      (1 <= numChannels <= 32)%nat /\
      8000 <= rate <= 96000 /\
      numberOfChannels buffer = numChannels /\
      sampleRate buffer = rate /\
      bufferLength buffer = (length data / 2 / numChannels)%nat /\
      (0 < bufferLength buffer)%nat /\
      length (channelData buffer) = numChannels /\
      Forall (fun channel => length channel = bufferLength buffer)
        (channelData buffer)
  | None =>
      Nat.even (length data) = false \/ numChannels = O
      \/ (32 < numChannels)%nat \/ (length data / 2 < numChannels)%nat
      \/ rate < 8000 \/ 96000 < rate
  end.
Proof.
  unfold decodeAudioData. pose proof (int16OfBuffer_spec data) as H.
  destruct (int16OfBuffer data) as [a|]; [|now left].
  destruct H as [He [Hl _]].
  assert (Hhalf : (length data / 2 = length a)%nat).
  { rewrite Hl, Nat.mul_comm. apply Nat.div_mul. discriminate. }
  rewrite Hhalf.
  destruct (Nat.eqb_spec numChannels 0) as [-> | Hn]; cbn [orb]; [right; now left|].
  destruct (Nat.ltb_spec 32 numChannels) as [H32 | H32]; cbn [orb];
    [right; right; now left|].
  destruct (Nat.eqb_spec (length a / numChannels) 0) as [Hz | Hz]; cbn [orb].
  { right. right. right. left. now apply Nat.div_small_iff in Hz. }
  destruct (Z.ltb_spec rate 8000) as [Hlo | Hlo]; cbn [orb];
    [do 4 right; now left|].
  destruct (Z.ltb_spec 96000 rate) as [Hhi | Hhi];
    [do 5 right; exact Hhi|].
  cbn [numberOfChannels sampleRate bufferLength channelData].
  repeat split; try assumption; try lia.
  - now rewrite length_map, length_seq.
  - apply Forall_map, Forall_forall. intros ch _.
    now rewrite length_map, length_seq.
Qed.


Example decodeAudioData_rates :
  decodeAudioData [0; 0] 0 1 = None /\
  decodeAudioData [0; 0] (-5) 1 = None /\
  decodeAudioData [0; 0] 7999 1 = None /\
  decodeAudioData [0; 0] 24000 1 <> None.
Proof. repeat split; discriminate. Qed.

(** X5. Every sample of every channel of a buffer made by
    [decodeAudioData] lies in [-1, 1), whatever the bytes. *)
Theorem decodeAudioData_samples_normalized (data : Uint8Array) (rate : Z)
    (numChannels : nat) (buffer : AudioBuffer) :
  decodeAudioData data rate numChannels = Some buffer ->
  Forall (Forall (fun x => (-1 <= x < 1)%Q)) (channelData buffer).
Proof.
  unfold decodeAudioData. pose proof (int16OfBuffer_spec data) as H.
  destruct (int16OfBuffer data) as [a|]; [|discriminate].
  destruct H as [_ [_ Ha]].
  match goal with
  | |- (if ?c then _ else _) = _ -> _ => destruct c; [discriminate|]
  end.
  intros E. injection E as <-. cbn [channelData].
  apply Forall_map, Forall_forall. intros ch _.
  apply Forall_map, Forall_forall. intros i _.
  apply normalized_range. now apply nth_int16.
Qed.

Lemma decodeAudioData_samples_normalized_witness :
  exists buffer,
    decodeAudioData [0; 128; 255; 127] 24000 1 = Some buffer /\
    Forall (Forall (fun x => (-1 <= x < 1)%Q)) (channelData buffer).
Proof.
  eexists. split; [reflexivity|].
  exact (decodeAudioData_samples_normalized [0; 128; 255; 127] 24000 1 _
           eq_refl).
Defined.

Lemma int16Bytes_of_bytes lo hi :
  is_byte lo -> is_byte hi -> int16Bytes (toInt16 (lo + 256 * hi)) = [lo; hi].
Proof.
  unfold is_byte, int16Bytes, toInt16. intros Hlo Hhi.
  f_equal; [zarith|]. f_equal. zarith.
Qed.

Lemma int16OfBuffer_cons lo hi r :
  int16OfBuffer (lo :: hi :: r)
  = match int16OfBuffer r with
    | Some a => Some (toInt16 (lo + 256 * hi) :: a)
    | None => None
    end.
Proof. reflexivity. Qed.

Lemma bufferOfInt16_cons z a :
  bufferOfInt16 (z :: a) = int16Bytes z ++ bufferOfInt16 a.
Proof. reflexivity. Qed.

Lemma bufferOfInt16_int16OfBuffer (b : Uint8Array) :
  Forall is_byte b ->
  forall a, int16OfBuffer b = Some a -> bufferOfInt16 a = b.
Proof.
  induction b as [|x|lo hi r IH] using list_ind2; intros Hb a E.
  - now injection E as <-.
  - discriminate.
  - inversion Hb as [|? ? Hlo Hb']; subst.
    inversion Hb' as [|? ? Hhi Hr]; subst.
    rewrite int16OfBuffer_cons in E.
    destruct (int16OfBuffer r) as [a'|]; [|discriminate].
    assert (Ea : toInt16 (lo + 256 * hi) :: a' = a) by congruence.
    subst a. rewrite bufferOfInt16_cons.
    rewrite (IH Hr a' eq_refl), int16Bytes_of_bytes by assumption.
    reflexivity.
Qed.

Lemma storeInt16_normalized (z : Z) :
  is_int16 z -> storeInt16 (inject_Z z / 32768 * 32768) = z.
Proof.
  intros H. unfold storeInt16. rewrite <- (toInt16_small z H) at 2. f_equal.
  unfold Qtrunc. cbn. rewrite Z.mul_1_r. now apply Z.quot_mul.
Qed.

Lemma map_storeInt16_normalized (a : Int16Array) :
  Forall is_int16 a ->
  map (fun x => storeInt16 (x * 32768)%Q)
    (map (fun z => (inject_Z z / 32768)%Q) a) = a.
Proof.
  induction 1 as [|z a Hz _ IH]; [reflexivity|].
  cbn [map]. now rewrite IH, storeInt16_normalized.
Qed.

Lemma decodeAudioData_mono (data : Uint8Array) (rate : Z) (buffer : AudioBuffer) :
  decodeAudioData data rate 1 = Some buffer ->
  exists a,
    int16OfBuffer data = Some a /\ Forall is_int16 a /\
    channelData buffer = [map (fun z => (inject_Z z / 32768)%Q) a].
Proof.
  unfold decodeAudioData. pose proof (int16OfBuffer_spec data) as H.
  destruct (int16OfBuffer data) as [a|]; [|discriminate].
  destruct H as [_ [_ Ha]]. rewrite Nat.div_1_r.
  match goal with
  | |- (if ?c then _ else _) = _ -> _ => destruct c; [discriminate|]
  end.
  intros E. injection E as <-.
  exists a. split; [reflexivity|]. split; [exact Ha|].
  cbn [channelData seq map]. f_equal.
  erewrite map_ext.
  2:{ intros i. rewrite Nat.mul_1_r, Nat.add_0_r. reflexivity. }
  rewrite <- (map_map (fun i => nth i a 0) (fun z => (inject_Z z / 32768)%Q)).
  now rewrite map_nth_seq.
Qed.

(** X6. Decoding and encoding again loses nothing: the samples that
    [decodeAudioData] makes of a byte array on one channel, given to
    [createBlob], come out as the very text [encode] makes of those
    bytes. *)
Theorem createBlob_decodeAudioData (data : Uint8Array) (rate : Z)
    (buffer : AudioBuffer) :
  Forall is_byte data ->
  decodeAudioData data rate 1 = Some buffer ->
  exists base64,
    encode data = Some base64 /\
    createBlob (nth 0 (channelData buffer) [])
    = Some {| data := base64; mimeType := "audio/pcm;rate=16000" |}.
Proof.
  intros Hb Hd.
  destruct (decodeAudioData_mono data rate buffer Hd) as [a [Ea [Ha ->]]].
  cbn [nth]. unfold createBlob.
  rewrite (map_storeInt16_normalized a Ha).
  rewrite (bufferOfInt16_int16OfBuffer data Hb a Ea).
  rewrite (encode_bytes data Hb). eexists. split; reflexivity.
Qed.

Lemma createBlob_decodeAudioData_witness :
  Forall is_byte [0; 128; 255; 127] /\
  exists buffer base64,
    decodeAudioData [0; 128; 255; 127] 24000 1 = Some buffer /\
    encode [0; 128; 255; 127] = Some base64 /\
    createBlob (nth 0 (channelData buffer) [])
    = Some {| data := base64; mimeType := "audio/pcm;rate=16000" |}.
Proof.
  assert (H : Forall is_byte [0; 128; 255; 127])
    by (repeat constructor; unfold is_byte; lia).
  split; [exact H|]. eexists.
  destruct (createBlob_decodeAudioData [0; 128; 255; 127] 24000 _ H eq_refl)
    as [base64 [E1 E2]].
  exists base64. split; [reflexivity|]. split; [exact E1 | exact E2].
Defined.

(** ** The quantizer *)

(** X7. A second pass through the codec changes nothing: what one pass
    makes of a sample, any sample, is a fixed point of the round trip. *)
Theorem roundTripSample_idempotent (x : Q) :
  roundTripSample (roundTripSample x) = roundTripSample x.
Proof.
  unfold roundTripSample.
  now rewrite storeInt16_normalized by apply toInt16_range.
Qed.

Lemma Qtrunc_monotone (x y : Q) : (x <= y)%Q -> Qtrunc x <= Qtrunc y.
Proof.
  intros Hxy.
  destruct (Qlt_le_dec x 0) as [Hx | Hx], (Qlt_le_dec y 0) as [Hy | Hy].
  - destruct (Qtrunc_neg x Hx) as [_ [A _]], (Qtrunc_neg y Hy) as [_ [_ B]].
    assert (H : (inject_Z (Qtrunc x) < inject_Z (Qtrunc y + 1))%Q).
    { rewrite inject_Z_plus. change (inject_Z 1) with 1%Q. lra. }
    apply inject_Z_lt in H. lia.
  - destruct (Qtrunc_neg x Hx) as [A _], (Qtrunc_nonneg y Hy) as [B _]. lia.
  - lra.
  - destruct (Qtrunc_nonneg x Hx) as [_ [A _]], (Qtrunc_nonneg y Hy) as [_ [_ B]].
    assert (H : (inject_Z (Qtrunc x) < inject_Z (Qtrunc y + 1))%Q).
    { rewrite inject_Z_plus. change (inject_Z 1) with 1%Q. lra. }
    apply inject_Z_lt in H. lia.
Qed.

(** X8. On samples that do not overflow the quantizer keeps the order:
    a louder sample never comes back below a quieter one. *)
Theorem roundTripSample_monotone (x y : Q) :
  inRange x -> inRange y -> (x <= y)%Q ->
  (roundTripSample x <= roundTripSample y)%Q.
Proof.
  intros Hx Hy Hxy. unfold roundTripSample.
  rewrite !storeInt16_in_range by assumption. rewrite !Qdiv_32768.
  assert (H : Qtrunc (x * 32768) <= Qtrunc (y * 32768))
    by (apply Qtrunc_monotone; lra).
  rewrite Zle_Qle in H. lra.
Qed.

Lemma roundTripSample_monotone_witness :
  inRange (-1 # 3) /\ inRange (1 # 3) /\ ((-1 # 3) <= (1 # 3))%Q /\
  (roundTripSample (-1 # 3) <= roundTripSample (1 # 3))%Q.
Proof.
  assert (H1 : inRange (-1 # 3)) by (split; reflexivity).
  assert (H2 : inRange (1 # 3)) by (split; reflexivity).
  assert (H3 : ((-1 # 3) <= (1 # 3))%Q) by discriminate.
  split; [exact H1|]. split; [exact H2|]. split; [exact H3|].
  exact (roundTripSample_monotone _ _ H1 H2 H3).
Defined.

(** X9. On samples that do not overflow the quantizer rounds toward
    silence: the value that comes back has the sign of the sample and is
    no larger in magnitude. *)
Theorem roundTripSample_toward_zero (x : Q) :
  inRange x ->
  ((0 <= x)%Q -> (0 <= roundTripSample x <= x)%Q) /\
  ((x <= 0)%Q -> (x <= roundTripSample x <= 0)%Q).
Proof.
  intros Hx. unfold roundTripSample.
  rewrite storeInt16_in_range by assumption. rewrite Qdiv_32768.
  destruct (Qlt_le_dec (x * 32768) 0) as [Hneg | Hpos].
  - destruct (Qtrunc_neg _ Hneg) as [H0 [_ H2]].
    rewrite Zle_Qle in H0. change (inject_Z 0) with 0%Q in H0.
    split; intros H; split; lra.
  - destruct (Qtrunc_nonneg _ Hpos) as [H0 [H1 _]].
    rewrite Zle_Qle in H0. change (inject_Z 0) with 0%Q in H0.
    split; intros H; split; lra.
Qed.

Lemma roundTripSample_toward_zero_witness :
  inRange (-1 # 3) /\
  ((-1 # 3) <= roundTripSample (-1 # 3) <= 0)%Q.
Proof.
  assert (H1 : inRange (-1 # 3)) by (split; reflexivity).
  split; [exact H1|].
  apply (proj2 (roundTripSample_toward_zero _ H1)). discriminate.
Defined.

(** X10. [createBlob] never throws, whatever the frame; its chunk has the
    type [audio/pcm;rate=16000] and a text that [decode] turns into two
    bytes per sample. *)
Theorem createBlob_total_size (frame : Float32Array) :
  exists blob bytes,
    createBlob frame = Some blob /\
    mimeType blob = "audio/pcm;rate=16000"%string /\
    decode (data blob) = Some bytes /\
    length bytes = (2 * length frame)%nat /\
    Z.of_nat (length (data blob))
    = 4 * ((2 * Z.of_nat (length frame) + 2) / 3).
Proof.
  set (int16 := map (fun x => storeInt16 (x * 32768)%Q) frame).
  assert (Hlen : length (bufferOfInt16 int16) = (2 * length frame)%nat).
  { unfold int16, bufferOfInt16. clear int16.
    induction frame as [|x frame IH]; [reflexivity|].
    cbn [map flat_map int16Bytes app length]. rewrite IH. lia. }
  destruct (decode_encode_bytes (bufferOfInt16 int16) (bufferOfInt16_range _))
    as [b64 [Henc Hdec]].
  exists {| data := b64; mimeType := "audio/pcm;rate=16000" |},
    (bufferOfInt16 int16).
  unfold createBlob. fold int16. rewrite Henc. cbn [data mimeType].
  repeat split; try assumption.
  rewrite (encode_bytes _ (bufferOfInt16_range int16)) in Henc.
  injection Henc as <-. rewrite encode_length, Hlen. f_equal. lia.
Qed.

(** ** Events in closed form *)

Lemma exec_onmessage (s : Session) (now : Q) (m : LiveServerMessage) w :
  exec (onmessage s now m) w = if malformed m then w else messaged s now m w.
Proof.
  unfold messaged.
  destruct (onmessage_cases s now m w)
    as [[Hm [Ht E]] | [[[Hm | [Ht Hc]] E] | [[Ht [Hd [Hc E]]] | [d [Hd [Hc E]]]]]];
    cbv zeta in E; rewrite E; clear E;
    try rewrite (truthy_malformed m Ht);
    try rewrite (truthy_malformed m (audioLength_truthy m d Hd)).
  - now rewrite Hm, Ht.
  - now rewrite Hm.
  - now rewrite Ht, Hc.
  - rewrite Ht, Hd. destruct (outputAudioContextRef (refs w)); [reflexivity|].
    now destruct Hc.
  - rewrite (audioLength_truthy m d Hd), Hd.
    destruct (outputAudioContextRef (refs w)); [reflexivity|]. now destruct Hc.
Qed.

Lemma exec_onaudioprocess inputData w :
  exec (onaudioprocess inputData) w
  = queue (sessionPromiseRef (refs w)) (SendRealtimeInput (chunkOf inputData)) w.
Proof.
  unfold exec. destruct (onaudioprocess_eq inputData w) as [b [Eb ->]].
  rewrite createBlob_total in Eb. now injection Eb as <-.
Qed.

Lemma step_afterEvent w e : step w e = afterEvent w e.
Proof.
  destruct e as [| |k o|sid|sid now m|sid msg|sid|sid ok|sid throws|p d|n];
    unfold step, afterEvent, withSession.
  - unfold exec. now rewrite onClick_eq.
  - unfold exec, cleanup. now rewrite stopSession_eq.
  - destruct (nth_error (startCalls (host w)) k) as [c|]; [|reflexivity].
    destruct (awaiting c); [apply resumed_eq | reflexivity].
  - destruct (nth_error (sessions (host w)) sid) as [s|]; [|reflexivity].
    unfold exec. rewrite onopen_eq.
    now destruct (inputAudioContextRef (refs w)).
  - destruct (nth_error (sessions (host w)) sid) as [s|]; [|reflexivity].
    apply exec_onmessage.
  - destruct (nth_error (sessions (host w)) sid) as [s|]; [|reflexivity].
    unfold exec. now rewrite onerror_eq.
  - destruct (nth_error (sessions (host w)) sid) as [s|]; [|reflexivity].
    unfold exec, onclose. now rewrite stopSession_eq.
  - reflexivity.
  - apply job_eq.
  - destruct (existsb (Nat.eqb p) (processors (host w))); [|reflexivity].
    apply exec_onaudioprocess.
  - reflexivity.
Qed.

(** ** Transcripts *)

Lemma string_app_assoc (a b c : string) :
  ((a ++ b) ++ c = a ++ (b ++ c))%string.
Proof. induction a as [|x a IH]; cbn; [reflexivity | now rewrite IH]. Qed.

Lemma string_app_nil_r (a : string) : (a ++ EmptyString = a)%string.
Proof. induction a as [|x a IH]; cbn; [reflexivity | now rewrite IH]. Qed.

(** What a message does to the view: what its transcript says if the
    handler gets to it, nothing otherwise. *)
Lemma onmessage_ui (s : Session) (now : Q) (m : LiveServerMessage) w :
  ui (exec (onmessage s now m) w)
  = (if transcribes (hasOutput w) (s, now, m)
     then ui (transcribed s m w) else ui w) /\
  hasOutput (exec (onmessage s now m) w) = hasOutput w.
Proof.
  unfold transcribes, hasOutput.
  destruct (onmessage_cases s now m w)
    as [[Hm [Ht E]] | [[[Hm | [Ht Hc]] E] | [[Ht [Hd [Hc E]]] | [d [Hd [Hc E]]]]]];
    cbv zeta in E; rewrite E; clear E.
  - rewrite Hm, Ht. cbn.
    destruct w as [[a e ts ci co] [p st i oc sp ms t srcs] [ss ps sc n cs]].
    destruct (interrupted m); split; reflexivity.
  - rewrite Hm. split; reflexivity.
  - rewrite (truthy_malformed m Ht), Ht, Hc. split; reflexivity.
  - rewrite (truthy_malformed m Ht), Ht, Hd.
    destruct w as [[a e ts ci co] [p st i oc sp ms t srcs] [ss ps sc n cs]].
    cbn. rewrite andb_false_r. split; reflexivity.
  - rewrite (truthy_malformed m (audioLength_truthy m d Hd)).
    rewrite (audioLength_truthy m d Hd), Hd.
    destruct w as [[a e ts ci co] [p st i oc sp ms t srcs] [ss ps sc n cs]].
    cbn in Hc |- *. destruct oc; [|congruence].
    destruct (interrupted m); split; reflexivity.
Qed.

Lemma handleMessages_cons s now m l w :
  handleMessages ((s, now, m) :: l) w
  = handleMessages l (exec (onmessage s now m) w).
Proof. reflexivity. Qed.

Lemma handleMessages_pending l :
  forall w,
    Forall (fun x => completesTurn x = false) l ->
    currentInput (ui (handleMessages l w))
    = (currentInput (ui w)
       ++ fragments inputTranscription
            (filter (transcribes (hasOutput w)) l))%string /\
    currentOutput (ui (handleMessages l w))
    = (currentOutput (ui w)
       ++ fragments outputTranscription
            (filter (transcribes (hasOutput w)) l))%string /\
    transcripts (ui (handleMessages l w)) = transcripts (ui w).
Proof.
  induction l as [|[[s now] m] l IH]; intros w Hnt.
  - cbn. now rewrite !string_app_nil_r.
  - inversion Hnt as [|? ? Ht Hnt']; subst. cbn in Ht.
    rewrite handleMessages_cons.
    destruct (onmessage_ui s now m w) as [Eu Eo].
    destruct (IH (exec (onmessage s now m) w) Hnt') as [H1 [H2 H3]].
    rewrite H1, H2, H3, Eu, Eo. cbn [filter].
    destruct (transcribes (hasOutput w) (s, now, m)); [|repeat split].
    unfold transcribed. rewrite Ht.
    destruct w as [[a e ts ci co] r h]. cbn.
    destruct (inputTranscription m), (outputTranscription m); cbn;
      rewrite ?string_app_assoc; repeat split.
Qed.

(** X11. Partial transcripts are appended in their order of arrival.
    After any messages that complete no turn, the pending text of each
    side is what it was followed by the fragments of that side, in order,
    of the messages whose handler got to the transcript, and the list of
    turns is untouched.  The handler gets to the transcript when the audio
    of the message can be read and either there is none or the output
    context is there and the audio decodes; the fragment of any other
    message is lost. *)
Theorem partial_transcripts_accumulate
    (l : list (Session * Q * LiveServerMessage)) (w : World) :
  Forall (fun x => completesTurn x = false) l ->
  currentInput (ui (handleMessages l w))
  = (currentInput (ui w)
     ++ fragments inputTranscription
          (filter (transcribes (hasOutput w)) l))%string /\
  currentOutput (ui (handleMessages l w))
  = (currentOutput (ui w)
     ++ fragments outputTranscription
          (filter (transcribes (hasOutput w)) l))%string /\
  transcripts (ui (handleMessages l w)) = transcripts (ui w).
Proof. exact (handleMessages_pending l w). Qed.

Lemma partial_transcripts_accumulate_witness :
  Forall (fun x => completesTurn x = false)
    [(firstSession, 1%Q, inputMessage "Hel");
     (firstSession, 1%Q, audioMessage (js "AAA="));
     (firstSession, 1%Q, textPartMessage false (Some "p me"%string) false);
     (firstSession, 2%Q, inputMessage "lo")] /\
  currentInput
    (ui (handleMessages
           [(firstSession, 1%Q, inputMessage "Hel");
            (firstSession, 1%Q, audioMessage (js "AAA="));
            (firstSession, 1%Q, textPartMessage false (Some "p me"%string) false);
            (firstSession, 2%Q, inputMessage "lo")] openWorld))
  = "Hello"%string.
Proof.
  assert (H : Forall (fun x => completesTurn x = false)
    [(firstSession, 1%Q, inputMessage "Hel");
     (firstSession, 1%Q, audioMessage (js "AAA="));
     (firstSession, 1%Q, textPartMessage false (Some "p me"%string) false);
     (firstSession, 2%Q, inputMessage "lo")]).
  { repeat constructor. }
  split; [exact H|].
  exact (proj1 (partial_transcripts_accumulate _ openWorld H)).
Defined.

Lemma handleMessages_turns l :
  forall w,
    transcripts (ui (handleMessages l w))
    = transcripts (ui w)
      ++ map turnOf
           (filter (fun x => completesTurn x && transcribes (hasOutput w) x) l).
Proof.
  induction l as [|[[s now] m] l IH]; intros w.
  - cbn. now rewrite app_nil_r.
  - rewrite handleMessages_cons.
    destruct (onmessage_ui s now m w) as [Eu Eo].
    rewrite (IH (exec (onmessage s now m) w)), Eu, Eo. cbn [filter completesTurn].
    destruct (transcribes (hasOutput w) (s, now, m));
      [|now rewrite andb_false_r].
    rewrite andb_true_r. unfold transcribed.
    destruct w as [[a e ts ci co] r h]. cbn.
    destruct (turnComplete m); cbn; [now rewrite <- app_assoc | reflexivity].
Qed.

Lemma onmessage_turn (s : Session) (now : Q) (m : LiveServerMessage) w :
  turnComplete m = true ->
  if transcribes (hasOutput w) (s, now, m)
  then transcripts (ui (exec (onmessage s now m) w))
       = transcripts (ui w) ++ [turnOf (s, now, m)] /\
       currentInput (ui (exec (onmessage s now m) w)) = EmptyString /\
       currentOutput (ui (exec (onmessage s now m) w)) = EmptyString
  else ui (exec (onmessage s now m) w) = ui w.
Proof.
  intros Ht. destruct (onmessage_ui s now m w) as [-> _].
  destruct (transcribes (hasOutput w) (s, now, m)); [|reflexivity].
  unfold transcribed. rewrite Ht. destruct w as [[a e ts ci co] r h].
  repeat split.
Qed.

(** X12. A turn-complete message makes exactly one turn when its handler
    gets to the transcript, and none otherwise.  After any messages, the
    list of turns has grown by one turn for each message that completes a
    turn and whose audio can be read and, if there is any, decodes with the
    output context there; the turns come in the order of the messages, each
    holding the two texts the handler of its session closed over, and such
    a message leaves both pending texts empty.  A turn-complete message
    whose audio cannot be read or decoded, or that comes with audio when
    the output context is gone, changes nothing on the page. *)
Theorem one_turn_per_signal
    (l : list (Session * Q * LiveServerMessage)) (w : World) :
  transcripts (ui (handleMessages l w))
  = transcripts (ui w)
    ++ map turnOf
         (filter (fun x => completesTurn x && transcribes (hasOutput w) x) l) /\
  length (transcripts (ui (handleMessages l w)))
  = (length (transcripts (ui w))
     + length
         (filter (fun x => completesTurn x && transcribes (hasOutput w) x) l))%nat /\
  forall s now m w0,
    turnComplete m = true ->
    if transcribes (hasOutput w0) (s, now, m)
    then transcripts (ui (exec (onmessage s now m) w0))
         = transcripts (ui w0) ++ [turnOf (s, now, m)] /\
         currentInput (ui (exec (onmessage s now m) w0)) = EmptyString /\
         currentOutput (ui (exec (onmessage s now m) w0)) = EmptyString
    else ui (exec (onmessage s now m) w0) = ui w0.
Proof.
  pose proof (handleMessages_turns l w) as H.
  split; [exact H|]. split.
  - now rewrite H, length_app, length_map.
  - intros s now m w0. apply onmessage_turn.
Qed.

Example turns_of_three_signals :
  length
    (transcripts
       (ui (handleMessages
              [(firstSession, 1%Q, inputMessage "Hel");
               (firstSession, 1%Q, turnCompleteMessage);
               (firstSession, 2%Q, textPartMessage false None true);
               (firstSession, 2%Q, turnCompleteMessage)] openWorld)))
  = 2%nat.
Proof. reflexivity. Qed.

(** ** The calls of an event *)

Lemma calls_stopped w :
  calls (host (stopped w)) = calls (host w) ++ teardownCalls (refs w).
Proof. now destruct (stopped_host w) as [_ [_ ->]]. Qed.

Lemma calls_messaged s now m w :
  calls (host (messaged s now m w)) = calls (host w) ++ messageCalls now m w.
Proof.
  unfold messaged, messageCalls.
  destruct w as [[a e ts ci co] [p st i oc sp ms t srcs] [ss ps sc n cs]].
  cbn [refs host outputAudioContextRef nextStartTimeRef sourcesRef nextId calls].
  destruct (truthy (audioChunk m)).
  - destruct oc as [c|]; [|now rewrite app_nil_r].
    destruct (audioLength m) as [d|]; [|cbn; now rewrite app_nil_r].
    destruct (interrupted m); cbn; rewrite <- ?app_assoc; reflexivity.
  - destruct (interrupted m); cbn; [reflexivity | now rewrite app_nil_r].
Qed.

Lemma calls_afterEvent w e :
  calls (host (afterEvent w e)) = calls (host w) ++ emitted w e.
Proof.
  destruct e as [| |k o|sid|sid now m|sid msg|sid|sid ok|sid throws|p d|n];
    unfold afterEvent, emitted.
  - destruct (isSessionActive (ui w)); [apply calls_stopped|].
    destruct w as [u r [ss ps sc n cs]]. cbn. now rewrite app_nil_r.
  - apply calls_stopped.
  - rewrite app_nil_r.
    destruct (nth_error (startCalls (host w)) k) as [c|]; [|reflexivity].
    destruct (awaiting c); [|reflexivity].
    now destruct (resumed_host c o (marked k w)) as [_ [_ ->]].
  - rewrite app_nil_r.
    destruct (nth_error (sessions (host w)) sid) as [s|]; [|reflexivity].
    now destruct (inputAudioContextRef (refs w)).
  - destruct (nth_error (sessions (host w)) sid) as [s|];
      [|now rewrite app_nil_r].
    destruct (malformed m); [now rewrite app_nil_r | apply calls_messaged].
  - destruct (nth_error (sessions (host w)) sid) as [s|];
      [now rewrite calls_stopped | now rewrite app_nil_r].
  - destruct (nth_error (sessions (host w)) sid) as [s|];
      [apply calls_stopped | now rewrite app_nil_r].
  - destruct w as [u r [ss ps sc n cs]]. cbn. now rewrite app_nil_r.
  - unfold jobDone.
    destruct (nth_error (sessions (host w)) sid) as [s|];
      [|now rewrite app_nil_r].
    destruct (promise s), (reactions s) as [|r rest];
      try (now rewrite app_nil_r).
    destruct w as [u rf [ss ps sc n cs]]. reflexivity.
  - rewrite app_nil_r.
    destruct (existsb (Nat.eqb p) (processors (host w))); [|reflexivity].
    now destruct (queue_frame (sessionPromiseRef (refs w))
                    (SendRealtimeInput (chunkOf d)) w) as [_ [_ [_ [_ [_ ->]]]]].
  - destruct w as [u r [ss ps sc n0 cs]]. cbn. now rewrite app_nil_r.
Qed.

Lemma reachable_ind (P : World -> Prop) :
  P initial ->
  (forall w e, reachable w -> P w -> P (afterEvent w e)) ->
  forall w, reachable w -> P w.
Proof.
  intros H0 Hstep w [evs ->].
  induction evs as [|e evs IH] using rev_ind; [exact H0|].
  rewrite run_snoc, step_afterEvent. apply Hstep; [now exists evs | exact IH].
Qed.

Lemma scheduled_no_start cs :
  forallb (fun c => negb (isStart c)) cs = true -> scheduled cs = [].
Proof.
  induction cs as [|c cs IH]; [reflexivity|].
  cbn [forallb]. intros H. apply andb_prop in H as [Hc Hcs].
  destruct c; cbn in Hc |- *; try discriminate; now apply IH.
Qed.

Lemma scheduled_stops l : scheduled (map SourceStop l) = [].
Proof. induction l; [reflexivity | exact IHl]. Qed.

Lemma scheduled_teardown r : scheduled (teardownCalls r) = [].
Proof.
  unfold teardownCalls. rewrite !scheduled_app, scheduled_stops.
  destruct (mediaStreamRef r), (scriptProcessorRef r),
    (mediaStreamSourceRef r), (inputAudioContextRef r),
    (outputAudioContextRef r); reflexivity.
Qed.

Lemma audioLength_malformed (m : LiveServerMessage) :
  malformed m = true -> audioLength m = None.
Proof.
  unfold malformed, audioLength, audioChunk.
  destruct (readAudioData m); [discriminate | reflexivity].
Qed.

Lemma scheduled_emitted w e :
  scheduled (emitted w e)
  = match e with
    | SessionMessage sid now m =>
        match nth_error (sessions (host w)) sid,
              outputAudioContextRef (refs w), audioLength m with
        | Some _, Some _, Some d =>
            [(Qmax (nextStartTimeRef (refs w)) now, d)]
        | _, _, _ => []
        end
    | _ => []
    end.
Proof.
  destruct e as [| |k o|sid|sid now m|sid msg|sid|sid ok|sid throws|p d|n];
    unfold emitted; try reflexivity.
  - destruct (isSessionActive (ui w)); [apply scheduled_teardown | reflexivity].
  - apply scheduled_teardown.
  - destruct (nth_error (sessions (host w)) sid) as [s|]; [|reflexivity].
    destruct (malformed m) eqn:Em.
    { rewrite (audioLength_malformed m Em).
      now destruct (outputAudioContextRef (refs w)). }
    unfold messageCalls. destruct (truthy (audioChunk m)) eqn:Et.
    + destruct (outputAudioContextRef (refs w)); [|reflexivity].
      destruct (audioLength m); [|reflexivity].
      cbn [scheduled]. destruct (interrupted m);
        [now rewrite scheduled_stops | reflexivity].
    + rewrite (audioLength_silent m Et).
      destruct (interrupted m), (outputAudioContextRef (refs w));
        rewrite ?scheduled_stops; reflexivity.
  - destruct (nth_error (sessions (host w)) sid);
      [apply scheduled_teardown | reflexivity].
  - destruct (nth_error (sessions (host w)) sid);
      [apply scheduled_teardown | reflexivity].
  - destruct (nth_error (sessions (host w)) sid) as [s|]; [|reflexivity].
    destruct (promise s), (reactions s) as [|[|media] rest], throws;
      reflexivity.
Qed.

(** ** Playback and the output context *)

Lemma outputContext_afterEvent w e :
  notMediaSettled e ->
  outputAudioContextRef (refs w) = None ->
  outputAudioContextRef (refs (afterEvent w e)) = None.
Proof.
  intros He Hc.
  destruct w as [[a er ts ci co] [p st i oc sp ms t srcs] [ss ps sc n cs]].
  cbn in Hc. subst oc.
  destruct e as [| |k o|sid|sid now m|sid msg|sid|sid ok|sid throws|pr d|src];
    unfold afterEvent; cbn [ui refs host isSessionActive sessions
                              processors inputAudioContextRef
                              sessionPromiseRef];
    try reflexivity.
  - now destruct a.
  - contradiction.
  - now destruct (nth_error ss sid), i.
  - destruct (nth_error ss sid) as [s|]; [|reflexivity].
    destruct (malformed m); [reflexivity|].
    unfold messaged. cbn [refs outputAudioContextRef].
    now destruct (truthy (audioChunk m)), (interrupted m).
  - now destruct (nth_error ss sid).
  - now destruct (nth_error ss sid).
  - unfold jobDone. cbn [host sessions].
    destruct (nth_error ss sid) as [s|]; [|reflexivity].
    now destruct (promise s), (reactions s).
  - now destruct (existsb (Nat.eqb pr) ps), p.
Qed.

Lemma run_cons e evs w : run (e :: evs) w = run evs (step w e).
Proof. reflexivity. Qed.

Lemma run_without_context evs :
  forall w,
    outputAudioContextRef (refs w) = None ->
    Forall notMediaSettled evs ->
    outputAudioContextRef (refs (run evs w)) = None /\
    scheduled (calls (host (run evs w))) = scheduled (calls (host w)).
Proof.
  induction evs as [|e evs IH]; intros w Hc He; [now split|].
  inversion He as [|? ? H1 H2]; subst.
  rewrite run_cons, step_afterEvent.
  destruct (IH (afterEvent w e)) as [E1 E2];
    [now apply outputContext_afterEvent | assumption |].
  split; [exact E1|].
  rewrite E2, calls_afterEvent, scheduled_app, scheduled_emitted.
  destruct e; rewrite ?app_nil_r; try reflexivity.
  rewrite Hc. destruct (nth_error (sessions (host w)) sid);
    now rewrite app_nil_r.
Qed.

(** X13. Nothing is played without an output context: from a world whose
    output context is null, as a stop leaves it, no event starts a buffer
    source until a start has had its answer from [getUserMedia]; audio
    that arrives late is dropped. *)
Theorem no_playback_without_context (evs : list Event) (w : World) :
  outputAudioContextRef (refs w) = None ->
  Forall notMediaSettled evs ->
  outputAudioContextRef (refs (run evs w)) = None /\
  scheduled (calls (host (run evs w))) = scheduled (calls (host w)).
Proof. exact (run_without_context evs w). Qed.

Lemma no_playback_without_context_witness :
  outputAudioContextRef (refs (exec stopSession playingWorld)) = None /\
  Forall notMediaSettled
    [SessionMessage 0 3 (audioMessage (js "AAA=")); Click;
     SessionMessage 0 4 (audioMessage (js "AAA="))] /\
  scheduled
    (calls (host (run [SessionMessage 0 3 (audioMessage (js "AAA=")); Click;
                       SessionMessage 0 4 (audioMessage (js "AAA="))]
                    (exec stopSession playingWorld))))
  = scheduled (calls (host (exec stopSession playingWorld))).
Proof.
  assert (H1 : outputAudioContextRef (refs (exec stopSession playingWorld))
               = None) by reflexivity.
  assert (H2 : Forall notMediaSettled
    [SessionMessage 0 3 (audioMessage (js "AAA=")); Click;
     SessionMessage 0 4 (audioMessage (js "AAA="))]).
  { repeat constructor. }
  split; [exact H1|]. split; [exact H2|].
  exact (proj2 (no_playback_without_context _ _ H1 H2)).
Defined.

Lemma audioLength_positive (m : LiveServerMessage) (d : Q) :
  audioLength m = Some d -> (0 < d)%Q.
Proof.
  unfold audioLength. destruct (audioChunk m) as [[|c r]|]; try discriminate.
  destruct (decode (c :: r)) as [bytes|]; try discriminate.
  pose proof (decodeAudioData_cases bytes 24000 1) as H.
  destruct (decodeAudioData bytes 24000 1) as [buffer|]; [|discriminate].
  destruct H as [_ [_ [_ [_ [Hr [_ [Hpos _]]]]]]].
  intros E. injection E as <-. unfold duration. rewrite Hr.
  apply toDouble_pos.
  assert (H1 : (pow2 (-1074) <= pow2 (-15))%Q) by (apply pow2_le; lia).
  assert (H2 : (pow2 (-15) <= 1 # 24000)%Q) by (vm_compute; discriminate).
  assert (H3 : (1 # 24000
                <= inject_Z (Z.of_nat (bufferLength buffer)) / inject_Z 24000)%Q).
  { unfold Qle, Qdiv, Qmult, Qinv, inject_Z. cbn. lia. }
  lra.
Qed.

Lemma nextStartTime_afterEvent w e :
  (0 <= nextStartTimeRef (refs w))%Q ->
  (0 <= nextStartTimeRef (refs (afterEvent w e)))%Q.
Proof.
  intros Hn.
  destruct w as [[a er ts ci co] [p st i oc sp ms t srcs] [ss ps sc n cs]].
  cbn in Hn.
  destruct e as [| |k o|sid|sid now m|sid msg|sid|sid ok|sid throws|pr d|src];
    unfold afterEvent; cbn [ui refs host isSessionActive sessions
                              processors inputAudioContextRef startCalls
                              sessionPromiseRef]; try exact Hn.
  - destruct a; [discriminate | exact Hn].
  - discriminate.
  - destruct (nth_error sc k) as [c|]; [|exact Hn].
    destruct (awaiting c); [|exact Hn]. now destruct o.
  - now destruct (nth_error ss sid), i.
  - destruct (nth_error ss sid) as [s|]; [|exact Hn].
    destruct (malformed m); [exact Hn|].
    unfold messaged. cbn [refs outputAudioContextRef nextStartTimeRef].
    destruct (truthy (audioChunk m)).
    + destruct oc; [|exact Hn].
      destruct (audioLength m) as [d|] eqn:Ed.
      * apply audioLength_positive in Ed.
        destruct (interrupted m); cbn; [discriminate|].
        apply toDouble_nonneg.
        pose proof (Q.le_max_l t now). lra.
      * cbn. pose proof (Q.le_max_l t now). lra.
    + destruct (interrupted m); [discriminate | exact Hn].
  - destruct (nth_error ss sid); [discriminate | exact Hn].
  - destruct (nth_error ss sid); [discriminate | exact Hn].
  - unfold jobDone. cbn [host sessions].
    destruct (nth_error ss sid) as [s|]; [|exact Hn].
    now destruct (promise s), (reactions s).
  - now destruct (existsb (Nat.eqb pr) ps), p.
Qed.

Lemma reachable_validStarts w :
  reachable w ->
  (0 <= nextStartTimeRef (refs w))%Q /\
  Forall validStart (scheduled (calls (host w))).
Proof.
  revert w. apply reachable_ind.
  - split; [discriminate | constructor].
  - intros w e _ [Hn Hs]. split; [now apply nextStartTime_afterEvent|].
    rewrite calls_afterEvent, scheduled_app. apply Forall_app.
    split; [exact Hs|]. rewrite scheduled_emitted.
    destruct e; try constructor.
    destruct (nth_error (sessions (host w)) sid); [|constructor].
    destruct (outputAudioContextRef (refs w)); [|constructor].
    destruct (audioLength message) as [d|] eqn:Ed; constructor; [|constructor].
    split; [|now apply (audioLength_positive message)].
    pose proof (Q.le_max_l (nextStartTimeRef (refs w)) now). lra.
Qed.

(** X14. Whatever happens to the component, [source.start] is never given
    a negative time nor a buffer without duration: every buffer source
    started so far was started at a time that is not negative with a
    buffer of positive duration, and [nextStartTime] is never negative. *)
Theorem start_times_valid (w : World) :
  reachable w ->
  (0 <= nextStartTimeRef (refs w))%Q /\
  Forall validStart (scheduled (calls (host w))).
Proof. exact (reachable_validStarts w). Qed.

Lemma start_times_valid_witness :
  reachable playingWorld /\
  (0 <= nextStartTimeRef (refs playingWorld))%Q /\
  Forall validStart (scheduled (calls (host playingWorld))).
Proof.
  assert (H : reachable playingWorld) by (eexists; reflexivity).
  split; [exact H | exact (start_times_valid _ H)].
Defined.

(** ** The tracked sources *)

Lemma In_setAdd n k l : In n (setAdd k l) -> In n l \/ n = k.
Proof.
  unfold setAdd. destruct (existsb (Nat.eqb k) l); [now left|].
  intros H. apply in_app_or in H. destruct H as [H | [<- | []]]; auto.
Qed.

Lemma In_setDelete n k l : In n (setDelete k l) -> In n l.
Proof. unfold setDelete. intros H. now apply filter_In in H. Qed.

Lemma sourceOf_teardown r c n :
  In c (teardownCalls r) -> sourceOf c = Some n ->
  c = SourceStop n /\ In n (sourcesRef r).
Proof.
  unfold teardownCalls. intros Hin Hs.
  repeat (apply in_app_or in Hin; destruct Hin as [Hin | Hin];
          [match type of Hin with
           | In _ (optCall _ ?o) =>
               destruct o; [destruct Hin as [<- | []]; discriminate
                           | contradiction]
           end|]).
  apply in_map_iff in Hin. destruct Hin as [k [<- Hk]].
  cbn in Hs. injection Hs as ->. now split.
Qed.

Lemma nextId_afterEvent w e :
  (nextId (host w) <= nextId (host (afterEvent w e)))%nat.
Proof.
  destruct w as [[a er ts ci co] [p st i oc sp ms t srcs] [ss ps sc n cs]].
  destruct e as [| |k o|sid|sid now m|sid msg|sid|sid ok|sid throws|pr d|src];
    unfold afterEvent; cbn [ui refs host isSessionActive sessions
                              processors inputAudioContextRef startCalls
                              sessionPromiseRef nextId]; try apply Nat.le_refl.
  - destruct a, p; cbn; lia.
  - destruct p; cbn; lia.
  - destruct (nth_error sc k) as [c|]; [|cbn; lia].
    destruct (awaiting c); [|cbn; lia]. destruct o; cbn; lia.
  - destruct (nth_error ss sid), i; cbn; lia.
  - destruct (nth_error ss sid) as [s|]; [|cbn; lia].
    destruct (malformed m); [cbn; lia|].
    unfold messaged. cbn [refs outputAudioContextRef].
    destruct (truthy (audioChunk m)), oc, (audioLength m), (interrupted m);
      cbn; lia.
  - destruct (nth_error ss sid), p; cbn; lia.
  - destruct (nth_error ss sid), p; cbn; lia.
  - unfold jobDone. cbn [host sessions].
    destruct (nth_error ss sid) as [s|]; [|cbn; lia].
    destruct (promise s), (reactions s); cbn; lia.
  - destruct (existsb (Nat.eqb pr) ps), p; cbn; lia.
Qed.

(** How an event changes what is tracked and which sources it names. *)
Lemma sources_afterEvent w e :
  (forall n,
      In n (sourcesRef (refs (afterEvent w e))) ->
      (In n (sourcesRef (refs w)) /\ ~ In (SourceStop n) (emitted w e))
      \/ (n = nextId (host w)
          /\ (nextId (host w) < nextId (host (afterEvent w e)))%nat
          /\ exists t d, emitted w e = [SourceStart n t d])) /\
  (forall c n,
      In c (emitted w e) -> sourceOf c = Some n ->
      In n (sourcesRef (refs w))
      \/ (n = nextId (host w)
          /\ (nextId (host w) < nextId (host (afterEvent w e)))%nat)).
Proof.
  assert (Hstop : forall w0 : World,
             refs w0 = refs w ->
             (forall n, In n (sourcesRef (refs (stopped w0))) -> False) /\
             (forall c n, In c (teardownCalls (refs w)) ->
                          sourceOf c = Some n -> In n (sourcesRef (refs w)))).
  { intros w0 E. split.
    - intros n. destruct w0 as [u r h]. cbn. tauto.
    - intros c n Hc Hs. now destruct (sourceOf_teardown _ _ _ Hc Hs). }
  assert (Hsame : forall w' : World,
             sourcesRef (refs w') = sourcesRef (refs w) ->
             (forall n,
                 In n (sourcesRef (refs w')) ->
                 (In n (sourcesRef (refs w)) /\ ~ In (SourceStop n) [])
                 \/ (n = nextId (host w)
                     /\ (nextId (host w) < nextId (host w'))%nat
                     /\ exists t d, @nil Call = [SourceStart n t d])) /\
             (forall c n,
                 In c (@nil Call) -> sourceOf c = Some n ->
                 In n (sourcesRef (refs w))
                 \/ (n = nextId (host w)
                     /\ (nextId (host w) < nextId (host w'))%nat))).
  { intros w' E. split.
    - intros n Hn. left. rewrite E in Hn. split; [exact Hn | tauto].
    - intros c n []. }
  destruct e as [| |k o|sid|sid now m|sid msg|sid|sid ok|sid throws|pr d|src];
    unfold afterEvent, emitted.
  - destruct (isSessionActive (ui w)).
    + destruct (Hstop w eq_refl) as [H1 H2]. split.
      * intros n Hn. now destruct (H1 n Hn).
      * intros c n Hc Hs. left. now apply (H2 c n).
    + apply Hsame. now destruct w as [u r h].
  - destruct (Hstop w eq_refl) as [H1 H2]. split.
    + intros n Hn. now destruct (H1 n Hn).
    + intros c n Hc Hs. left. now apply (H2 c n).
  - apply Hsame.
    destruct (nth_error (startCalls (host w)) k) as [c|]; [|reflexivity].
    destruct (awaiting c); [|reflexivity].
    destruct w as [u r h]. now destruct o.
  - apply Hsame.
    destruct (nth_error (sessions (host w)) sid),
      (inputAudioContextRef (refs w)); reflexivity.
  - destruct (nth_error (sessions (host w)) sid) as [s|];
      [|now apply Hsame].
    destruct (malformed m); [now apply Hsame|].
    unfold messaged, messageCalls.
    destruct w as [[a er ts ci co] [p st i oc sp ms t srcs] [ss ps sc n0 cs]].
    cbn [ui refs host outputAudioContextRef sourcesRef nextId
            nextStartTimeRef].
    destruct (truthy (audioChunk m)).
    + destruct oc as [ctx|]; [|split; [intros n Hn; left; now split
                                      | intros c n []]].
      destruct (audioLength m) as [d|];
        [|split; [intros n Hn; left; now split | intros c n []]].
      destruct (interrupted m); cbn.
      * split; [intros n []|].
        intros c0 n [<- | Hc] Hs.
        -- cbn in Hs. injection Hs as <-. right. split; [reflexivity | lia].
        -- apply in_map_iff in Hc. destruct Hc as [k [<- Hk]].
           cbn in Hs. injection Hs as ->.
           destruct (In_setAdd _ _ _ Hk) as [H | ->];
             [now left | right; split; [reflexivity | lia]].
      * split.
        -- intros n Hn. destruct (In_setAdd _ _ _ Hn) as [H | ->].
           ++ left. split; [exact H|]. intros [E | []]. discriminate.
           ++ right. split; [reflexivity|]. split; [lia|]. now eexists _, _.
        -- intros c0 n [<- | []] Hs. cbn in Hs. injection Hs as <-.
           right. split; [reflexivity | lia].
    + destruct (interrupted m); cbn.
      * split; [intros n []|].
        intros c0 n Hc Hs. apply in_map_iff in Hc.
        destruct Hc as [k [<- Hk]]. cbn in Hs. injection Hs as ->. now left.
      * split; [intros n Hn; left; now split | intros c n []].
  - destruct (nth_error (sessions (host w)) sid) as [s|];
      [|now apply Hsame].
    destruct (Hstop (with_ui (set_error
                (Some ("Session error: " ++ msg)%string)) w) eq_refl)
      as [H1 H2]. split.
    + intros n Hn. now destruct (H1 n Hn).
    + intros c n Hc Hs. left. now apply (H2 c n).
  - destruct (nth_error (sessions (host w)) sid) as [s|];
      [|now apply Hsame].
    destruct (Hstop w eq_refl) as [H1 H2]. split.
    + intros n Hn. now destruct (H1 n Hn).
    + intros c n Hc Hs. left. now apply (H2 c n).
  - apply Hsame. reflexivity.
  - unfold jobDone.
    destruct (nth_error (sessions (host w)) sid) as [s|];
      [|now apply Hsame].
    destruct (promise s); try (now apply Hsame).
    destruct (reactions s) as [|r rest]; [now apply Hsame|].
    split.
    + intros n Hn. left. split; [exact Hn|].
      destruct throws; [tauto|]. intros [E | []]. destruct r; discriminate.
    + intros c n Hc Hs. destruct throws; [contradiction|].
      destruct Hc as [<- | []]. destruct r; discriminate.
  - apply Hsame.
    destruct (existsb (Nat.eqb pr) (processors (host w))); [|reflexivity].
    now destruct (queue_frame (sessionPromiseRef (refs w))
                    (SendRealtimeInput (chunkOf d)) w) as [_ [-> _]].
  - split; [|intros c n []].
    intros n Hn. left. split; [|tauto].
    destruct w as [u r h]. cbn in Hn. now apply In_setDelete in Hn.
Qed.

Lemma reachable_sourcesKnown w : reachable w -> sourcesKnown w.
Proof.
  revert w. apply reachable_ind.
  - split; [intros c n [] | intros n []].
  - intros w e _ [Hc Hs].
    destruct (sources_afterEvent w e) as [H1 H2].
    pose proof (nextId_afterEvent w e) as Hle. split.
    + intros c n Hin Hsrc. rewrite calls_afterEvent in Hin.
      apply in_app_or in Hin. destruct Hin as [Hin | Hin].
      * specialize (Hc c n Hin Hsrc). lia.
      * destruct (H2 c n Hin Hsrc) as [H | [-> H]]; [|exact H].
        specialize (Hs n H). lia.
    + intros n Hin. destruct (H1 n Hin) as [[H _] | [-> [H _]]]; [|exact H].
      specialize (Hs n H). lia.
Qed.

Lemma reachable_tracked w :
  reachable w ->
  forall n,
    In n (sourcesRef (refs w)) ->
    (exists t d, In (SourceStart n t d) (calls (host w))) /\
    ~ In (SourceStop n) (calls (host w)).
Proof.
  revert w.
  apply (reachable_ind
           (fun w => forall n,
                In n (sourcesRef (refs w)) ->
                (exists t d, In (SourceStart n t d) (calls (host w))) /\
                ~ In (SourceStop n) (calls (host w)))).
  - intros n [].
  - intros w e Hr IH n Hin.
    destruct (sources_afterEvent w e) as [H1 _].
    rewrite calls_afterEvent.
    destruct (H1 n Hin) as [[H Hno] | [-> [_ [t [d E]]]]].
    + destruct (IH n H) as [[t [d Hs]] Hn]. split.
      * exists t, d. apply in_or_app. now left.
      * intros Hx. apply in_app_or in Hx. tauto.
    + split.
      * exists t, d. apply in_or_app. right. rewrite E. now left.
      * intros Hx. apply in_app_or in Hx. destruct Hx as [Hx | Hx].
        -- destruct (reachable_sourcesKnown w Hr) as [Hc _].
           specialize (Hc (SourceStop (nextId (host w))) _ Hx eq_refl). lia.
        -- rewrite E in Hx. destruct Hx as [Hx | []]. discriminate.
Qed.

(** X15. The set of tracked sources holds only sources that play or are
    scheduled: whatever happens to the component, every source in
    [sourcesRef] has been started and has not been stopped. *)
Theorem tracked_sources_are_live (w : World) (n : nat) :
  reachable w ->
  In n (sourcesRef (refs w)) ->
  (exists t d, In (SourceStart n t d) (calls (host w))) /\
  ~ In (SourceStop n) (calls (host w)).
Proof. intros Hr. exact (reachable_tracked w Hr n). Qed.

Lemma tracked_sources_are_live_witness :
  reachable playingWorld /\
  In 5%nat (sourcesRef (refs playingWorld)) /\
  (exists t d, In (SourceStart 5 t d) (calls (host playingWorld))) /\
  ~ In (SourceStop 5) (calls (host playingWorld)).
Proof.
  assert (H1 : reachable playingWorld) by (eexists; reflexivity).
  assert (H2 : In 5%nat (sourcesRef (refs playingWorld))) by (now left).
  split; [exact H1|]. split; [exact H2|].
  exact (tracked_sources_are_live _ _ H1 H2).
Defined.

(** ** Sessions, event by event *)

Lemma sessions_stopped w :
  sessions (host (stopped w))
  = queueOn (sessionPromiseRef (refs w)) CloseSession (sessions (host w)).
Proof. now destruct (stopped_host w) as [-> _]. Qed.

Lemma sessions_afterEvent w e :
  sessions (host (afterEvent w e)) = sessionsAfter w e /\
  sessionPromiseRef (refs (afterEvent w e)) = sessionRefAfter w e.
Proof.
  destruct e as [| |k o|sid|sid now m|sid msg|sid|sid ok|sid throws|p d|n];
    unfold afterEvent, sessionsAfter, sessionRefAfter, stops, connects.
  - destruct (isSessionActive (ui w));
      [split; [apply sessions_stopped | now destruct w] | now split].
  - split; [apply sessions_stopped | now destruct w].
  - destruct (nth_error (startCalls (host w)) k) as [c|];
      [|destruct o; now split].
    destruct (awaiting c); [|destruct o; now split].
    destruct w as [u r [ss ps sc n cs]]. destruct o; split; reflexivity.
  - destruct (nth_error (sessions (host w)) sid),
      (inputAudioContextRef (refs w)); now split.
  - destruct (nth_error (sessions (host w)) sid) as [s|]; [|now split].
    rewrite <- exec_onmessage.
    destruct (onmessage_frame s now m w) as [Hr [_ [Hs _]]].
    split; [exact Hs|]. unfold captureRefs in Hr. now injection Hr.
  - destruct (nth_error (sessions (host w)) sid) as [s|]; [|now split].
    split; [now rewrite sessions_stopped | now destruct w].
  - destruct (nth_error (sessions (host w)) sid) as [s|]; [|now split].
    split; [apply sessions_stopped | now destruct w].
  - now split.
  - unfold jobDone.
    destruct (nth_error (sessions (host w)) sid) as [s|]; [|now split].
    destruct (promise s), (reactions s) as [|r rest]; now split.
  - destruct (existsb (Nat.eqb p) (processors (host w))); [|now split].
    split; [apply sessions_queue|].
    now destruct (queue_frame (sessionPromiseRef (refs w))
                    (SendRealtimeInput (chunkOf d)) w) as [_ [-> _]].
  - now split.
Qed.

Lemma updateNth_miss {A : Type} (f : A -> A) (l : list A) :
  forall n k, n <> k -> nth_error (updateNth n f l) k = nth_error l k.
Proof.
  induction l as [|x l IH]; intros [|n] [|k] H; cbn; try reflexivity;
    try congruence.
  apply IH. congruence.
Qed.

Lemma nth_error_updateNth_eq {A : Type} (f : A -> A) (l : list A) :
  forall n k,
    nth_error (updateNth n f l) k
    = if Nat.eqb n k then option_map f (nth_error l k) else nth_error l k.
Proof.
  induction l as [|x l IH]; intros [|n] [|k]; cbn; try reflexivity.
  - now destruct (Nat.eqb n k).
  - apply IH.
Qed.

(** ** The order of the chunks *)

Lemma Subseq_refl {A : Type} (l : list A) : Subseq l l.
Proof. induction l; constructor; assumption. Qed.

Lemma Subseq_nil_l {A : Type} (l : list A) : Subseq [] l.
Proof. induction l; constructor; assumption. Qed.

Lemma Subseq_trans {A : Type} (l1 l2 l3 : list A) :
  Subseq l1 l2 -> Subseq l2 l3 -> Subseq l1 l3.
Proof.
  intros H12 H23. revert l1 H12.
  induction H23 as [|x l2 l3 H IH|x l2 l3 H IH]; intros l1 H12.
  - exact H12.
  - inversion H12 as [|y k1 k2 Hk|y k1 k2 Hk]; subst.
    + constructor. now apply IH.
    + apply Subseq_skip. now apply IH.
  - apply Subseq_skip. now apply IH.
Qed.

Lemma Subseq_app {A : Type} (a b c d : list A) :
  Subseq a b -> Subseq c d -> Subseq (a ++ c) (b ++ d).
Proof.
  intros Hab Hcd. induction Hab; cbn; try (constructor; assumption).
  exact Hcd.
Qed.

Lemma Subseq_app_l {A : Type} (a b : list A) : Subseq a (a ++ b).
Proof.
  rewrite <- (app_nil_r a) at 1.
  apply Subseq_app; [apply Subseq_refl | apply Subseq_nil_l].
Qed.

Lemma Subseq_app_r {A : Type} (a b : list A) : Subseq b (a ++ b).
Proof.
  change b with ([] ++ b) at 1.
  apply Subseq_app; [apply Subseq_nil_l | apply Subseq_refl].
Qed.

Lemma sentOn_app sid a b : sentOn sid (a ++ b) = sentOn sid a ++ sentOn sid b.
Proof. unfold sentOn. apply flat_map_app. Qed.

Lemma sentOn_playback sid cs : Forall isPlaybackCall cs -> sentOn sid cs = [].
Proof.
  induction 1 as [|c cs Hc _ IH]; [reflexivity|].
  destruct c; cbn in Hc |- *; try contradiction; exact IH.
Qed.

Lemma sentOn_teardown sid r : sentOn sid (teardownCalls r) = [].
Proof.
  unfold teardownCalls. rewrite !sentOn_app.
  rewrite (sentOn_playback sid (map SourceStop _))
    by apply Forall_map_SourceStop.
  destruct (mediaStreamRef r), (scriptProcessorRef r),
    (mediaStreamSourceRef r), (inputAudioContextRef r),
    (outputAudioContextRef r); reflexivity.
Qed.

Lemma messageCalls_playback now m w : Forall isPlaybackCall (messageCalls now m w).
Proof.
  unfold messageCalls.
  destruct (truthy (audioChunk m)).
  - destruct (outputAudioContextRef (refs w)); [|constructor].
    destruct (audioLength m); [|constructor].
    constructor; [exact I|].
    destruct (interrupted m); [apply Forall_map_SourceStop | constructor].
  - destruct (interrupted m); [apply Forall_map_SourceStop | constructor].
Qed.

Lemma queuedOn_queueOn sid p r ss :
  queuedOn sid (queueOn p r ss)
  = match p, nth_error ss sid with
    | Some n, Some s =>
        if Nat.eqb n sid
        then match promise s with
             | Rejected => queuedSends (reactions s)
             | _ => queuedSends (reactions s) ++ queuedSends [r]
             end
        else queuedSends (reactions s)
    | _, Some s => queuedSends (reactions s)
    | _, None => []
    end.
Proof.
  unfold queuedOn, queueOn. destruct p as [n|]; [|now destruct (nth_error ss sid)].
  rewrite nth_error_updateNth_eq.
  destruct (Nat.eqb n sid), (nth_error ss sid) as [s|]; try reflexivity.
  cbn. unfold enqueue. destruct (promise s); cbn; try reflexivity;
    unfold queuedSends; now rewrite flat_map_app.
Qed.

(** What an event adds to the chunks sent on a session and leaves in its
    queue comes, in order, from what was in the queue and the frame of the
    event. *)
Lemma queue_afterEvent w e sid :
  Subseq (sentOn sid (emitted w e) ++ queuedOn sid (sessionsAfter w e))
    (queuedOn sid (sessions (host w)) ++ capturedBy e).
Proof.
  assert (Hstop : Subseq
            (sentOn sid (teardownCalls (refs w))
             ++ queuedOn sid (queueOn (sessionPromiseRef (refs w))
                                CloseSession (sessions (host w))))
            (queuedOn sid (sessions (host w)) ++ [])).
  { rewrite sentOn_teardown, app_nil_r, queuedOn_queueOn. unfold queuedOn.
    destruct (sessionPromiseRef (refs w)) as [n|],
      (nth_error (sessions (host w)) sid) as [s|]; cbn;
      try apply Subseq_refl.
    destruct (Nat.eqb n sid), (promise s); rewrite ?app_nil_r;
      apply Subseq_refl. }
  assert (Hsame : Subseq ([] ++ queuedOn sid (sessions (host w)))
                    (queuedOn sid (sessions (host w)) ++ []))
    by (rewrite app_nil_r; apply Subseq_refl).
  destruct e as [| |k o|sid0|sid0 now m|sid0 msg|sid0|sid0 ok|sid0 throws|p d|n];
    unfold sessionsAfter, emitted, stops, connects, capturedBy;
    cbn [sentOn flat_map].
  - destruct (isSessionActive (ui w)); [exact Hstop | exact Hsame].
  - exact Hstop.
  - rewrite app_nil_r.
    destruct o; try apply Subseq_refl.
    destruct (nth_error (startCalls (host w)) k) as [c|]; [|apply Subseq_refl].
    destruct (awaiting c); [|apply Subseq_refl].
    unfold queuedOn.
    destruct (Nat.lt_ge_cases sid (length (sessions (host w)))) as [Hlt | Hge].
    + rewrite nth_error_app1 by exact Hlt. apply Subseq_refl.
    + rewrite nth_error_app2 by exact Hge.
      destruct (nth_error (sessions (host w)) sid) eqn:E.
      * apply nth_error_None in Hge. congruence.
      * destruct (sid - length (sessions (host w)))%nat as [|j]; cbn;
          [constructor | destruct j; constructor].
  - exact Hsame.
  - destruct (nth_error (sessions (host w)) sid0); [|exact Hsame].
    destruct (malformed m); [exact Hsame|].
    rewrite (sentOn_playback sid _ (messageCalls_playback now m w)).
    exact Hsame.
  - destruct (nth_error (sessions (host w)) sid0); [exact Hstop | exact Hsame].
  - destruct (nth_error (sessions (host w)) sid0); [exact Hstop | exact Hsame].
  - rewrite app_nil_r. unfold queuedOn. rewrite nth_error_updateNth_eq.
    destruct (Nat.eqb sid0 sid), (nth_error (sessions (host w)) sid) as [s|];
      cbn; try apply Subseq_refl.
    unfold settled. destruct (promise s), ok; cbn;
      try apply Subseq_refl; apply Subseq_nil_l.
  - rewrite app_nil_r.
    destruct (nth_error (sessions (host w)) sid0) as [s|] eqn:Es;
      [|apply Subseq_refl].
    destruct (promise s) eqn:Ep; try apply Subseq_refl.
    destruct (reactions s) as [|r rest] eqn:Er; [apply Subseq_refl|].
    unfold queuedOn. rewrite nth_error_updateNth_eq.
    destruct (Nat.eqb_spec sid0 sid) as [<- | Hne].
    + rewrite Es. cbn [option_map reactions set_reactions]. rewrite Er.
      destruct throws, r as [|media]; cbn; rewrite ?Nat.eqb_refl; cbn;
        try apply Subseq_refl.
      apply Subseq_skip, Subseq_refl.
    + assert (E : sentOn sid (if throws then [] else [reactionCall sid0 r]) = []).
      { destruct throws, r as [|media]; cbn; try reflexivity.
        apply Nat.eqb_neq in Hne. now rewrite Hne. }
      rewrite E. apply Subseq_refl.
  - destruct (existsb (Nat.eqb p) (processors (host w)));
      [|apply Subseq_app_l].
    rewrite queuedOn_queueOn. unfold queuedOn. cbn [app].
    destruct (sessionPromiseRef (refs w)) as [n|],
      (nth_error (sessions (host w)) sid) as [s|]; cbn;
      try apply Subseq_app_l; try apply Subseq_nil_l.
    destruct (Nat.eqb n sid), (promise s); cbn;
      try apply Subseq_app_l; apply Subseq_refl.
  - exact Hsame.
Qed.

Lemma run_capture_order evs :
  forall sid,
    Subseq (sentOn sid (calls (host (run evs initial)))
            ++ queuedOn sid (sessions (host (run evs initial))))
      (captured evs).
Proof.
  induction evs as [|e evs IH] using rev_ind; intros sid.
  - unfold queuedOn. cbn. destruct sid; constructor.
  - rewrite run_snoc, step_afterEvent.
    set (w := run evs initial) in *.
    rewrite calls_afterEvent, sentOn_app.
    destruct (sessions_afterEvent w e) as [-> _].
    unfold captured. rewrite flat_map_app. cbn [flat_map].
    rewrite app_nil_r, <- app_assoc.
    eapply Subseq_trans.
    + apply Subseq_app; [apply Subseq_refl | apply queue_afterEvent].
    + rewrite app_assoc. apply Subseq_app; [apply IH | apply Subseq_refl].
Qed.

(** X17. Frames are sent in the order of their capture: along any trace
    from the mount, the chunks sent on a session, followed by the chunks
    that still wait on its promise, are chunks of captured frames in the
    order of capture, none twice for one frame; a frame may be left out
    (dropped), never overtaken. *)
Theorem sends_in_capture_order (evs : list Event) (sid : nat) :
  Subseq (sentOn sid (calls (host (run evs initial)))
          ++ queuedOn sid (sessions (host (run evs initial))))
    (captured evs).
Proof. exact (run_capture_order evs sid). Qed.

Example capture_order_example :
  let evs := [Click; MediaSettled 0 Connecting; SessionOpen 0;
              AudioProcess 4 [1 # 2]; AudioProcess 4 [1 # 4];
              AudioProcess 4 [1 # 8]; Settled 0 true;
              Job 0 false; Job 0 true] in
  sentOn 0 (calls (host (run evs initial))) = [chunkOf [1 # 2]] /\
  queuedOn 0 (sessions (host (run evs initial))) = [chunkOf [1 # 8]] /\
  captured evs = [chunkOf [1 # 2]; chunkOf [1 # 4]; chunkOf [1 # 8]].
Proof. vm_compute. repeat split. Qed.

(** ** Closing a session *)

Lemma closeCalls_app sid a b :
  closeCalls sid (a ++ b) = (closeCalls sid a + closeCalls sid b)%nat.
Proof. unfold closeCalls. now rewrite filter_app, length_app. Qed.

Lemma closeCalls_playback sid cs :
  Forall isPlaybackCall cs -> closeCalls sid cs = O.
Proof.
  induction 1 as [|c cs Hc _ IH]; [reflexivity|].
  destruct c; cbn in Hc |- *; try contradiction; exact IH.
Qed.

Lemma closeCalls_teardown sid r : closeCalls sid (teardownCalls r) = O.
Proof.
  unfold teardownCalls. rewrite !closeCalls_app.
  rewrite (closeCalls_playback sid (map SourceStop _))
    by apply Forall_map_SourceStop.
  destruct (mediaStreamRef r), (scriptProcessorRef r),
    (mediaStreamSourceRef r), (inputAudioContextRef r),
    (outputAudioContextRef r); reflexivity.
Qed.

Lemma length_updateNth {A : Type} (f : A -> A) (l : list A) :
  forall n, length (updateNth n f l) = length l.
Proof.
  induction l as [|x l IH]; intros [|n]; cbn; try reflexivity.
  now rewrite IH.
Qed.

Lemma length_sessionsAfter w e :
  (length (sessions (host w)) <= length (sessionsAfter w e))%nat.
Proof.
  unfold sessionsAfter, queueOn.
  destruct (stops w e).
  - destruct (sessionPromiseRef (refs w)); rewrite ?length_updateNth; lia.
  - destruct e; try lia.
    + destruct (connects w (MediaSettled k o)); rewrite ?length_app; cbn; lia.
    + rewrite length_updateNth. lia.
    + destruct (nth_error (sessions (host w)) sid) as [s|]; [|lia].
      destruct (promise s), (reactions s); rewrite ?length_updateNth; lia.
    + destruct (existsb (Nat.eqb processor) (processors (host w))); [|lia].
      destruct (sessionPromiseRef (refs w)); rewrite ?length_updateNth; lia.
Qed.

Lemma pendingCloses_queueOn sid p r ss :
  pendingCloses sid (queueOn p r ss)
  = match p, nth_error ss sid with
    | Some n, Some s =>
        if Nat.eqb n sid
        then match promise s with
             | Rejected => length (filter isClose (reactions s))
             | _ => (length (filter isClose (reactions s))
                     + (if isClose r then 1 else 0))%nat
             end
        else length (filter isClose (reactions s))
    | _, Some s => length (filter isClose (reactions s))
    | _, None => O
    end.
Proof.
  unfold pendingCloses, queueOn.
  destruct p as [n|]; [|now destruct (nth_error ss sid)].
  rewrite nth_error_updateNth_eq.
  destruct (Nat.eqb n sid), (nth_error ss sid) as [s|]; try reflexivity.
  cbn. unfold enqueue. destruct (promise s); cbn; try reflexivity;
    rewrite filter_app, length_app; cbn; now destruct (isClose r).
Qed.

(** An event adds a close to a session only by stopping while the session
    is the one in the ref. *)
Lemma closes_afterEvent w e sid :
  (pendingCloses sid (sessionsAfter w e) + closeCalls sid (emitted w e)
   <= pendingCloses sid (sessions (host w))
      + (if stops w e
         then match sessionPromiseRef (refs w) with
              | Some n => if Nat.eqb n sid then 1 else 0
              | None => 0
              end
         else 0))%nat /\
  (nth_error (sessions (host w)) sid = None ->
   closeCalls sid (emitted w e) = O).
Proof.
  assert (Hstop :
    (pendingCloses sid (queueOn (sessionPromiseRef (refs w)) CloseSession
                          (sessions (host w)))
     + closeCalls sid (teardownCalls (refs w))
     <= pendingCloses sid (sessions (host w))
        + match sessionPromiseRef (refs w) with
          | Some n => if Nat.eqb n sid then 1 else 0
          | None => 0
          end)%nat /\
    (nth_error (sessions (host w)) sid = None ->
     closeCalls sid (teardownCalls (refs w)) = O)).
  { rewrite closeCalls_teardown, pendingCloses_queueOn. unfold pendingCloses.
    split; [|reflexivity].
    destruct (sessionPromiseRef (refs w)) as [n|],
      (nth_error (sessions (host w)) sid) as [s|]; cbn; try lia.
    destruct (Nat.eqb n sid), (promise s); cbn; lia. }
  unfold sessionsAfter, emitted.
  destruct (stops w e) eqn:Est.
  - destruct e; cbn in Est; try discriminate.
    + rewrite Est. exact Hstop.
    + exact Hstop.
    + destruct (nth_error (sessions (host w)) sid0); [exact Hstop | discriminate].
    + destruct (nth_error (sessions (host w)) sid0); [exact Hstop | discriminate].
  - rewrite Nat.add_0_r.
    destruct e as [| |k o|sid0|sid0 now m|sid0 msg|sid0|sid0 ok|sid0 throws|p d|n];
      cbn in Est; cbn [closeCalls filter length]; rewrite ?Nat.add_0_r;
      try (split; [apply Nat.le_refl | reflexivity]).
    + rewrite Est. cbn. split; [lia | reflexivity].
    + discriminate.
    + split; [|reflexivity].
      destruct (connects w (MediaSettled k o)) as [c|]; [|apply Nat.le_refl].
      unfold pendingCloses.
      destruct (Nat.lt_ge_cases sid (length (sessions (host w)))) as [Hlt | Hge].
      * rewrite nth_error_app1 by exact Hlt. apply Nat.le_refl.
      * rewrite nth_error_app2 by exact Hge.
        destruct (sid - length (sessions (host w)))%nat as [|j]; cbn;
          [lia | destruct j; cbn; lia].
    + destruct (nth_error (sessions (host w)) sid0);
        [|cbn; split; [lia | reflexivity]].
      destruct (malformed m); [cbn; split; [lia | reflexivity]|].
      rewrite (closeCalls_playback sid _ (messageCalls_playback now m w)).
      split; [lia | reflexivity].
    + destruct (nth_error (sessions (host w)) sid0); [discriminate|].
      cbn. split; [lia | reflexivity].
    + destruct (nth_error (sessions (host w)) sid0); [discriminate|].
      cbn. split; [lia | reflexivity].
    + split; [|reflexivity].
      unfold pendingCloses. rewrite nth_error_updateNth_eq.
      destruct (Nat.eqb sid0 sid), (nth_error (sessions (host w)) sid) as [s|];
        cbn; try lia.
      unfold settled. destruct (promise s), ok; cbn; lia.
    + destruct (nth_error (sessions (host w)) sid0) as [s|] eqn:Es;
        [|cbn; split; [lia | reflexivity]].
      destruct (promise s) eqn:Ep; try (cbn; split; [lia | reflexivity]).
      destruct (reactions s) as [|r rest] eqn:Er;
        [cbn; split; [lia | reflexivity]|].
      unfold pendingCloses. rewrite nth_error_updateNth_eq.
      destruct (Nat.eqb_spec sid0 sid) as [<- | Hne].
      * rewrite Es. cbn [option_map reactions set_reactions]. rewrite Er.
        split; [|discriminate].
        destruct throws, r as [|media]; cbn; rewrite ?Nat.eqb_refl; cbn; lia.
      * assert (E : closeCalls sid
                      (if throws then [] else [reactionCall sid0 r]) = O).
        { destruct throws, r as [|media]; cbn; try reflexivity.
          apply Nat.eqb_neq in Hne. now rewrite Hne. }
        rewrite E. split; [lia | reflexivity].
    + split; [|reflexivity].
      destruct (existsb (Nat.eqb p) (processors (host w))); [|lia].
      rewrite pendingCloses_queueOn. unfold pendingCloses.
      destruct (sessionPromiseRef (refs w)) as [k|],
        (nth_error (sessions (host w)) sid) as [s|]; cbn; try lia.
      destruct (Nat.eqb k sid), (promise s); cbn; lia.
Qed.

Lemma reachable_closes w :
  reachable w ->
  (forall sid,
     (pendingCloses sid (sessions (host w))
      + closeCalls sid (calls (host w)) <= 1)%nat) /\
  (forall sid,
     sessionPromiseRef (refs w) = Some sid ->
     (pendingCloses sid (sessions (host w))
      + closeCalls sid (calls (host w)) = 0)%nat) /\
  (forall sid,
     nth_error (sessions (host w)) sid = None ->
     closeCalls sid (calls (host w)) = O).
Proof.
  apply (reachable_ind (fun w =>
    (forall sid,
       (pendingCloses sid (sessions (host w))
        + closeCalls sid (calls (host w)) <= 1)%nat) /\
    (forall sid,
       sessionPromiseRef (refs w) = Some sid ->
       (pendingCloses sid (sessions (host w))
        + closeCalls sid (calls (host w)) = 0)%nat) /\
    (forall sid,
       nth_error (sessions (host w)) sid = None ->
       closeCalls sid (calls (host w)) = O))).
  - repeat split; intros sid; try (destruct sid; cbn; lia); discriminate.
  - clear w. intros w e _ (Hone & Href & Hnone).
    rewrite calls_afterEvent.
    destruct (sessions_afterEvent w e) as [-> ->].
    assert (Hmiss : forall sid,
              nth_error (sessionsAfter w e) sid = None ->
              nth_error (sessions (host w)) sid = None).
    { intros sid H. apply nth_error_None. apply nth_error_None in H.
      pose proof (length_sessionsAfter w e). lia. }
    repeat split; intros sid; rewrite closeCalls_app.
    + destruct (closes_afterEvent w e sid) as [Hle _].
      specialize (Hone sid). specialize (Href sid).
      destruct (stops w e); [|lia].
      destruct (sessionPromiseRef (refs w)) as [n|]; [|lia].
      destruct (Nat.eqb_spec n sid) as [-> | _]; [|lia].
      specialize (Href eq_refl). lia.
    + unfold sessionRefAfter. intros H.
      destruct (closes_afterEvent w e sid) as [Hle _].
      destruct (stops w e); [discriminate|].
      destruct (connects w e) as [c|].
      * injection H as <-.
        assert (E : nth_error (sessions (host w))
                      (length (sessions (host w))) = None)
          by (apply nth_error_None; lia).
        specialize (Hnone _ E). unfold pendingCloses in Hle at 2.
        rewrite E in Hle. lia.
      * specialize (Href sid H). lia.
    + intros H. apply Hmiss in H.
      destruct (closes_afterEvent w e sid) as [_ Hz].
      rewrite (Hnone sid H), (Hz H). reflexivity.
Qed.

(** X16. Over any sequence of events, [close] is called at most once on a
    session; a close that still waits for the session promise counts, so a
    session with a close under way never gets a second one. *)
Theorem close_at_most_once (evs : list Event) (sid : nat) :
  (closeCalls sid (calls (host (run evs initial)))
   + pendingCloses sid (sessions (host (run evs initial))) <= 1)%nat.
Proof.
  destruct (reachable_closes (run evs initial)) as [H _]; [now exists evs|].
  specialize (H sid). lia.
Qed.

(** ** After a stop *)

(** With no session promise in the ref, an event queues nothing. *)
Lemma queue_afterEvent_stopped w e sid :
  sessionPromiseRef (refs w) = None ->
  notMediaSettled e ->
  sessionPromiseRef (refs (afterEvent w e)) = None /\
  Subseq (sentOn sid (emitted w e) ++ queuedOn sid (sessionsAfter w e))
    (queuedOn sid (sessions (host w))).
Proof.
  intros Href He. split.
  - destruct (sessions_afterEvent w e) as [_ ->]. unfold sessionRefAfter.
    destruct (stops w e); [reflexivity|].
    destruct e; try exact Href. contradiction.
  - pose proof (queue_afterEvent w e sid) as H.
    destruct e as [| |k o|sid0|sid0 now m|sid0 msg|sid0|sid0 ok|sid0 throws|p d|n];
      cbn [capturedBy] in H; rewrite ?app_nil_r in H; try exact H.
    unfold emitted, sessionsAfter. cbn [stops sentOn flat_map app].
    rewrite Href. cbn [queueOn].
    destruct (existsb (Nat.eqb p) (processors (host w))); apply Subseq_refl.
Qed.

Lemma run_stopped evs (l : list GenAIBlob) :
  forall w,
    sessionPromiseRef (refs w) = None ->
    Forall notMediaSettled evs ->
    (forall sid,
        Subseq (sentOn sid (calls (host w)) ++ queuedOn sid (sessions (host w)))
          l) ->
    forall sid,
      Subseq (sentOn sid (calls (host (run evs w)))
              ++ queuedOn sid (sessions (host (run evs w)))) l.
Proof.
  induction evs as [|e evs IH]; intros w Href He Hw; [exact Hw|].
  inversion He as [|? ? H1 H2]; subst.
  rewrite run_cons, step_afterEvent.
  apply IH;
    [exact (proj1 (queue_afterEvent_stopped w e O Href H1)) | exact H2 |].
  intros sid.
  rewrite calls_afterEvent, sentOn_app, <- app_assoc.
  destruct (sessions_afterEvent w e) as [-> _].
  eapply Subseq_trans; [|apply (Hw sid)].
  apply Subseq_app; [apply Subseq_refl|].
  exact (proj2 (queue_afterEvent_stopped w e sid Href H1)).
Qed.

Lemma run_app evs1 evs2 w : run (evs1 ++ evs2) w = run evs2 (run evs1 w).
Proof. apply fold_left_app. Qed.

Lemma capturedBy_stops w e : stops w e = true -> capturedBy e = [].
Proof. destruct e; cbn; congruence. Qed.

(** X18. Once the session is stopped (by the button, an error, a close or
    the unmount), the frames the microphone still delivers are not sent:
    until a pending [getUserMedia] answers, everything sent or waiting to be
    sent on any session was captured before the stop. *)
Theorem frames_after_stop_not_sent (evs1 evs2 : list Event) (e : Event)
    (sid : nat) :
  stops (run evs1 initial) e = true ->
  Forall notMediaSettled evs2 ->
  Subseq
    (sentOn sid (calls (host (run (evs1 ++ e :: evs2) initial)))
     ++ queuedOn sid (sessions (host (run (evs1 ++ e :: evs2) initial))))
    (captured evs1).
Proof.
  intros Hstop He.
  rewrite run_app, run_cons.
  apply run_stopped; [| exact He |].
  - rewrite step_afterEvent.
    destruct (sessions_afterEvent (run evs1 initial) e) as [_ ->].
    unfold sessionRefAfter. now rewrite Hstop.
  - intros sid'.
    pose proof (run_capture_order (evs1 ++ [e]) sid') as H.
    rewrite run_snoc in H. unfold captured in H.
    rewrite flat_map_app in H. cbn [flat_map] in H.
    rewrite (capturedBy_stops _ _ Hstop), !app_nil_r in H. exact H.
Qed.

Lemma frames_after_stop_not_sent_witness :
  Subseq
    (sentOn 0
       (calls (host (run ([Click; MediaSettled 0 Connecting; SessionOpen 0;
                           Settled 0 true; AudioProcess 4 [1 # 2]]
                          ++ Click :: [AudioProcess 4 [1 # 4]; Job 0 false])
                       initial)))
     ++ queuedOn 0
          (sessions (host (run ([Click; MediaSettled 0 Connecting;
                                 SessionOpen 0; Settled 0 true;
                                 AudioProcess 4 [1 # 2]]
                                ++ Click :: [AudioProcess 4 [1 # 4];
                                             Job 0 false])
                             initial))))
    (captured [Click; MediaSettled 0 Connecting; SessionOpen 0;
               Settled 0 true; AudioProcess 4 [1 # 2]]).
Proof.
  apply (frames_after_stop_not_sent
           [Click; MediaSettled 0 Connecting; SessionOpen 0; Settled 0 true;
            AudioProcess 4 [1 # 2]]
           [AudioProcess 4 [1 # 4]; Job 0 false] Click 0).
  - vm_compute. reflexivity.
  - repeat constructor.
Defined.

(** ** What the page shows *)

Lemma ui_messaged s now m w :
  isSessionActive (ui (messaged s now m w)) = isSessionActive (ui w) /\
  error (ui (messaged s now m w)) = error (ui w) /\
  exists l, transcripts (ui (messaged s now m w)) = transcripts (ui w) ++ l.
Proof.
  unfold messaged, transcribed, flushedIf.
  destruct w as [[a er ts ci co] [p st i oc sp ms t srcs] [ss ps sc n cs]].
  cbn [refs outputAudioContextRef].
  destruct (truthy (audioChunk m)).
  - destruct oc as [c|];
      [|repeat split; exists []; cbn; now rewrite app_nil_r].
    destruct (audioLength m) as [d|];
      [|repeat split; exists []; cbn; now rewrite app_nil_r].
    destruct (interrupted m), (turnComplete m); cbn; repeat split;
      first [ now eexists | exists []; now rewrite app_nil_r ].
  - destruct (interrupted m), (turnComplete m); cbn; repeat split;
      first [ now eexists | exists []; now rewrite app_nil_r ].
Qed.

(** How an event changes what the page shows: the active flag, the error
    and the transcript. *)
Lemma ui_afterEvent w e :
  (error (ui (afterEvent w e)) <> None ->
   isSessionActive (ui (afterEvent w e)) = true ->
   error (ui w) <> None /\ isSessionActive (ui w) = true) /\
  ((e = Click /\ isSessionActive (ui w) = false) \/
   exists l, transcripts (ui (afterEvent w e)) = transcripts (ui w) ++ l).
Proof.
  assert (Hsame : forall w' : World,
            ui w' = ui w ->
            (error (ui w') <> None -> isSessionActive (ui w') = true ->
             error (ui w) <> None /\ isSessionActive (ui w) = true) /\
            ((e = Click /\ isSessionActive (ui w) = false) \/
             exists l, transcripts (ui w') = transcripts (ui w) ++ l)).
  { intros w' ->. split; [now split|]. right. exists []. now rewrite app_nil_r. }
  assert (Hstop : forall w0 : World,
            transcripts (ui w0) = transcripts (ui w) ->
            (error (ui (stopped w0)) <> None ->
             isSessionActive (ui (stopped w0)) = true ->
             error (ui w) <> None /\ isSessionActive (ui w) = true) /\
            ((e = Click /\ isSessionActive (ui w) = false) \/
             exists l, transcripts (ui (stopped w0)) = transcripts (ui w) ++ l)).
  { intros w0 E. split.
    - intros _ H. destruct w0 as [u [p st i oc sp ms t srcs] h].
      destruct p; cbn in H; discriminate.
    - right. exists []. rewrite app_nil_r, <- E.
      destruct w0 as [u [p st i oc sp ms t srcs] h]. now destruct p. }
  destruct e as [| |k o|sid|sid now m|sid msg|sid|sid ok|sid throws|p d|n];
    unfold afterEvent.
  - destruct (isSessionActive (ui w)) eqn:Ea; [now apply Hstop|].
    split; [|left; now split].
    intros H _. now destruct w.
  - now apply Hstop.
  - destruct (nth_error (startCalls (host w)) k) as [c|]; [|now apply Hsame].
    destruct (awaiting c); [|now apply Hsame].
    destruct o as [msg|msg|]; [| |apply Hsame; now destruct w].
    + split; [intros _ H; now destruct w|].
      right. exists []. rewrite app_nil_r. now destruct w.
    + split; [intros _ H; now destruct w|].
      right. exists []. rewrite app_nil_r. now destruct w.
  - destruct (nth_error (sessions (host w)) sid), (inputAudioContextRef (refs w));
      apply Hsame; reflexivity.
  - destruct (nth_error (sessions (host w)) sid) as [s|]; [|now apply Hsame].
    destruct (malformed m); [now apply Hsame|].
    destruct (ui_messaged s now m w) as (-> & -> & Hl).
    split; [now split | now right].
  - destruct (nth_error (sessions (host w)) sid) as [s|]; [|now apply Hsame].
    apply Hstop. now destruct w.
  - destruct (nth_error (sessions (host w)) sid) as [s|]; [|now apply Hsame].
    now apply Hstop.
  - apply Hsame. now destruct w.
  - apply Hsame. unfold jobDone.
    destruct (nth_error (sessions (host w)) sid) as [s|]; [|reflexivity].
    destruct (promise s), (reactions s); reflexivity.
  - destruct (existsb (Nat.eqb p) (processors (host w))); apply Hsame;
      [|reflexivity].
    destruct w as [u [q st i oc sp ms t srcs] h]. now destruct q.
  - apply Hsame. now destruct w.
Qed.

(** X19. An error message is never shown while the session is shown as
    active: on any trace from the mount, when [error] is set,
    [isSessionActive] is false. *)
Theorem error_only_when_inactive (evs : list Event) :
  error (ui (run evs initial)) <> None ->
  isSessionActive (ui (run evs initial)) = false.
Proof.
  assert (H : reachable (run evs initial)) by now exists evs.
  revert H. generalize (run evs initial). clear evs.
  apply (reachable_ind (fun w =>
           error (ui w) <> None -> isSessionActive (ui w) = false)).
  - intros H. now contradiction H.
  - intros w e _ IH Herr.
    destruct (isSessionActive (ui (afterEvent w e))) eqn:Ea; [|reflexivity].
    destruct (ui_afterEvent w e) as [H _].
    destruct (H Herr Ea) as [H1 H2]. rewrite (IH H1) in H2. discriminate.
Qed.

Lemma error_only_when_inactive_witness :
  isSessionActive
    (ui (run [Click; MediaSettled 0 (MediaDenied "Permission denied")]
           initial)) = false.
Proof.
  apply (error_only_when_inactive
           [Click; MediaSettled 0 (MediaDenied "Permission denied")]).
  vm_compute. discriminate.
Defined.

(** X20. Only the start of a conversation takes turns off the transcript:
    any other event (a stop, an error, a close, the unmount, a message)
    leaves the turns shown and at most appends to them. *)
Theorem transcript_kept (w : World) (e : Event) :
  (e = Click /\ isSessionActive (ui w) = false) \/
  exists l, transcripts (ui (step w e)) = transcripts (ui w) ++ l.
Proof. rewrite step_afterEvent. exact (proj2 (ui_afterEvent w e)). Qed.

(** ** The microphone *)

Lemma In_TrackStop_teardown s r :
  In (TrackStop s) (teardownCalls r) -> mediaStreamRef r = Some s.
Proof.
  unfold teardownCalls. rewrite !in_app_iff.
  intros [H | [H | [H | [H | [H | H]]]]];
    try (match type of H with
         | In _ (optCall _ ?o) => destruct o; cbn in H
         end; [destruct H as [H | []]; congruence | contradiction]).
  apply in_map_iff in H. destruct H as [n [H _]]. discriminate.
Qed.

(** How an event changes the stream in the ref, and which stream it stops. *)
Lemma stream_afterEvent w e s :
  (mediaStreamRef (refs (afterEvent w e)) = Some s ->
   mediaStreamRef (refs w) = Some s
   \/ (s = nextId (host w)
       /\ (nextId (host w) < nextId (host (afterEvent w e)))%nat)) /\
  (In (TrackStop s) (emitted w e) ->
   mediaStreamRef (refs w) = Some s
   /\ mediaStreamRef (refs (afterEvent w e)) = None).
Proof.
  assert (Hstop : forall w0 : World,
            refs w0 = refs w ->
            (mediaStreamRef (refs (stopped w0)) = Some s ->
             mediaStreamRef (refs w) = Some s
             \/ (s = nextId (host w)
                 /\ (nextId (host w) < nextId (host (stopped w0)))%nat)) /\
            (In (TrackStop s) (teardownCalls (refs w)) ->
             mediaStreamRef (refs w) = Some s
             /\ mediaStreamRef (refs (stopped w0)) = None)).
  { intros w0 E. split.
    - intros H. destruct w0 as [u [p st i oc sp ms t srcs] h].
      destruct p; discriminate.
    - intros H. split; [now apply In_TrackStop_teardown|].
      destruct w0 as [u [p st i oc sp ms t srcs] h]. now destruct p. }
  assert (Hsame : forall w' : World,
            mediaStreamRef (refs w') = mediaStreamRef (refs w) ->
            (mediaStreamRef (refs w') = Some s ->
             mediaStreamRef (refs w) = Some s
             \/ (s = nextId (host w)
                 /\ (nextId (host w) < nextId (host w'))%nat)) /\
            (In (TrackStop s) [] ->
             mediaStreamRef (refs w) = Some s
             /\ mediaStreamRef (refs w') = None)).
  { intros w' ->. split; [now left | intros []]. }
  destruct e as [| |k o|sid|sid now m|sid msg|sid|sid ok|sid throws|p d|n];
    unfold afterEvent, emitted.
  - destruct (isSessionActive (ui w)); [now apply Hstop|].
    apply Hsame. now destruct w.
  - now apply Hstop.
  - split; [|intros []].
    destruct (nth_error (startCalls (host w)) k) as [c|]; [|now left].
    destruct (awaiting c); [|now left].
    destruct w as [u r [ss ps sc n cs]].
    destruct o; cbn; intros H; first [now left | right; split; [congruence | lia]].
  - destruct (nth_error (sessions (host w)) sid), (inputAudioContextRef (refs w));
      apply Hsame; reflexivity.
  - destruct (nth_error (sessions (host w)) sid) as [s0|]; [|now apply Hsame].
    destruct (malformed m); [now apply Hsame|].
    split.
    + intros H. left. rewrite <- H. unfold messaged, transcribed, flushedIf.
      destruct w as [u [q st i oc sp ms t srcs] h].
      cbn [refs outputAudioContextRef].
      destruct (truthy (audioChunk m)), oc, (audioLength m), (interrupted m);
        reflexivity.
    + intros H. exfalso.
      pose proof (messageCalls_playback now m w) as Hp.
      rewrite Forall_forall in Hp. exact (Hp _ H).
  - destruct (nth_error (sessions (host w)) sid); [|now apply Hsame].
    apply Hstop. now destruct w.
  - destruct (nth_error (sessions (host w)) sid); [|now apply Hsame].
    now apply Hstop.
  - apply Hsame. now destruct w.
  - unfold jobDone.
    destruct (nth_error (sessions (host w)) sid) as [s0|]; [|now apply Hsame].
    destruct (promise s0); try now apply Hsame.
    destruct (reactions s0) as [|r rest]; [now apply Hsame|].
    split; [intros H; left; now destruct w|].
    intros H. exfalso. destruct throws, r; cbn in H; intuition discriminate.
  - destruct (existsb (Nat.eqb p) (processors (host w))); apply Hsame;
      [|reflexivity].
    destruct w as [u [q st i oc sp ms t srcs] h]. now destruct q.
  - apply Hsame. now destruct w.
Qed.

(** Streams are numbered as they come: the stream in the ref is known, and
    a stream that was stopped is not the one in the ref. *)
Lemma reachable_streams w :
  reachable w ->
  (forall s, mediaStreamRef (refs w) = Some s -> (s < nextId (host w))%nat) /\
  (forall s, In (TrackStop s) (calls (host w)) ->
             (s < nextId (host w))%nat /\ mediaStreamRef (refs w) <> Some s).
Proof.
  apply (reachable_ind (fun w =>
    (forall s, mediaStreamRef (refs w) = Some s -> (s < nextId (host w))%nat) /\
    (forall s, In (TrackStop s) (calls (host w)) ->
               (s < nextId (host w))%nat /\ mediaStreamRef (refs w) <> Some s))).
  - split; [discriminate | intros s []].
  - clear w. intros w e _ [Href Hcalls].
    pose proof (nextId_afterEvent w e) as Hle.
    assert (Hnew : forall s,
              mediaStreamRef (refs (afterEvent w e)) = Some s ->
              (s < nextId (host (afterEvent w e)))%nat).
    { intros s H. destruct (stream_afterEvent w e s) as [H1 _].
      destruct (H1 H) as [H2 | [-> H2]]; [|exact H2].
      specialize (Href s H2). lia. }
    split; [exact Hnew|].
    intros s H. rewrite calls_afterEvent in H. apply in_app_or in H.
    destruct (stream_afterEvent w e s) as [H1 H2].
    destruct H as [H | H].
    + destruct (Hcalls s H) as [Hlt Hne]. split; [lia|].
      intros E. destruct (H1 E) as [E' | [-> _]]; [now apply Hne | lia].
    + destruct (H2 H) as [E1 E2]. specialize (Href s E1).
      split; [lia | congruence].
Qed.

(** A stream that is known and not in the ref is never stopped. *)
Lemma run_lost_stream s evs :
  forall w,
    mediaStreamRef (refs w) <> Some s ->
    (s < nextId (host w))%nat ->
    In (TrackStop s) (calls (host (run evs w))) ->
    In (TrackStop s) (calls (host w)).
Proof.
  induction evs as [|e evs IH]; intros w Hne Hlt H; [exact H|].
  rewrite run_cons, step_afterEvent in H.
  destruct (stream_afterEvent w e s) as [H1 H2].
  pose proof (nextId_afterEvent w e) as Hle.
  apply IH in H.
  - rewrite calls_afterEvent in H. apply in_app_or in H.
    destruct H as [H | H]; [exact H|].
    destruct (H2 H) as [E _]. now contradiction Hne.
  - intros E. destruct (H1 E) as [E' | [-> _]]; [now apply Hne | lia].
  - lia.
Qed.

Lemma resumed_stream c o k w :
  acquires o = true ->
  mediaStreamRef (refs (resumed c o (marked k w))) = Some (nextId (host w)) /\
  (nextId (host w) < nextId (host (resumed c o (marked k w))))%nat /\
  calls (host (resumed c o (marked k w))) = calls (host w).
Proof.
  intros Ho. destruct w as [u r [ss ps sc n cs]].
  destruct o; [discriminate | |]; cbn; repeat split; lia.
Qed.

(** X21. A start whose [getUserMedia] answers while a stream is still in
    the ref overwrites the ref without stopping that stream, and nothing
    ever stops it afterwards: its microphone track stays live whatever
    follows. *)
Theorem replaced_stream_never_stopped (evs0 evs : list Event) (k s : nat)
    (c : StartCall) (o : StartOutcome) :
  mediaStreamRef (refs (run evs0 initial)) = Some s ->
  nth_error (startCalls (host (run evs0 initial))) k = Some c ->
  awaiting c = true ->
  acquires o = true ->
  ~ In (TrackStop s)
      (calls (host (run (evs0 ++ MediaSettled k o :: evs) initial))).
Proof.
  intros Hs Hk Hc Ho H.
  rewrite run_app, run_cons, step_afterEvent in H.
  set (w := run evs0 initial) in *.
  destruct (reachable_streams w) as [Href Hcalls]; [now exists evs0|].
  specialize (Href s Hs).
  unfold afterEvent in H. rewrite Hk, Hc in H.
  destruct (resumed_stream c o k w Ho) as (E1 & E2 & E3).
  apply run_lost_stream in H.
  - rewrite E3 in H. destruct (Hcalls s H) as [_ Hne]. now apply Hne.
  - rewrite E1. intros E. injection E as E. lia.
  - lia.
Qed.

Lemma replaced_stream_never_stopped_witness :
  ~ In (TrackStop 0)
      (calls (host (run ([Click; Click; Click; MediaSettled 0 Connecting]
                         ++ MediaSettled 1 Connecting
                            :: [SessionOpen 1; Click; Unmount])
                      initial))).
Proof.
  apply (replaced_stream_never_stopped
           [Click; Click; Click; MediaSettled 0 Connecting]
           [SessionOpen 1; Click; Unmount] 1 0
           {| renderInput := EmptyString; renderOutput := EmptyString;
              awaiting := true |} Connecting);
    reflexivity.
Defined.

(** X22. The stop button does not cancel a start that waits for
    [getUserMedia]: when the stream comes after the stop, the start goes
    on, takes the microphone and connects, while the page shows the
    session as inactive; nothing is released. *)
Theorem stop_does_not_cancel_start (w : World) (k : nat) (c : StartCall) :
  isSessionActive (ui w) = true ->
  nth_error (startCalls (host w)) k = Some c ->
  awaiting c = true ->
  isSessionActive (ui (step (step w Click) (MediaSettled k Connecting)))
  = false /\
  mediaStreamRef (refs (step (step w Click) (MediaSettled k Connecting)))
  = Some (nextId (host w)) /\
  sessionPromiseRef (refs (step (step w Click) (MediaSettled k Connecting)))
  = Some (length (sessions (host w))) /\
  calls (host (step (step w Click) (MediaSettled k Connecting)))
  = calls (host (step w Click)).
Proof.
  intros Ha Hk Hc.
  assert (Es : step w Click = stopped w)
    by (rewrite step_afterEvent; unfold afterEvent; now rewrite Ha).
  rewrite Es, step_afterEvent.
  assert (E : startCalls (host (stopped w)) = startCalls (host w)).
  { destruct w as [u [p st i oc sp ms t srcs] h]. now destruct p. }
  unfold afterEvent. rewrite E, Hk, Hc.
  assert (En : nextId (host (stopped w)) = nextId (host w)).
  { destruct w as [u [p st i oc sp ms t srcs] h]. now destruct p. }
  assert (El : length (sessions (host (stopped w)))
               = length (sessions (host w))).
  { rewrite sessions_stopped. unfold queueOn.
    destruct (sessionPromiseRef (refs w)); [apply length_updateNth | reflexivity]. }
  rewrite <- En, <- El.
  generalize (stopped w) (eq_refl : isSessionActive (ui (stopped w)) = false).
  intros [u r [ss ps sc n cs]] Hu. cbn in Hu |- *. repeat split. exact Hu.
Qed.

Lemma stop_does_not_cancel_start_witness :
  isSessionActive
    (ui (step (step (step initial Click) Click) (MediaSettled 0 Connecting)))
  = false /\
  mediaStreamRef
    (refs (step (step (step initial Click) Click) (MediaSettled 0 Connecting)))
  = Some (nextId (host (step initial Click))) /\
  sessionPromiseRef
    (refs (step (step (step initial Click) Click) (MediaSettled 0 Connecting)))
  = Some (length (sessions (host (step initial Click)))) /\
  calls (host (step (step (step initial Click) Click)
                 (MediaSettled 0 Connecting)))
  = calls (host (step (step initial Click) Click)).
Proof.
  apply (stop_does_not_cancel_start (step initial Click) 0
           {| renderInput := EmptyString; renderOutput := EmptyString;
              awaiting := true |});
    reflexivity.
Defined.

(** X23. When the client or [connect] throws after [getUserMedia] gave a
    stream, the [catch] reports the failure and marks the session inactive
    but releases nothing: the stream and both audio contexts stay in the
    refs, and no call is made. *)
Theorem failed_connect_keeps_microphone (w : World) (k : nat) (c : StartCall)
    (message : string) :
  nth_error (startCalls (host w)) k = Some c ->
  awaiting c = true ->
  isSessionActive (ui (step w (MediaSettled k (ClientFails message)))) = false /\
  error (ui (step w (MediaSettled k (ClientFails message))))
  = Some ("Failed to start session: " ++ message)%string /\
  mediaStreamRef (refs (step w (MediaSettled k (ClientFails message))))
  = Some (nextId (host w)) /\
  inputAudioContextRef (refs (step w (MediaSettled k (ClientFails message))))
  = Some (S (nextId (host w))) /\
  outputAudioContextRef (refs (step w (MediaSettled k (ClientFails message))))
  = Some (S (S (nextId (host w)))) /\
  sessionPromiseRef (refs (step w (MediaSettled k (ClientFails message))))
  = sessionPromiseRef (refs w) /\
  calls (host (step w (MediaSettled k (ClientFails message)))) = calls (host w).
Proof.
  intros Hk Hc. rewrite step_afterEvent. unfold afterEvent.
  rewrite Hk, Hc. destruct w as [u r [ss ps sc n cs]]. repeat split.
Qed.

Lemma failed_connect_keeps_microphone_witness :
  mediaStreamRef
    (refs (step (step initial Click)
             (MediaSettled 0 (ClientFails "An API Key must be set"))))
  = Some (nextId (host (step initial Click))) /\
  calls (host (step (step initial Click)
                 (MediaSettled 0 (ClientFails "An API Key must be set"))))
  = calls (host (step initial Click)).
Proof.
  destruct (failed_connect_keeps_microphone (step initial Click) 0
              {| renderInput := EmptyString; renderOutput := EmptyString;
                 awaiting := true |} "An API Key must be set"
              eq_refl eq_refl) as (_ & _ & H1 & _ & _ & _ & H2).
  split; [exact H1 | exact H2].
Defined.

(** ** Starting *)

Lemma inTurn_spec w e :
  inTurn w e = true ->
  forall k, pending w k = true -> answers e k = true.
Proof.
  unfold inTurn. rewrite forallb_forall. intros H k Hk.
  assert (Hlt : (k < length (startCalls (host w)))%nat).
  { unfold pending in Hk. apply nth_error_Some.
    destruct (nth_error (startCalls (host w)) k); [discriminate|].
    discriminate. }
  specialize (H k). rewrite Hk in H. apply H.
  apply in_seq. lia.
Qed.

Lemma gated_same w w' :
  isSessionActive (ui w') = isSessionActive (ui w) ->
  sessionPromiseRef (refs w') = sessionPromiseRef (refs w) ->
  startCalls (host w') = startCalls (host w) ->
  gated w -> gated w'.
Proof.
  unfold gated, pending. intros -> -> ->. exact (fun H => H).
Qed.

Lemma gated_stopped w0 :
  (forall k, pending w0 k = false) -> gated (stopped w0).
Proof.
  intros Hp. split.
  - intros _. destruct w0 as [u [p st i oc sp ms t srcs] h]. now destruct p.
  - intros k Hk. exfalso.
    assert (E : pending (stopped w0) k = pending w0 k).
    { unfold pending. destruct w0 as [u [p st i oc sp ms t srcs] h].
      now destruct p. }
    rewrite E, Hp in Hk. discriminate.
Qed.

Lemma pending_marked k w k' :
  pending (marked k w) k' = if Nat.eqb k k' then false else pending w k'.
Proof.
  unfold pending, marked. destruct w as [u r [ss ps sc n cs]].
  cbn [host startCalls with_host set_startCalls].
  rewrite nth_error_updateNth_eq.
  destruct (Nat.eqb k k'), (nth_error sc k'); reflexivity.
Qed.

Lemma messaged_frame s now m w :
  sessionPromiseRef (refs (messaged s now m w)) = sessionPromiseRef (refs w) /\
  startCalls (host (messaged s now m w)) = startCalls (host w).
Proof.
  unfold messaged, transcribed, flushedIf.
  destruct w as [[a er ts ci co] [p st i oc sp ms t srcs] [ss ps sc n cs]].
  cbn [refs outputAudioContextRef].
  destruct (truthy (audioChunk m)).
  - destruct oc as [c|]; [|now split].
    destruct (audioLength m) as [d|]; [|now split].
    destruct (interrupted m); now split.
  - destruct (interrupted m); now split.
Qed.

Lemma gated_afterEvent w e :
  gated w -> inTurn w e = true -> gated (afterEvent w e).
Proof.
  intros [K1 K2] Hin. pose proof (inTurn_spec w e Hin) as Ha.
  assert (Hnone : (forall k, answers e k = false) ->
                  forall k, pending w k = false).
  { intros He k. destruct (pending w k) eqn:E; [|reflexivity].
    specialize (Ha k E). now rewrite He in Ha. }
  destruct e as [| |k o|sid|sid now m|sid msg|sid|sid ok|sid throws|p d|n];
    unfold afterEvent.
  - specialize (Hnone (fun _ => eq_refl)).
    destruct (isSessionActive (ui w)) eqn:Eact; [now apply gated_stopped|].
    specialize (K1 eq_refl). split; [discriminate|].
    intros k _. split; [reflexivity|].
    destruct w as [u r h]. exact K1.
  - apply gated_stopped. now apply Hnone.
  - destruct (nth_error (startCalls (host w)) k) as [c|] eqn:Ek;
      [|now split].
    destruct (awaiting c) eqn:Ec; [|now split].
    assert (Hk : pending w k = true) by (unfold pending; now rewrite Ek).
    destruct (K2 k Hk) as [Eact Eref].
    assert (Hp : forall k', pending (resumed c o (marked k w)) k' = false).
    { intros k'.
      assert (E : pending (resumed c o (marked k w)) k'
                  = pending (marked k w) k').
      { unfold pending. destruct (marked k w) as [u r [ss ps sc n cs]].
        now destruct o. }
      rewrite E, pending_marked.
      destruct (Nat.eqb_spec k k') as [_ | Hne]; [reflexivity|].
      destruct (pending w k') eqn:E'; [|reflexivity].
      specialize (Ha k' E'). cbn in Ha. apply Nat.eqb_eq in Ha. congruence. }
    split.
    + intros Hi. destruct w as [u r [ss ps sc n cs]]. cbn in Eact, Eref.
      destruct o; cbn in Hi |- *; [exact Eref | exact Eref | congruence].
    + intros k' Hk'. rewrite Hp in Hk'. discriminate.
  - eapply gated_same; [| | |split; [exact K1 | exact K2]];
      destruct (nth_error (sessions (host w)) sid),
        (inputAudioContextRef (refs w)); reflexivity.
  - eapply gated_same; [| | |split; [exact K1 | exact K2]];
      destruct (nth_error (sessions (host w)) sid) as [s|]; try reflexivity;
      destruct (malformed m); try reflexivity.
    + now destruct (ui_messaged s now m w) as [-> _].
    + now destruct (messaged_frame s now m w) as [-> _].
    + now destruct (messaged_frame s now m w) as [_ ->].
  - destruct (nth_error (sessions (host w)) sid);
      [|now split].
    apply gated_stopped. intros k.
    exact (Hnone (fun _ => eq_refl) k).
  - destruct (nth_error (sessions (host w)) sid);
      [|now split].
    apply gated_stopped. exact (Hnone (fun _ => eq_refl)).
  - eapply gated_same; [| | |split; [exact K1 | exact K2]];
      now destruct w.
  - eapply gated_same; [| | |split; [exact K1 | exact K2]];
      unfold jobDone;
      destruct (nth_error (sessions (host w)) sid) as [s|]; try reflexivity;
      destruct (promise s), (reactions s); try reflexivity; now destruct w.
  - eapply gated_same; [| | |split; [exact K1 | exact K2]];
      destruct (existsb (Nat.eqb p) (processors (host w))); try reflexivity;
      destruct w as [u [q st i oc sp ms t srcs] h]; now destruct q.
  - eapply gated_same; [| | |split; [exact K1 | exact K2]]; now destruct w.
Qed.

Lemma gated_initial : gated initial.
Proof.
  split; [reflexivity|]. intros k Hk. unfold pending in Hk. cbn in Hk.
  destruct k; discriminate.
Qed.

Lemma gated_run evs :
  forall w, gated w -> promptly w evs = true -> gated (run evs w).
Proof.
  induction evs as [|e r IH]; intros w K Hp; [exact K|].
  cbn [promptly] in Hp. apply andb_true_iff in Hp as [He Hr].
  change (run (e :: r) w) with (run r (step w e)).
  apply IH; [|exact Hr].
  rewrite step_afterEvent. now apply gated_afterEvent.
Qed.

Lemma button_gate (evs : list Event) :
  promptly initial evs = true ->
  let w := run evs initial in
  (isSessionActive (ui w) = true ->
   step w Click = exec stopSession w /\
   startCalls (host (step w Click)) = startCalls (host w)) /\
  (isSessionActive (ui w) = false ->
   step w Click = exec startSession w /\
   sessionPromiseRef (refs w) = None /\
   forall k, pending w k = false) /\
  startSession w = (Normal tt, exec startSession w) /\
  error (ui (exec startSession w)) = None /\
  isSessionActive (ui (exec startSession w)) = true.
Proof.
  intros Hp w. destruct (gated_run evs initial gated_initial Hp) as [K1 K2].
  fold w in K1, K2. split; [|split].
  - intros Ha. rewrite step_afterEvent. unfold afterEvent. rewrite Ha.
    split.
    + unfold exec. now rewrite stopSession_eq.
    + destruct w as [u [p st i oc sp ms t srcs] h]. now destruct p.
  - intros Ha. split; [|split].
    + rewrite step_afterEvent. unfold afterEvent. rewrite Ha.
      unfold exec. now rewrite startSession_eq.
    + now apply K1.
    + intros k. destruct (pending w k) eqn:E; [|reflexivity].
      destruct (K2 k E) as [Ha' _]. congruence.
  - unfold exec. rewrite startSession_eq. repeat split.
Qed.

(** C4, as the code has it.  [startSession] has no guard of its own: it
    returns normally, sets no error and marks the session active.  Only
    the button chooses between starting and stopping.  After any events in
    which each answer of [getUserMedia] comes before anything else happens,
    a click while the session is active runs [stopSession] and starts
    nothing; a click while it is inactive runs [startSession], and then the
    component holds no session promise and no earlier start still waits,
    so a start by the button never meets a session that was not stopped. *)
Theorem start_gated_by_button (evs : list Event) :
  promptly initial evs = true ->
  let w := run evs initial in
  (isSessionActive (ui w) = true ->
   step w Click = exec stopSession w /\
   startCalls (host (step w Click)) = startCalls (host w)) /\
  (isSessionActive (ui w) = false ->
   step w Click = exec startSession w /\
   sessionPromiseRef (refs w) = None /\
   forall k, pending w k = false) /\
  startSession w = (Normal tt, exec startSession w) /\
  error (ui (exec startSession w)) = None /\
  isSessionActive (ui (exec startSession w)) = true.
Proof. exact (button_gate evs). Qed.

Lemma start_gated_by_button_witness :
  let evs := [Click; MediaSettled 0 Connecting; SessionOpen 0;
              Settled 0 true; Click; Click;
              MediaSettled 1 (MediaDenied "no")] in
  promptly initial evs = true /\
  let w := run evs initial in
  (isSessionActive (ui w) = true ->
   step w Click = exec stopSession w /\
   startCalls (host (step w Click)) = startCalls (host w)) /\
  (isSessionActive (ui w) = false ->
   step w Click = exec startSession w /\
   sessionPromiseRef (refs w) = None /\
   forall k, pending w k = false) /\
  startSession w = (Normal tt, exec startSession w) /\
  error (ui (exec startSession w)) = None /\
  isSessionActive (ui (exec startSession w)) = true.
Proof.
  split.
  - vm_compute. reflexivity.
  - apply (start_gated_by_button
             [Click; MediaSettled 0 Connecting; SessionOpen 0;
              Settled 0 true; Click; Click;
              MediaSettled 1 (MediaDenied "no")]).
    vm_compute. reflexivity.
Defined.

(** C4, as stated, fails, and the button no longer keeps a start from an
    open session once an answer of [getUserMedia] is late.  In [staleRefusal] the button
    starts twice; the first start is stopped while it waits, the second
    connects and its session opens, and then the first is refused the
    microphone: its handler marks the page inactive and touches no ref.
    The component now holds an open session and shows the button that
    starts.  The next click runs [startSession] with no [stopSession]
    since the second start: it returns normally and sets no error, and
    once the microphone is granted the refs hold a new stream, new audio
    contexts and a new session promise, while the first session was never
    closed and its stream never stopped. *)
Lemma second_start_not_rejected :
  let w := run staleRefusal initial in
  let w1 := step w Click in
  let w2 := step w1 (MediaSettled 2 Connecting) in
  promptly initial staleRefusal = false /\
  isSessionActive (ui w) = false /\
  sessionPromiseRef (refs w) = Some 0%nat /\
  map promise (sessions (host w)) = [Fulfilled] /\
  mediaStreamRef (refs w) = Some 0%nat /\
  calls (host w) = [] /\
  map reactions (sessions (host w)) = [[]] /\
  startSession w = (Normal tt, w1) /\
  error (ui w1) = None /\
  isSessionActive (ui w1) = true /\
  error (ui w2) = None /\
  sessionPromiseRef (refs w2) = Some 1%nat /\
  mediaStreamRef (refs w2) = Some 5%nat /\
  map promise (sessions (host w2)) = [Fulfilled; Pending] /\
  map reactions (sessions (host w2)) = [[]; []] /\
  calls (host w2) = [].
Proof. vm_compute. repeat split. Qed.

(** * Character Studio *)

Import CharacterStudio.

(** ** The loading messages *)

Lemma nextLoadingMessage_nth (i : nat) :
  (i < 6)%nat ->
  nextLoadingMessage (nth_error LOADING_MESSAGES i)
  = nth_error LOADING_MESSAGES ((i + 1) mod 6).
Proof.
  intros H.
  do 6 (destruct i as [|i]; [reflexivity|]). lia.
Qed.

Lemma loadingMessageAfter_nth (n : nat) :
  loadingMessageAfter n = nth_error LOADING_MESSAGES (n mod 6).
Proof.
  induction n as [|n IH]; [reflexivity|].
  change (loadingMessageAfter (S n))
    with (nextLoadingMessage (loadingMessageAfter n)).
  rewrite IH.
  rewrite nextLoadingMessage_nth by (apply Nat.mod_upper_bound; lia).
  f_equal. replace (S n) with (n + 1)%nat by lia.
  rewrite (Nat.Div0.add_mod n 1 6). reflexivity.
Qed.

(** X24. While a video is generated the six loading messages are shown in
    their order and then again from the first: after [n] ticks of the
    interval the message is the one of index [n mod 6]. *)
Theorem loading_messages_cycle (n : nat) :
  loadingMessageAfter n
  = nth_error LOADING_MESSAGES (n mod length LOADING_MESSAGES).
Proof. exact (loadingMessageAfter_nth n). Qed.

(** ** Polling *)

Lemma pollOperation_cases (answers : list (Operation -> option Operation)) :
  forall operation,
    (fst (pollOperation operation answers) <= length answers)%nat /\
    match snd (pollOperation operation answers) with
    | Resolved completed => done completed = true
    | RejectedWith e =>
        message e = Some "Failed while polling for video status."%string
    | Waiting => True
    end.
Proof.
  induction answers as [|get rest IH]; intros operation; cbn [pollOperation].
  - destruct (done operation) eqn:E; cbn; [split; [lia | exact E] | split; [lia | exact I]].
  - destruct (done operation) eqn:E; [cbn; split; [lia | exact E]|].
    destruct (get operation) as [next|]; [|cbn; split; [lia | reflexivity]].
    specialize (IH next). destruct (pollOperation next rest) as [waits r].
    cbn in IH |- *. split; [lia | apply IH].
Qed.

(** X25. [pollOperation] resolves only with an operation that is done, and
    rejects only with its own message, whatever the service threw; it waits
    ten seconds at most once per answer of the service. *)
Theorem pollOperation_settles (operation : Operation)
    (answers : list (Operation -> option Operation)) :
  (fst (pollOperation operation answers) <= length answers)%nat /\
  match snd (pollOperation operation answers) with
  | Resolved completed => done completed = true
  | RejectedWith e =>
      message e = Some "Failed while polling for video status."%string
  | Waiting => True
  end.
Proof. exact (pollOperation_cases answers operation). Qed.

(** ** Reading a file *)

Lemma split_without (separator : Z) (s : jsstring) :
  ~ In separator s -> split separator s = [s].
Proof.
  induction s as [|c r IH]; intros H; [reflexivity|].
  cbn [split]. destruct (Z.eqb_spec c separator) as [-> | _].
  - exfalso. apply H. now left.
  - rewrite IH; [reflexivity|]. intros Hin. apply H. now right.
Qed.

Lemma split_first (separator : Z) (s t : jsstring) :
  ~ In separator s ->
  split separator (s ++ separator :: t) = s :: split separator t.
Proof.
  induction s as [|c r IH]; intros H; cbn [app split].
  - now rewrite Z.eqb_refl.
  - destruct (Z.eqb_spec c separator) as [-> | _].
    + exfalso. apply H. now left.
    + rewrite IH; [reflexivity|]. intros Hin. apply H. now right.
Qed.

Lemma base64_no_comma (s : jsstring) : Forall isBase64Char s -> ~ In comma s.
Proof.
  intros H Hin. rewrite Forall_forall in H.
  destruct (H _ Hin) as [Hs | Hp]; [now apply Hs | discriminate].
Qed.

Lemma fileToBase64_dataURL (t mediaType base64 : jsstring) :
  ~ In comma mediaType ->
  ~ In comma base64 ->
  fileToBase64
    {| type := t;
       dataURL := Some (js "data:" ++ mediaType ++ js ";base64," ++ base64) |}
  = inr (Some base64).
Proof.
  intros Hm Hb. unfold fileToBase64. cbn [dataURL].
  replace (js "data:" ++ mediaType ++ js ";base64," ++ base64)
    with ((js "data:" ++ mediaType ++ js ";base64") ++ comma :: base64)
    by (rewrite <- !app_assoc; reflexivity).
  rewrite split_first, split_without by
    (try assumption; rewrite !in_app_iff; cbn; unfold comma in *;
     intuition discriminate).
  reflexivity.
Qed.

(** X26. [fileToBase64] gives the base64 text of the file: for a data URL
    of the form [data:<media type>;base64,<text>] whose media type has no
    comma, the promise resolves with the text, and [decode] of it gives the
    bytes of the file back. *)
Theorem fileToBase64_decodes (t mediaType : jsstring) (bytes : Uint8Array) :
  Forall is_byte bytes ->
  ~ In comma mediaType ->
  exists base64,
    encode bytes = Some base64 /\
    fileToBase64
      {| type := t;
         dataURL := Some (js "data:" ++ mediaType ++ js ";base64," ++ base64) |}
    = inr (Some base64) /\
    decode base64 = Some bytes.
Proof.
  intros Hb Hm.
  destruct (decode_encode_bytes bytes Hb) as [base64 [He Hd]].
  exists base64. split; [exact He|]. split; [|exact Hd].
  apply fileToBase64_dataURL; [exact Hm|].
  apply base64_no_comma.
  rewrite (encode_bytes bytes Hb) in He. injection He as <-.
  now apply encoded_alphabet.
Qed.

Lemma fileToBase64_decodes_witness :
  exists base64,
    encode [137; 80; 78; 71] = Some base64 /\
    fileToBase64
      {| type := js "image/png";
         dataURL := Some (js "data:" ++ js "image/png" ++ js ";base64,"
                          ++ base64) |}
    = inr (Some base64) /\
    decode base64 = Some [137; 80; 78; 71].
Proof.
  apply (fileToBase64_decodes (js "image/png") (js "image/png")
           [137; 80; 78; 71]).
  - repeat constructor; unfold is_byte; lia.
  - cbn. unfold comma. intuition discriminate.
Defined.

(** ** Generating *)

Lemma handleGenerate_cases (s : State) (env : Env) :
  isGenerateDisabled s = false ->
  (isLoading (fst (handleGenerate s env)) = true /\
   videoUrl (fst (handleGenerate s env)) = None /\
   error (fst (handleGenerate s env)) = None /\
   fst (attempt (set_videoUrl None (set_error None (set_isLoading true s))) env)
   = Polling)
  \/ (isLoading (fst (handleGenerate s env)) = false /\
      ((videoUrl (fst (handleGenerate s env)) <> None /\
        error (fst (handleGenerate s env)) = None)
       \/ (videoUrl (fst (handleGenerate s env)) = None /\
           error (fst (handleGenerate s env)) <> None))).
Proof.
  unfold isGenerateDisabled. intros H.
  apply orb_false_elim in H. destruct H as [H H3].
  apply orb_false_elim in H. destruct H as [H1 H2].
  unfold handleGenerate. rewrite H2, H3. cbn [orb].
  destruct (attempt _ env) as [[url | e |] requests]; cbn [fst].
  - right. split; [reflexivity|]. left. split; [discriminate | reflexivity].
  - right. split; [now destruct (includes _ _)|]. right.
    destruct (includes _ _); split; cbn; first [reflexivity | discriminate].
  - left. repeat split.
Qed.

(** X27. A click on the enabled button ends in exactly one of a video and
    an error: once [handleGenerate] has returned, [isLoading] is false and
    either [videoUrl] is set and [error] is not, or [error] is set and
    [videoUrl] is not; until then, while the operation is polled, the page
    is loading and shows neither. *)
Theorem handleGenerate_outcome (s : State) (env : Env) :
  isGenerateDisabled s = false ->
  (isLoading (fst (handleGenerate s env)) = true /\
   videoUrl (fst (handleGenerate s env)) = None /\
   error (fst (handleGenerate s env)) = None /\
   fst (attempt (set_videoUrl None (set_error None (set_isLoading true s))) env)
   = Polling)
  \/ (isLoading (fst (handleGenerate s env)) = false /\
      ((videoUrl (fst (handleGenerate s env)) <> None /\
        error (fst (handleGenerate s env)) = None)
       \/ (videoUrl (fst (handleGenerate s env)) = None /\
           error (fst (handleGenerate s env)) <> None))).
Proof. exact (handleGenerate_cases s env). Qed.

Lemma handleGenerate_outcome_witness :
  (isLoading (fst (handleGenerate sampleState sampleEnv)) = true /\
   videoUrl (fst (handleGenerate sampleState sampleEnv)) = None /\
   error (fst (handleGenerate sampleState sampleEnv)) = None /\
   fst (attempt (set_videoUrl None
                   (set_error None (set_isLoading true sampleState)))
          sampleEnv)
   = Polling)
  \/ (isLoading (fst (handleGenerate sampleState sampleEnv)) = false /\
      ((videoUrl (fst (handleGenerate sampleState sampleEnv)) <> None /\
        error (fst (handleGenerate sampleState sampleEnv)) = None)
       \/ (videoUrl (fst (handleGenerate sampleState sampleEnv)) = None /\
           error (fst (handleGenerate sampleState sampleEnv)) <> None))).
Proof. apply (handleGenerate_outcome sampleState sampleEnv). reflexivity. Defined.

Lemma referenceImagesPayload_spec (files : list (option File)) :
  forall l,
    referenceImagesPayload files = inr l ->
    Forall2 (fun image file =>
               mimeType image = type file
               /\ fileToBase64 file = inr (imageBytes image))
      l (uploaded files).
Proof.
  induction files as [|[file|] rest IH]; intros l H; cbn in H |- *.
  - injection H as <-. constructor.
  - destruct (fileToBase64 file) as [e|base64] eqn:Ef; [discriminate|].
    destruct (referenceImagesPayload rest) as [e|l'] eqn:Er; [discriminate|].
    injection H as <-. constructor; [now split | now apply IH].
  - now apply IH.
Qed.

Lemma uploaded_nonempty (files : list (option File)) :
  existsb isSome files = true -> uploaded files <> [].
Proof.
  induction files as [|[file|] rest IH]; cbn; intros H;
    [discriminate | discriminate | now apply IH].
Qed.

Lemma handleGenerate_requests (s : State) (env : Env) (r : Request) :
  In r (snd (handleGenerate s env)) ->
  snd (handleGenerate s env) = [r] /\
  requestPrompt r = prompt s /\
  uploaded (refImages s) <> [] /\
  Forall2 (fun image file =>
             mimeType image = type file
             /\ fileToBase64 file = inr (imageBytes image))
    (referenceImages r) (uploaded (refImages s)).
Proof.
  unfold handleGenerate.
  destruct (nonEmpty (trim (prompt s))); [|intros []].
  destruct (existsb isSome (refImages s)) eqn:Ei; [|intros []].
  cbn [negb orb]. unfold attempt. cbn [refImages prompt set_videoUrl
                                         set_error set_isLoading].
  destruct (newClient env); [intros []|].
  destruct (referenceImagesPayload (refImages s)) as [e|payload] eqn:Ep;
    [intros []|].
  cbn [snd]. intros [<- | []]. cbn [requestPrompt referenceImages].
  repeat split;
    [now apply uploaded_nonempty | now apply referenceImagesPayload_spec].
Qed.

(** X28. [handleGenerate] asks for at most one video, and the request it
    makes carries the prompt as typed and one reference image per filled
    slot, in the order of the slots, each with the type of its file and
    the base64 text [fileToBase64] read of it; there is at least one. *)
Theorem handleGenerate_request (s : State) (env : Env) (r : Request) :
  In r (snd (handleGenerate s env)) ->
  snd (handleGenerate s env) = [r] /\
  requestPrompt r = prompt s /\
  uploaded (refImages s) <> [] /\
  Forall2 (fun image file =>
             mimeType image = type file
             /\ fileToBase64 file = inr (imageBytes image))
    (referenceImages r) (uploaded (refImages s)).
Proof. exact (handleGenerate_requests s env r). Qed.

Lemma handleGenerate_request_witness :
  snd (handleGenerate sampleState sampleEnv) = [sampleRequest] /\
  requestPrompt sampleRequest = prompt sampleState /\
  uploaded (refImages sampleState) <> [] /\
  Forall2 (fun image file =>
             mimeType image = type file
             /\ fileToBase64 file = inr (imageBytes image))
    (referenceImages sampleRequest) (uploaded (refImages sampleState)).
Proof.
  apply (handleGenerate_request sampleState sampleEnv sampleRequest).
  left. reflexivity.
Defined.

(** ** Uploads and previews *)

Lemma nth_assignItem_same {A : Type} (v : option A) (l : list (option A)) :
  forall i, nth i (assignItem i v l) None = v.
Proof.
  intros i. revert l.
  induction i as [|i IH]; intros [|x r]; cbn; try reflexivity; apply IH.
Qed.

Lemma nth_assignItem_other {A : Type} (v : option A) (l : list (option A)) :
  forall i k, i <> k -> nth k (assignItem i v l) None = nth k l None.
Proof.
  intros i. revert l.
  induction i as [|i IH]; intros [|x r] [|k] H; cbn; try reflexivity;
    try congruence.
  - now destruct k.
  - rewrite IH by congruence. now destruct k.
  - apply IH. congruence.
Qed.

Lemma map_assignItem {A B : Type} (g : option A -> option B)
    (v : option A) (l : list (option A)) :
  g None = None ->
  forall i, map g (assignItem i v l) = assignItem i (g v) (map g l).
Proof.
  intros Hg i. revert l.
  induction i as [|i IH]; intros [|x r]; cbn; try reflexivity.
  - rewrite Hg. f_equal. apply (IH []).
  - f_equal. apply IH.
Qed.

Lemma actAll_cons a actions p : actAll (a :: actions) p = actAll actions (act p a).
Proof. reflexivity. Qed.

Lemma actAll_app a b p : actAll (a ++ b) p = actAll b (actAll a p).
Proof. apply fold_left_app. Qed.

Lemma nth_error_last {A : Type} (l : list A) (x : A) :
  nth_error (l ++ [x]) (length l) = Some x.
Proof. rewrite nth_error_app2, Nat.sub_diag by lia. reflexivity. Qed.

Lemma removeNth_last {A : Type} (l : list A) (x : A) :
  removeNth (length l) (l ++ [x]) = l.
Proof. induction l as [|y l IH]; cbn; [reflexivity | now rewrite IH]. Qed.

Lemma removeNth_last2 {A : Type} (l : list A) (x y : A) :
  removeNth (length l) ((l ++ [x]) ++ [y]) = l ++ [y].
Proof. induction l as [|z l IH]; cbn; [reflexivity | now rewrite IH]. Qed.

Lemma nth_error_last2 {A : Type} (l : list A) (x y : A) :
  nth_error ((l ++ [x]) ++ [y]) (S (length l)) = Some y.
Proof. induction l as [|z l IH]; cbn; [reflexivity | exact IH]. Qed.

Lemma removeNth_last1 {A : Type} (l : list A) (x y : A) :
  removeNth (S (length l)) ((l ++ [x]) ++ [y]) = l ++ [x].
Proof.
  induction l as [|z l IH]; cbn; [reflexivity|]. f_equal. exact IH.
Qed.

(** X29. Of two reads under way at once, for different slots, the one that
    ends first loses its preview, whichever of the two it is: [onloadend]
    copies the previews of the render that started the read, so the read
    that ends last sets its own slot and puts the other slot back as it was
    before the uploads.  Both files stay in [refImages]. *)
Theorem overlapping_reads_lose_preview (p : Page) (i j : nat) (a b : File) :
  i <> j ->
  let n := length (readers p) in
  let firstEndsFirst :=
    state (actAll [Upload i (Some a); Upload j (Some b);
                   LoadEnd n; LoadEnd n] p) in
  let secondEndsFirst :=
    state (actAll [Upload i (Some a); Upload j (Some b);
                   LoadEnd (S n); LoadEnd n] p) in
  (nth i (refImages firstEndsFirst) None = Some a /\
   nth j (refImages firstEndsFirst) None = Some b /\
   nth i (refImagePreviews firstEndsFirst) None
   = nth i (refImagePreviews (state p)) None /\
   nth j (refImagePreviews firstEndsFirst) None = dataURL b) /\
  (nth i (refImages secondEndsFirst) None = Some a /\
   nth j (refImages secondEndsFirst) None = Some b /\
   nth i (refImagePreviews secondEndsFirst) None = dataURL a /\
   nth j (refImagePreviews secondEndsFirst) None
   = nth j (refImagePreviews (state p)) None).
Proof.
  intros Hij. destruct p as [s rs].
  unfold actAll. cbn [fold_left act state readers refImagePreviews
                        set_refImages refImages].
  split.
  - rewrite nth_error_app1 by (rewrite length_app; cbn; lia).
    rewrite nth_error_last. cbn [state readers slot result closurePreviews].
    rewrite removeNth_last2, nth_error_last.
    cbn [state readers slot result closurePreviews set_refImagePreviews
           refImages refImagePreviews set_refImages].
    repeat split.
    + rewrite nth_assignItem_other by congruence. apply nth_assignItem_same.
    + apply nth_assignItem_same.
    + apply nth_assignItem_other. congruence.
    + apply nth_assignItem_same.
  - rewrite nth_error_last2. cbn [state readers slot result closurePreviews].
    rewrite removeNth_last1, nth_error_last.
    cbn [state readers slot result closurePreviews set_refImagePreviews
           refImages refImagePreviews set_refImages].
    repeat split.
    + rewrite nth_assignItem_other by congruence. apply nth_assignItem_same.
    + apply nth_assignItem_same.
    + apply nth_assignItem_same.
    + apply nth_assignItem_other. congruence.
Qed.

Lemma overlapping_reads_lose_preview_witness :
  let a := {| type := js "image/png";
              dataURL := Some (js "data:image/png;base64,AAAA") |} in
  let b := {| type := js "image/png";
              dataURL := Some (js "data:image/png;base64,BBBB") |} in
  let firstEndsFirst :=
    state (actAll [Upload 0 (Some a); Upload 1 (Some b);
                   LoadEnd 0; LoadEnd 0] initialPage) in
  let secondEndsFirst :=
    state (actAll [Upload 0 (Some a); Upload 1 (Some b);
                   LoadEnd 1; LoadEnd 0] initialPage) in
  (nth 0 (refImages firstEndsFirst) None = Some a /\
   nth 1 (refImages firstEndsFirst) None = Some b /\
   nth 0 (refImagePreviews firstEndsFirst) None = None /\
   nth 1 (refImagePreviews firstEndsFirst) None = dataURL b) /\
  (nth 0 (refImages secondEndsFirst) None = Some a /\
   nth 1 (refImages secondEndsFirst) None = Some b /\
   nth 0 (refImagePreviews secondEndsFirst) None = dataURL a /\
   nth 1 (refImagePreviews secondEndsFirst) None = None).
Proof.
  intros a b.
  apply (overlapping_reads_lose_preview initialPage 0 1 a b). lia.
Defined.

Lemma sequential_uploads (uploads : list (nat * File)) :
  forall p,
    readers p = [] ->
    refImagePreviews (state p) = map previewOf (refImages (state p)) ->
    refImagePreviews (state (actAll (flat_map uploadAndLoad uploads) p))
    = map previewOf
        (refImages (state (actAll (flat_map uploadAndLoad uploads) p))) /\
    readers (actAll (flat_map uploadAndLoad uploads) p) = [].
Proof.
  induction uploads as [|[i f] rest IH]; intros p Hr Hp; [now split|].
  cbn [flat_map]. rewrite actAll_app. apply IH.
  - destruct p as [s rs]. cbn in Hr. subst rs. reflexivity.
  - destruct p as [s rs]. cbn in Hr, Hp. subst rs.
    unfold actAll, uploadAndLoad. cbn. rewrite Hp.
    now rewrite (map_assignItem previewOf).
Qed.

(** X30. When every read ends before the next upload, the previews stay in
    step with the images: after any such uploads, each slot shows the data
    URL of the file it holds, and no read is left under way. *)
Theorem sequential_uploads_keep_previews (uploads : list (nat * File))
    (p : Page) :
  readers p = [] ->
  refImagePreviews (state p) = map previewOf (refImages (state p)) ->
  refImagePreviews (state (actAll (flat_map uploadAndLoad uploads) p))
  = map previewOf
      (refImages (state (actAll (flat_map uploadAndLoad uploads) p))) /\
  readers (actAll (flat_map uploadAndLoad uploads) p) = [].
Proof. exact (sequential_uploads uploads p). Qed.

Lemma sequential_uploads_keep_previews_witness :
  refImagePreviews
    (state (actAll
              (flat_map uploadAndLoad
                 [(2%nat, {| type := js "image/png";
                             dataURL := Some (js "data:image/png;base64,AAAA") |});
                  (0%nat, {| type := js "image/jpeg";
                             dataURL := Some (js "data:image/jpeg;base64,BBBB") |})])
              initialPage))
  = map previewOf
      (refImages
         (state (actAll
                   (flat_map uploadAndLoad
                      [(2%nat, {| type := js "image/png";
                                  dataURL := Some (js "data:image/png;base64,AAAA") |});
                       (0%nat, {| type := js "image/jpeg";
                                  dataURL := Some (js "data:image/jpeg;base64,BBBB") |})])
                   initialPage))) /\
  readers
    (actAll
       (flat_map uploadAndLoad
          [(2%nat, {| type := js "image/png";
                      dataURL := Some (js "data:image/png;base64,AAAA") |});
           (0%nat, {| type := js "image/jpeg";
                      dataURL := Some (js "data:image/jpeg;base64,BBBB") |})])
       initialPage) = [].
Proof.
  apply (sequential_uploads_keep_previews
           [(2%nat, {| type := js "image/png";
                       dataURL := Some (js "data:image/png;base64,AAAA") |});
            (0%nat, {| type := js "image/jpeg";
                       dataURL := Some (js "data:image/jpeg;base64,BBBB") |})]
           initialPage); reflexivity.
Defined.
